(** * The session orchestrator of the Riju backend (backend/src/api.ts)

    A shallow embedding of the [Session] class: one session object, the
    processes and listeners it owns, and the asynchronous functions
    [setup], [send], [sendError], [receive], [runCode] and [teardown].

    JavaScript runs each handler to its next [await]; the rest of the
    function is a continuation that resumes in a later turn of the event
    loop.  The embedding keeps that structure: a synchronous segment is a
    computation in a state-and-exception monad, a suspended function is an
    entry of a pool of pending continuations, and one turn of the event
    loop either fires an emitter (websocket, pty, child process) or
    settles one pending continuation. *)

From Stdlib Require Import String Ascii List Bool Arith Lia DecimalString.
From stdpp Require Import base list strings.
Import ListNotations.

#[local] Set Warnings "-register-all".
Local Open Scope string_scope.
Local Open Scope list_scope.

(** ** Values that cross the websocket *)

(** The result of [JSON.parse] on an inbound frame. *)
Inductive json : Type :=
| JNull
| JBool (b : bool)
| JNum (n : Z)
| JStr (s : string)
| JArr (items : list json)
| JObj (fields : list (string * json)).

(** JavaScript truthiness of a parsed value. *)
Definition truthy (j : json) : bool :=
  match j with
  | JNull => false
  | JBool b => b
  | JNum n => negb (Z.eqb n 0)
  | JStr s => negb (s =? "")
  | JArr _ | JObj _ => true
  end.

(** [fields] is in source order; [JSON.parse] lets a later duplicate key
    overwrite an earlier one. *)
Fixpoint assoc_last (k : string) (fields : list (string * json)) : option json :=
  match fields with
  | [] => None
  | (k', v) :: rest =>
      match assoc_last k rest with
      | Some w => Some w
      | None => if k' =? k then Some v else None
      end
  end.

(** [j.k] for a truthy [j] and a key [k] that no built-in prototype
    defines ("event", "input", "code"): [None] stands for [undefined]. *)
Definition prop (j : json) (k : string) : option json :=
  match j with
  | JObj fields => assoc_last k fields
  | _ => None
  end.

Inductive jstype : Type :=
  ty_undefined | ty_object | ty_boolean | ty_number | ty_string.

(** [typeof v]: [null] and arrays are "object". *)
Definition typeof (v : option json) : jstype :=
  match v with
  | None => ty_undefined
  | Some JNull => ty_object
  | Some (JBool _) => ty_boolean
  | Some (JNum _) => ty_number
  | Some (JStr _) => ty_string
  | Some (JArr _) => ty_object
  | Some (JObj _) => ty_object
  end.

(** Whether the template literal [`${j}`] evaluates.  An object converts
    through [Object.prototype.toString] unless it has an own property
    "toString" (never callable in parsed JSON), in which case the
    conversion raises a TypeError; an array joins the conversions of its
    elements, skipping [null]. *)
Fixpoint printable (j : json) : bool :=
  match j with
  | JArr items => forallb printable items
  | JObj fields => negb (existsb (fun kv => fst kv =? "toString") fields)
  | _ => true
  end.

(** Truthiness of a string and of an optional string property. *)
Definition nonempty (s : string) : bool := negb (s =? "").

Definition present (o : option string) : bool :=
  match o with
  | Some s => nonempty s
  | None => false
  end.

Definition decimal (n : nat) : string := NilZero.string_of_uint (Nat.to_uint n).

Definition LF : string := String (ascii_of_nat 10) EmptyString.
Definition CR : string := String (ascii_of_nat 13) EmptyString.

Fixpoint includes_char (c : ascii) (s : string) : bool :=
  match s with
  | EmptyString => false
  | String c' rest => if Ascii.eqb c c' then true else includes_char c rest
  end.

(** ** The language descriptor *)

(** Modelled from the spec: the [LangConfig] record of ./langs, which the
    source imports and destructures in [runCode]; fields carry the names
    the source uses ([createEmpty] is the spec's emptyIsBlank). *)
Module Lang.
Record LangConfig : Type := {
  name : string;
  repl : option string;
  main : string;
  suffix : option string;
  createEmpty : bool;
  compile : option string;
  run : string;
  template : string;
  hacks : option (list string);
  daemon : option string;
  lsp : option string;
  lspSetup : option string
}.
End Lang.
Abbreviation LangConfig := Lang.LangConfig.

Definition text (o : option string) : string :=
  match o with
  | Some s => s
  | None => ""
  end.

(** Lines 276-286 of [runCode]: the command line for the new terminal.
    [if (code)], [if (compile)] and [else if (repl)] test truthiness. *)
Definition cmdline_of (cfg : LangConfig) (code : option string) : string :=
  if present code then
    if present (Lang.compile cfg)
    then "( " +:+ text (Lang.compile cfg) +:+ " ) && ( " +:+ Lang.run cfg +:+ " )"
    else Lang.run cfg
  else if present (Lang.repl cfg) then text (Lang.repl cfg)
  else "echo '" +:+ Lang.name cfg +:+ " has no REPL, press Run to see it in action'".

(** Lines 287-292 of [runCode]: the text written to the entry point. *)
Definition default_code (cfg : LangConfig) (code : option string) : string :=
  match code with
  | Some c => c
  | None => if Lang.createEmpty cfg then "" else Lang.template cfg
  end.

Definition deployed_code (cfg : LangConfig) (code : option string) : string :=
  let c := default_code cfg code in
  if nonempty c && present (Lang.suffix cfg) then c +:+ text (Lang.suffix cfg) else c.

(** Line 310: [hacks && hacks.includes("ghci-config") && run]. *)
Definition ghci_hack (cfg : LangConfig) : bool :=
  match Lang.hacks cfg with
  | Some hs => existsb (fun h => h =? "ghci-config") hs && nonempty (Lang.run cfg)
  | None => false
  end.

(** ** Commands, frames, effects *)

(** A rendered error, as [`${err}`] prints it. *)
Definition Err : Type := string.

(** [this.context]: the pair handed to the privilege boundary. *)
Record Context : Type := { ctx_uid : nat; ctx_uuid : string }.

(** The argument vectors the session builds.  [bash] comes from ./util
    and [path.dirname], [path.resolve] from Node, so the vectors stay
    symbolic:
    - [Bash c] is [bash(c)];
    - [MkdirP p] is ["mkdir", "-p", path.dirname(p)];
    - [CatInto d f] is ["sh", "-c", `cat > ${path.resolve(d, f)}`];
    - [CatTo p] is ["sh", "-c", `cat > ${p}`];
    - [RmF p] is ["rm", "-f", p]. *)
Inductive Args : Type :=
| Bash (cmdline : string)
| MkdirP (p : string)
| CatInto (dir file : string)
| CatTo (p : string)
| RmF (p : string).

(** What [util.privilegedSetup], [util.privilegedSpawn] and
    [util.privilegedTeardown] return, kept symbolic as well. *)
Inductive Command : Type :=
| PrivilegedSetup (c : Context)
| PrivilegedSpawn (c : Context) (a : Args)
| PrivilegedTeardown (c : Context).

(** Outbound frames: the objects passed to [this.send]. *)
Inductive Frame : Type :=
| terminalClear
| terminalOutput (output : string)
| lspOutput (output : json)
| lspStarted (root : string)
| serviceLog (service output : string)
| serviceFailed (service error : string).

(** Calls that leave the session, other than frames and process spawns
    (those are the [sent], [children] and [ptys] fields of the state). *)
Inductive Effect : Type :=
| EBorrowUser
| ERun (cmd : Command) (input : option string)
| EPtyWrite (h : nat) (input : string)
| ELspWrite (msg : json)
| ESetTimeout (ms : nat)
| EReturnUID
| EWsTerminate.

(** Lines written by [this.log] (and the [console.log(err)] next to
    them), one constructor per format string. *)
Inductive LogEntry : Type :=
| LCreating                  (* Creating session, language ... *)
| LBorrowed (uid : nat)      (* Borrowed uid ... *)
| LSetupError (e : Err)      (* Error while setting up environment *)
| LSendFailed (e : Err)      (* Failed to send websocket message: ... *)
| LMalformed (msg : json)    (* Got malformed message from client: ... *)
| LParseFailed               (* Failed to parse message from client: ... *)
| LTermIgnored               (* terminalInput ignored because term is null *)
| LLspIgnored                (* lspInput ignored because lsp is null *)
| LHandlerError (e : Err)    (* Error while handling message from client *)
| LRunError (e : Err)        (* Error while running user code *)
| LTearingDown               (* Tearing down session *)
| LTeardownError (e : Err)   (* Error during teardown *)
| LWsError (e : Err).        (* Websocket error: ... *)

(** A pty handle: the object [{ pty, live }] stored in [this.term] and
    captured by the data callback.  Handles are indices into [ptys]. *)
Record Pty : Type := { pty_cmd : Command; pid : nat; live : bool }.

(** ** Listeners and continuations *)

(** The events of the emitters the session creates.  Most have a
    callback registered by the source.  Two never get one: the "error"
    event of the child that line 270 spawns to kill the old terminal
    ([ChKillError n], [n] being the index of that child), and the failure
    of the language server's message reader on what the server wrote
    ([ChLspReaderError]). *)
Inductive Channel : Type :=
| ChWsMessage | ChWsClose | ChWsError
| ChPtyData (h : nat)
| ChDaemonStdout | ChDaemonStderr | ChDaemonExit | ChDaemonError
| ChLspMessage | ChLspStderr | ChLspExit | ChLspError
| ChLspReaderError
| ChKillError (n : nat).

(** The callbacks the source registers, by the code they run. *)
Inductive Handler : Type :=
| HReceive                        (* this.receive *)
| HClose                          (* async () => await this.teardown() *)
| HWsError                        (* log, then await this.teardown() *)
| HTermData (h : nat)             (* if (term.live) send terminalOutput *)
| HServiceLog (service : string)  (* send serviceLog *)
| HServiceExit (service : string) (* send serviceFailed, exit status *)
| HServiceError (service : string)(* send serviceFailed, `${err}` *)
| HLspOutput.                     (* send lspOutput *)

(** What an awaiting caller does once the awaited call has finished. *)
Inductive Kont : Type :=
| KDone                  (* nothing, or the call was not awaited *)
| KSetup                 (* setup, from line 91 on *)
| KSendError (e : Err).  (* sendError, its second send *)

(** A suspended function, named after the [await] it stopped at. *)
Inductive Task : Type :=
| TKont (k : Kont)
| TSetupBorrowed                                      (* line 86 *)
| TSetupPrivileged                                    (* line 89 *)
| TSetupLspSetup                                      (* line 125 *)
| TRunCodeMkdir (code cmdline : string) (k : Kont)    (* line 294 *)
| TRunCodeWritten (code cmdline : string) (k : Kont)  (* line 302 *)
| TRunCodeHacked (cmdline : string) (k : Kont)        (* lines 312, 317 *)
| TTeardownSlept (k : Kont)                           (* line 353 *)
| TTeardownCleaned (k : Kont)                         (* line 354 *)
| TTeardownReturned (k : Kont).                       (* line 355 *)

(** What a suspended function waits for: a promise that is already
    settled (it resumes as a microtask), the grace timer, or an operation
    of the environment that may resolve or reject. *)
Inductive Wait : Type := Microtask | Timer | External.

Inductive Outcome : Type :=
| resolved (v : nat)
| rejected (e : Err).

(** ** The session and what it owns

    [config], [uuid], [tearingDown], [uidInfo], [term], [lsp] and [daemon]
    are the fields of the class; [allSessions] is this session's
    membership in the module-level set.  [ptys] and [children] are the
    processes spawned so far, [listeners] the callbacks registered with
    [on]/[listen], [pool] the suspended functions.  [sent] lists the
    frames the websocket accepted, [logs] the log lines and [effects] the
    remaining calls to the outside, each in the order they happened. *)
Record St : Type := {
  config : LangConfig;
  uuid : string;
  tearingDown : bool;
  uidInfo : option nat;
  term : option nat;
  lsp : option nat;
  daemon : option nat;
  allSessions : bool;
  ptys : list Pty;
  children : list Command;
  listeners : list (Channel * Handler);
  pool : list (Wait * Task);
  sent : list Frame;
  logs : list LogEntry;
  effects : list Effect
}.

(** Field updates. *)
Definition set_tearingDown (v : bool) (s : St) : St :=
  {| config := config s;
     uuid := uuid s;
     tearingDown := v;
     uidInfo := uidInfo s;
     term := term s;
     lsp := lsp s;
     daemon := daemon s;
     allSessions := allSessions s;
     ptys := ptys s;
     children := children s;
     listeners := listeners s;
     pool := pool s;
     sent := sent s;
     logs := logs s;
     effects := effects s |}.

Definition set_uidInfo (v : option nat) (s : St) : St :=
  {| config := config s;
     uuid := uuid s;
     tearingDown := tearingDown s;
     uidInfo := v;
     term := term s;
     lsp := lsp s;
     daemon := daemon s;
     allSessions := allSessions s;
     ptys := ptys s;
     children := children s;
     listeners := listeners s;
     pool := pool s;
     sent := sent s;
     logs := logs s;
     effects := effects s |}.

Definition set_term (v : option nat) (s : St) : St :=
  {| config := config s;
     uuid := uuid s;
     tearingDown := tearingDown s;
     uidInfo := uidInfo s;
     term := v;
     lsp := lsp s;
     daemon := daemon s;
     allSessions := allSessions s;
     ptys := ptys s;
     children := children s;
     listeners := listeners s;
     pool := pool s;
     sent := sent s;
     logs := logs s;
     effects := effects s |}.

Definition set_lsp (v : option nat) (s : St) : St :=
  {| config := config s;
     uuid := uuid s;
     tearingDown := tearingDown s;
     uidInfo := uidInfo s;
     term := term s;
     lsp := v;
     daemon := daemon s;
     allSessions := allSessions s;
     ptys := ptys s;
     children := children s;
     listeners := listeners s;
     pool := pool s;
     sent := sent s;
     logs := logs s;
     effects := effects s |}.

Definition set_daemon (v : option nat) (s : St) : St :=
  {| config := config s;
     uuid := uuid s;
     tearingDown := tearingDown s;
     uidInfo := uidInfo s;
     term := term s;
     lsp := lsp s;
     daemon := v;
     allSessions := allSessions s;
     ptys := ptys s;
     children := children s;
     listeners := listeners s;
     pool := pool s;
     sent := sent s;
     logs := logs s;
     effects := effects s |}.

Definition set_allSessions (v : bool) (s : St) : St :=
  {| config := config s;
     uuid := uuid s;
     tearingDown := tearingDown s;
     uidInfo := uidInfo s;
     term := term s;
     lsp := lsp s;
     daemon := daemon s;
     allSessions := v;
     ptys := ptys s;
     children := children s;
     listeners := listeners s;
     pool := pool s;
     sent := sent s;
     logs := logs s;
     effects := effects s |}.

Definition set_ptys (v : list Pty) (s : St) : St :=
  {| config := config s;
     uuid := uuid s;
     tearingDown := tearingDown s;
     uidInfo := uidInfo s;
     term := term s;
     lsp := lsp s;
     daemon := daemon s;
     allSessions := allSessions s;
     ptys := v;
     children := children s;
     listeners := listeners s;
     pool := pool s;
     sent := sent s;
     logs := logs s;
     effects := effects s |}.

Definition set_children (v : list Command) (s : St) : St :=
  {| config := config s;
     uuid := uuid s;
     tearingDown := tearingDown s;
     uidInfo := uidInfo s;
     term := term s;
     lsp := lsp s;
     daemon := daemon s;
     allSessions := allSessions s;
     ptys := ptys s;
     children := v;
     listeners := listeners s;
     pool := pool s;
     sent := sent s;
     logs := logs s;
     effects := effects s |}.

Definition set_listeners (v : list (Channel * Handler)) (s : St) : St :=
  {| config := config s;
     uuid := uuid s;
     tearingDown := tearingDown s;
     uidInfo := uidInfo s;
     term := term s;
     lsp := lsp s;
     daemon := daemon s;
     allSessions := allSessions s;
     ptys := ptys s;
     children := children s;
     listeners := v;
     pool := pool s;
     sent := sent s;
     logs := logs s;
     effects := effects s |}.

Definition set_pool (v : list (Wait * Task)) (s : St) : St :=
  {| config := config s;
     uuid := uuid s;
     tearingDown := tearingDown s;
     uidInfo := uidInfo s;
     term := term s;
     lsp := lsp s;
     daemon := daemon s;
     allSessions := allSessions s;
     ptys := ptys s;
     children := children s;
     listeners := listeners s;
     pool := v;
     sent := sent s;
     logs := logs s;
     effects := effects s |}.

Definition set_sent (v : list Frame) (s : St) : St :=
  {| config := config s;
     uuid := uuid s;
     tearingDown := tearingDown s;
     uidInfo := uidInfo s;
     term := term s;
     lsp := lsp s;
     daemon := daemon s;
     allSessions := allSessions s;
     ptys := ptys s;
     children := children s;
     listeners := listeners s;
     pool := pool s;
     sent := v;
     logs := logs s;
     effects := effects s |}.

Definition set_logs (v : list LogEntry) (s : St) : St :=
  {| config := config s;
     uuid := uuid s;
     tearingDown := tearingDown s;
     uidInfo := uidInfo s;
     term := term s;
     lsp := lsp s;
     daemon := daemon s;
     allSessions := allSessions s;
     ptys := ptys s;
     children := children s;
     listeners := listeners s;
     pool := pool s;
     sent := sent s;
     logs := v;
     effects := effects s |}.

Definition set_effects (v : list Effect) (s : St) : St :=
  {| config := config s;
     uuid := uuid s;
     tearingDown := tearingDown s;
     uidInfo := uidInfo s;
     term := term s;
     lsp := lsp s;
     daemon := daemon s;
     allSessions := allSessions s;
     ptys := ptys s;
     children := children s;
     listeners := listeners s;
     pool := pool s;
     sent := sent s;
     logs := logs s;
     effects := v |}.

(** ** The environment of one turn

    Synchronous library calls can throw.  Each turn of the event loop
    comes with the answers of the environment to the calls made during
    it: for each library the results of its successive calls ([None]: the
    call returns, [Some e]: it throws [e]; an exhausted list: the call
    returns), and the pids given to new ptys. *)
Record Env : Type := {
  ws_faults : list (option Err);     (* ws.send *)
  child_faults : list (option Err);  (* child_process.spawn *)
  pty_faults : list (option Err);    (* pty.spawn, pty.write *)
  rpc_faults : list (option Err);    (* lsp writer.write *)
  pids : list nat
}.

Definition quiet : Env :=
  {| ws_faults := []; child_faults := []; pty_faults := []; rpc_faults := []; pids := [] |}.

Record Mach : Type := { st : St; env : Env }.

(** ** The monad of a synchronous segment *)

Inductive Result (A : Type) : Type :=
| Val (a : A)
| Exn (e : Err).
Arguments Val {A} a.
Arguments Exn {A} e.

Definition M (A : Type) : Type := Mach -> Mach * Result A.

Definition ret {A} (a : A) : M A := fun m => (m, Val a).

Definition bind {A B} (c : M A) (f : A -> M B) : M B :=
  fun m =>
    match c m with
    | (m', Val a) => f a m'
    | (m', Exn e) => (m', Exn e)
    end.

Definition throw {A} (e : Err) : M A := fun m => (m, Exn e).

(** [try { c } catch (err) { h err }] *)
Definition try_catch {A} (c : M A) (h : Err -> M A) : M A :=
  fun m =>
    match c m with
    | (m', Val a) => (m', Val a)
    | (m', Exn e) => h e m'
    end.

Notation "x <- c ;; k" := (bind c (fun x => k))
  (at level 100, c at next level, right associativity).
Notation "c ;; k" := (bind c (fun _ => k))
  (at level 100, right associativity).

Definition gets {A} (f : St -> A) : M A := fun m => (m, Val (f (st m))).

Definition modify (f : St -> St) : M unit :=
  fun m => ({| st := f (st m); env := env m |}, Val tt).

Definition log (l : LogEntry) : M unit :=
  modify (fun s => set_logs (logs s ++ [l]) s).

Definition effect (e : Effect) : M unit :=
  modify (fun s => set_effects (effects s ++ [e]) s).

(** The next answer of one library, removed from the environment. *)
Definition next_fault (get : Env -> list (option Err))
    (put : list (option Err) -> Env -> Env) : M unit :=
  fun m =>
    match get (env m) with
    | [] => (m, Val tt)
    | o :: rest =>
        let m' := {| st := st m; env := put rest (env m) |} in
        match o with
        | None => (m', Val tt)
        | Some e => (m', Exn e)
        end
    end.

Definition put_ws (l : list (option Err)) (e : Env) : Env :=
  {| ws_faults := l; child_faults := child_faults e; pty_faults := pty_faults e;
     rpc_faults := rpc_faults e; pids := pids e |}.
Definition put_child (l : list (option Err)) (e : Env) : Env :=
  {| ws_faults := ws_faults e; child_faults := l; pty_faults := pty_faults e;
     rpc_faults := rpc_faults e; pids := pids e |}.
Definition put_pty (l : list (option Err)) (e : Env) : Env :=
  {| ws_faults := ws_faults e; child_faults := child_faults e; pty_faults := l;
     rpc_faults := rpc_faults e; pids := pids e |}.
Definition put_rpc (l : list (option Err)) (e : Env) : Env :=
  {| ws_faults := ws_faults e; child_faults := child_faults e; pty_faults := pty_faults e;
     rpc_faults := l; pids := pids e |}.
Definition put_pids (l : list nat) (e : Env) : Env :=
  {| ws_faults := ws_faults e; child_faults := child_faults e; pty_faults := pty_faults e;
     rpc_faults := rpc_faults e; pids := l |}.

Definition next_pid : M nat :=
  fun m =>
    match pids (env m) with
    | [] => (m, Val 0)
    | p :: rest => ({| st := st m; env := put_pids rest (env m) |}, Val p)
    end.

(** [this.ws.send(JSON.stringify(msg))] *)
Definition ws_send (msg : Frame) : M unit :=
  next_fault ws_faults put_ws ;;
  modify (fun s => set_sent (sent s ++ [msg]) s).

(** [spawn(args[0], args.slice(1), { env })]: the new child's index. *)
Definition child_spawn (cmd : Command) : M nat :=
  next_fault child_faults put_child ;;
  n <- gets (fun s => length (children s)) ;;
  modify (fun s => set_children (children s ++ [cmd]) s) ;;
  ret n.

(** [pty.spawn(args[0], args.slice(1), ...)] wrapped as
    [{ pty, live: true }]: the new handle. *)
Definition pty_spawn (cmd : Command) : M nat :=
  next_fault pty_faults put_pty ;;
  p <- next_pid ;;
  h <- gets (fun s => length (ptys s)) ;;
  modify (fun s => set_ptys (ptys s ++ [{| pty_cmd := cmd; pid := p; live := true |}]) s) ;;
  ret h.

(** [pty.write(input)] *)
Definition pty_write (h : nat) (input : string) : M unit :=
  next_fault pty_faults put_pty ;;
  effect (EPtyWrite h input).

(** [this.lsp.writer.write(msg)] *)
Definition rpc_write (msg : json) : M unit :=
  next_fault rpc_faults put_rpc ;;
  effect (ELspWrite msg).

(** [emitter.on(event, callback)] *)
Definition on (c : Channel) (h : Handler) : M unit :=
  modify (fun s => set_listeners (listeners s ++ [(c, h)]) s).

(** The function stops at an [await]; [t] is the rest of it. *)
Definition suspend (w : Wait) (t : Task) : M unit :=
  modify (fun s => set_pool (pool s ++ [(w, t)]) s).

(** An asynchronous function returns: a caller that awaits it resumes in
    a later microtask. *)
Definition finish (k : Kont) : M unit :=
  match k with
  | KDone => ret tt
  | _ => suspend Microtask (TKont k)
  end.

(** ** Getters of the class *)

Definition homedir : M string := gets (fun s => "/tmp/riju/" +:+ uuid s).

(** [get context()] reads [this.uidInfo!.uid]: a TypeError while no uid
    is borrowed. *)
Definition context : M Context :=
  u <- gets uidInfo ;;
  match u with
  | Some n => id <- gets uuid ;; ret {| ctx_uid := n; ctx_uuid := id |}
  | None => throw "TypeError: Cannot read property 'uid' of null"
  end.

Definition privilegedSetup : M Command := c <- context ;; ret (PrivilegedSetup c).
Definition privilegedSpawn (a : Args) : M Command := c <- context ;; ret (PrivilegedSpawn c a).
Definition privilegedTeardown : M Command := c <- context ;; ret (PrivilegedTeardown c).

(** [await this.run(cmd, { input })]: the command starts, the caller
    continues as [t] when it has exited. *)
Definition run (cmd : Command) (input : option string) (t : Task) : M unit :=
  effect (ERun cmd input) ;;
  suspend External t.

Definition is_live (s : St) (h : nat) : bool :=
  match ptys s !! h with
  | Some p => live p
  | None => false
  end.

Definition pid_of (s : St) (h : nat) : nat :=
  match ptys s !! h with
  | Some p => pid p
  | None => 0
  end.

Definition mark_dead (p : Pty) : Pty :=
  {| pty_cmd := pty_cmd p; pid := pid p; live := false |}.

(** ** teardown (lines 345-361) *)

Definition teardown_catch (e : Err) (k : Kont) : M unit :=
  log (LTeardownError e) ;;
  finish k.

Definition teardown (k : Kont) : M unit :=
  try_catch
    (td <- gets tearingDown ;;
     if td then finish k
     else
       log LTearingDown ;;
       modify (set_tearingDown true) ;;
       modify (set_allSessions false) ;;
       effect (ESetTimeout 5000) ;;
       suspend Timer (TTeardownSlept k))
    (fun e => teardown_catch e k).

(** After the grace interval: [await this.run(this.privilegedTeardown())]. *)
Definition teardown_slept (k : Kont) : M unit :=
  try_catch
    (cmd <- privilegedTeardown ;;
     run cmd None (TTeardownCleaned k))
    (fun e => teardown_catch e k).

(** After the cleanup command: [await this.returnUID()], where
    [returnUID] calls the pool only when [uidInfo] is set. *)
Definition teardown_cleaned (k : Kont) (o : Outcome) : M unit :=
  try_catch
    (match o with
     | rejected e => throw e
     | resolved _ =>
         u <- gets uidInfo ;;
         match u with
         | Some _ => effect EReturnUID ;; suspend External (TTeardownReturned k)
         | None => suspend Microtask (TTeardownReturned k)
         end
     end)
    (fun e => teardown_catch e k).

(** After the uid is returned: [this.ws.terminate()]. *)
Definition teardown_returned (k : Kont) (o : Outcome) : M unit :=
  try_catch
    (match o with
     | rejected e => throw e
     | resolved _ => effect EWsTerminate ;; finish k
     end)
    (fun e => teardown_catch e k).

(** ** send and sendError (lines 172-193) *)

Definition send (msg : Frame) (k : Kont) : M unit :=
  try_catch
    (td <- gets tearingDown ;;
     if td then finish k
     else ws_send msg ;; finish k)
    (fun e =>
       log (LSendFailed e) ;;
       teardown k).

Definition diagnostic (e : Err) : string :=
  "Riju encountered an unexpected error: " +:+ e +:+ LF +:+ CR +:+ LF +:+ CR +:+
  "You may want to save your code and refresh the page." +:+ LF.

Definition sendError (e : Err) : M unit :=
  send terminalClear (KSendError e).

Definition sendError_second (e : Err) : M unit :=
  send (terminalOutput (diagnostic e)) KDone.

(** ** runCode (lines 252-343) *)

Definition runCode_catch (e : Err) (k : Kont) : M unit :=
  log (LRunError e) ;;
  sendError e ;;
  finish k.

(** Lines 322-337: start the terminal and forward its output. *)
Definition runCode_spawn (cmdline : string) (k : Kont) : M unit :=
  termArgs <- privilegedSpawn (Bash cmdline) ;;
  h <- pty_spawn termArgs ;;
  modify (set_term (Some h)) ;;
  on (ChPtyData h) (HTermData h) ;;
  finish k.

(** Lines 310-321: the ghci quirk. *)
Definition runCode_hacks (code cmdline : string) (k : Kont) : M unit :=
  cfg <- gets config ;;
  home <- homedir ;;
  if ghci_hack cfg then
    if nonempty code then
      cmd <- privilegedSpawn (CatTo (home +:+ "/.ghci")) ;;
      run cmd (Some (":load Main" +:+ LF +:+ "main" +:+ LF)) (TRunCodeHacked cmdline k)
    else
      cmd <- privilegedSpawn (RmF (home +:+ "/.ghci")) ;;
      run cmd None (TRunCodeHacked cmdline k)
  else runCode_spawn cmdline k.

(** Lines 302-309: write the code to the entry point. *)
Definition runCode_write (code cmdline : string) (k : Kont) : M unit :=
  cfg <- gets config ;;
  home <- homedir ;;
  cmd <- privilegedSpawn (CatInto home (Lang.main cfg)) ;;
  run cmd (Some code) (TRunCodeWritten code cmdline k).

Definition settled (o : Outcome) : M unit :=
  match o with
  | resolved _ => ret tt
  | rejected e => throw e
  end.

(** Lines 265-274: the live terminal, if any, is killed and its handle
    marked dead and dropped. *)
Definition runCode_retire : M unit :=
  t <- gets term ;;
  match t with
  | Some h =>
      p <- gets (fun s => pid_of s h) ;;
      args <- privilegedSpawn
        (Bash ("kill -SIGTERM " +:+ decimal p +:+ "; sleep 3; kill -SIGKILL " +:+ decimal p)) ;;
      child_spawn args ;;
      modify (fun s => set_ptys (alter mark_dead h (ptys s)) s) ;;
      modify (set_term None)
  | None => ret tt
  end.

(** Lines 275-301: clear the client's terminal, resolve command line and
    code, create the directory of the entry point. *)
Definition runCode_deploy (code : option string) (k : Kont) : M unit :=
  cfg <- gets config ;;
  send terminalClear KDone ;;
  let cmdline := cmdline_of cfg code in
  let code' := deployed_code cfg code in
  home <- homedir ;;
  if includes_char "/" (Lang.main cfg) then
    cmd <- privilegedSpawn (MkdirP (home +:+ "/" +:+ Lang.main cfg)) ;;
    run cmd None (TRunCodeMkdir code' cmdline k)
  else runCode_write code' cmdline k.

Definition runCode (code : option string) (k : Kont) : M unit :=
  try_catch
    (runCode_retire ;;
     runCode_deploy code k)
    (fun e => runCode_catch e k).

Definition runCode_mkdir (code cmdline : string) (k : Kont) (o : Outcome) : M unit :=
  try_catch (settled o ;; runCode_write code cmdline k) (fun e => runCode_catch e k).

Definition runCode_written (code cmdline : string) (k : Kont) (o : Outcome) : M unit :=
  try_catch (settled o ;; runCode_hacks code cmdline k) (fun e => runCode_catch e k).

Definition runCode_hacked (cmdline : string) (k : Kont) (o : Outcome) : M unit :=
  try_catch (settled o ;; runCode_spawn cmdline k) (fun e => runCode_catch e k).

(** ** receive (lines 195-250) *)

Definition logBadMessage (msg : json) : M unit :=
  if printable msg then log (LMalformed msg)
  else throw "TypeError: Cannot convert object to primitive value".

Definition is_type (t : jstype) (v : option json) : bool :=
  match t, typeof v with
  | ty_undefined, ty_undefined | ty_object, ty_object | ty_boolean, ty_boolean
  | ty_number, ty_number | ty_string, ty_string => true
  | _, _ => false
  end.

Definition as_string (v : option json) : string :=
  match v with
  | Some (JStr s) => s
  | _ => ""
  end.

Definition as_json (v : option json) : json :=
  match v with
  | Some j => j
  | None => JNull
  end.

(** [msg && msg.event], the discriminant of the switch. *)
Definition discriminant (msg : json) : option json :=
  if truthy msg then prop msg "event" else Some msg.

Definition case_terminalInput (msg : json) : M unit :=
  if negb (is_type ty_string (prop msg "input")) then logBadMessage msg
  else
    t <- gets term ;;
    match t with
    | None => log LTermIgnored
    | Some h => pty_write h (as_string (prop msg "input"))
    end.

Definition case_runCode (msg : json) : M unit :=
  if negb (is_type ty_string (prop msg "code")) then logBadMessage msg
  else runCode (Some (as_string (prop msg "code"))) KDone.

Definition case_lspInput (msg : json) : M unit :=
  if negb (is_type ty_object (prop msg "input")) || negb (truthy msg) then logBadMessage msg
  else
    l <- gets lsp ;;
    match l with
    | None => log LLspIgnored
    | Some _ => rpc_write (as_json (prop msg "input"))
    end.

Definition receive (raw : option json) : M unit :=
  try_catch
    (td <- gets tearingDown ;;
     if td then ret tt
     else
       match raw with
       | None => log LParseFailed
       | Some msg =>
           match discriminant msg with
           | Some (JStr tag) =>
               if tag =? "terminalInput" then case_terminalInput msg
               else if tag =? "runCode" then case_runCode msg
               else if tag =? "lspInput" then case_lspInput msg
               else logBadMessage msg
           | _ => logBadMessage msg
           end
       end)
    (fun e =>
       log (LHandlerError e) ;;
       sendError e).

(** ** setup (lines 83-170) *)

Definition setup_catch (e : Err) : M unit :=
  log (LSetupError e) ;;
  sendError e ;;
  teardown KDone.

(** Lines 156-163. *)
Definition setup_listen : M unit :=
  on ChWsMessage HReceive ;;
  on ChWsClose HClose ;;
  on ChWsError HWsError.

(** Lines 127-155. *)
Definition setup_lsp : M unit :=
  cfg <- gets config ;;
  lspArgs <- privilegedSpawn (Bash (text (Lang.lsp cfg))) ;;
  lspProc <- child_spawn lspArgs ;;
  modify (set_lsp (Some lspProc)) ;;
  on ChLspMessage HLspOutput ;;
  on ChLspStderr (HServiceLog "lsp") ;;
  on ChLspExit (HServiceExit "lsp") ;;
  on ChLspError (HServiceError "lsp") ;;
  home <- homedir ;;
  send (lspStarted home) KDone ;;
  setup_listen.

(** The body of [for (const stream of [daemonProc.stdout, daemonProc.stderr])]
    (lines 99-121): the exit and error callbacks are registered inside the
    loop, once per stream. *)
Fixpoint daemon_streams (streams : list Channel) : M unit :=
  match streams with
  | [] => ret tt
  | stream :: rest =>
      on stream (HServiceLog "daemon") ;;
      on ChDaemonExit (HServiceExit "daemon") ;;
      on ChDaemonError (HServiceError "daemon") ;;
      daemon_streams rest
  end.

(** Lines 91-122. *)
Definition setup_daemon : M unit :=
  cfg <- gets config ;;
  if present (Lang.daemon cfg) then
    daemonArgs <- privilegedSpawn (Bash (text (Lang.daemon cfg))) ;;
    daemonProc <- child_spawn daemonArgs ;;
    modify (set_daemon (Some daemonProc)) ;;
    daemon_streams [ChDaemonStdout; ChDaemonStderr]
  else ret tt.

(** Lines 91-163, after [await this.runCode()]. *)
Definition setup_services : M unit :=
  try_catch
    (setup_daemon ;;
     cfg <- gets config ;;
     if present (Lang.lsp cfg) then
       if present (Lang.lspSetup cfg) then
         cmd <- privilegedSpawn (Bash (text (Lang.lspSetup cfg))) ;;
         run cmd None TSetupLspSetup
       else setup_lsp
     else setup_listen)
    setup_catch.

Definition setup_lspSetup (o : Outcome) : M unit :=
  try_catch (settled o ;; setup_lsp) setup_catch.

(** Lines 89-90, after the uid is borrowed. *)
Definition setup_borrowed (o : Outcome) : M unit :=
  try_catch
    (match o with
     | rejected e => throw e
     | resolved uid =>
         modify (set_uidInfo (Some uid)) ;;
         log (LBorrowed uid) ;;
         cmd <- privilegedSetup ;;
         run cmd None TSetupPrivileged
     end)
    setup_catch.

Definition setup_privileged (o : Outcome) : M unit :=
  try_catch (settled o ;; runCode None KSetup) setup_catch.

(** Lines 84-86, up to [await borrowUser(this.log)]. *)
Definition setup : M unit :=
  try_catch
    (modify (set_allSessions true) ;;
     effect EBorrowUser ;;
     suspend External TSetupBorrowed)
    setup_catch.

(** Lines 65-71. *)
Definition constructor : M unit :=
  log LCreating ;;
  setup.

(** ** The event loop *)

Inductive Payload : Type :=
| PFrame (raw : option json)  (* websocket text: what JSON.parse makes of it, None when it throws *)
| PNone
| PError (e : Err)
| PData (data : string)
| PExit (code : option nat) (signal : option string)
| PMessage (msg : json).

Inductive Event : Type :=
| Fire (c : Channel) (p : Payload)  (* an emitter calls its listeners *)
| Settle (i : nat) (o : Outcome).   (* the i-th suspended function resumes *)

Definition same_channel (a b : Channel) : bool :=
  match a, b with
  | ChWsMessage, ChWsMessage | ChWsClose, ChWsClose | ChWsError, ChWsError
  | ChDaemonStdout, ChDaemonStdout | ChDaemonStderr, ChDaemonStderr
  | ChDaemonExit, ChDaemonExit | ChDaemonError, ChDaemonError
  | ChLspMessage, ChLspMessage | ChLspStderr, ChLspStderr
  | ChLspExit, ChLspExit | ChLspError, ChLspError
  | ChLspReaderError, ChLspReaderError => true
  | ChPtyData h, ChPtyData h' => Nat.eqb h h'
  | ChKillError n, ChKillError n' => Nat.eqb n n'
  | _, _ => false
  end.

(** [`Exited with status ${signal || code}`] *)
Definition exit_status (code : option nat) (signal : option string) : string :=
  "Exited with status " +:+
  (if present signal then text signal
   else match code with
        | Some n => decimal n
        | None => "null"
        end).

Definition handler (h : Handler) (p : Payload) : M unit :=
  match h, p with
  | HReceive, PFrame raw => receive raw
  | HClose, _ => teardown KDone
  | HWsError, PError e => log (LWsError e) ;; teardown KDone
  | HTermData t, PData data =>
      alive <- gets (fun s => is_live s t) ;;
      if alive then send (terminalOutput data) KDone else ret tt
  | HServiceLog service, PData data => send (serviceLog service data) KDone
  | HServiceExit service, PExit code signal =>
      send (serviceFailed service (exit_status code signal)) KDone
  | HServiceError service, PError e => send (serviceFailed service e) KDone
  | HLspOutput, PMessage msg => send (lspOutput msg) KDone
  | _, _ => ret tt
  end.

(** [emitter.emit] when the event has listeners: those of the channel
    are called in registration order.  The case of an "error" event
    without a listener is [unheard], below. *)
Fixpoint emit (ls : list (Channel * Handler)) (c : Channel) (p : Payload) : M unit :=
  match ls with
  | [] => ret tt
  | (c', h) :: rest =>
      (if same_channel c' c then handler h p else ret tt) ;;
      emit rest c p
  end.

Definition resume (t : Task) (o : Outcome) : M unit :=
  match t with
  | TKont KDone => ret tt
  | TKont KSetup => setup_services
  | TKont (KSendError e) => sendError_second e
  | TSetupBorrowed => setup_borrowed o
  | TSetupPrivileged => setup_privileged o
  | TSetupLspSetup => setup_lspSetup o
  | TRunCodeMkdir code cmdline k => runCode_mkdir code cmdline k o
  | TRunCodeWritten code cmdline k => runCode_written code cmdline k o
  | TRunCodeHacked cmdline k => runCode_hacked cmdline k o
  | TTeardownSlept k => teardown_slept k
  | TTeardownCleaned k => teardown_cleaned k o
  | TTeardownReturned k => teardown_returned k o
  end.

(** A microtask and the timer always resume normally; an operation of
    the environment resumes with its outcome. *)
Definition outcome_for (w : Wait) (o : Outcome) : Outcome :=
  match w with
  | External => o
  | _ => resolved 0
  end.

(** The channels that stand for an "error" event. *)
Definition is_error_event (c : Channel) : bool :=
  match c with
  | ChWsError | ChDaemonError | ChLspError | ChLspReaderError | ChKillError _ => true
  | _ => false
  end.

(** Node's [emit("error", err)] throws [err] when no listener is
    registered for "error": the error an event of channel [c] with
    payload [p] raises that way, if any. *)
Definition unheard (ls : list (Channel * Handler)) (c : Channel) (p : Payload) : option Err :=
  match p with
  | PError x =>
      if is_error_event c && negb (existsb (fun l => same_channel (fst l) c) ls)
      then Some x else None
  | _ => None
  end.

(** One turn of the event loop.  An exception that leaves [step] is
    uncaught: no code of the session is on the stack below it. *)
Definition step (ev : Event) : M unit :=
  match ev with
  | Fire c p =>
      ls <- gets listeners ;;
      match unheard ls c p with
      | Some x => throw x
      | None => emit ls c p
      end
  | Settle i o =>
      q <- gets pool ;;
      match q !! i with
      | None => ret tt
      | Some (w, t) =>
          modify (set_pool (delete i q)) ;;
          resume t (outcome_for w o)
      end
  end.

(** The session after one turn of the event loop, with the environment's
    answers for it.  (A turn that ends with an uncaught exception has
    changed nothing.) *)
Definition turn (ev : Event) (e : Env) (s : St) : St :=
  st (fst (step ev {| st := s; env := e |})).

Fixpoint exec (evs : list (Event * Env)) (s : St) : St :=
  match evs with
  | [] => s
  | (ev, e) :: rest => exec rest (turn ev e s)
  end.

(** [new Session(ws, lang)] with [langs[lang] = cfg] and [getUUID() = id]. *)
Definition blank (cfg : LangConfig) (id : string) : St :=
  {| config := cfg; uuid := id; tearingDown := false; uidInfo := None;
     term := None; lsp := None; daemon := None; allSessions := false;
     ptys := []; children := []; listeners := []; pool := [];
     sent := []; logs := []; effects := [] |}.

Definition start (cfg : LangConfig) (id : string) : St :=
  st (fst (constructor {| st := blank cfg id; env := quiet |})).

(** An event whose turn has nothing to answer for. *)
Definition calm (ev : Event) : Event * Env := (ev, quiet).

(** * Specification vocabulary *)

(** ** Relations kept by every segment

    [sat R c]: running [c] from any machine state [m] ends in a state
    related to [m].  For a reflexive and transitive [R] the property goes
    through [bind] and [try_catch], so it is enough to check the places
    where a segment writes to the state. *)
Definition sat {A} (R : Mach -> Mach -> Prop) (c : M A) : Prop :=
  forall m, R m (fst (c m)).

Class Stable (R : Mach -> Mach -> Prop) : Prop := {
  stable_refl : forall m, R m m;
  stable_trans : forall a b c, R a b -> R b c -> R a c
}.


(** ** Errors stay inside

    [contained]: the segment ends normally, whatever was thrown inside
    it. *)
Definition contained {A} (c : M A) : Prop :=
  forall m, exists a, snd (c m) = Val a.

(** ** Once teardown has begun

    [frozen]: a segment that starts with the teardown flag set leaves it
    set and hands nothing to the websocket. *)
Definition frozen (m m' : Mach) : Prop :=
  tearingDown (st m) = true ->
  tearingDown (st m') = true /\ sent (st m') = sent (st m).


(** ** Listeners and terminals

    [paired]: a callback sits on the emitter the source registers it on;
    in particular the data callback of a pty reads the handle of that
    pty. *)
Definition paired (l : Channel * Handler) : bool :=
  match l with
  | (ChWsMessage, HReceive) | (ChWsClose, HClose) | (ChWsError, HWsError) => true
  | (ChPtyData a, HTermData b) => Nat.eqb a b
  | (ChDaemonStdout, HServiceLog _) | (ChDaemonStderr, HServiceLog _)
  | (ChDaemonExit, HServiceExit _) | (ChDaemonError, HServiceError _) => true
  | (ChLspMessage, HLspOutput) | (ChLspStderr, HServiceLog _)
  | (ChLspExit, HServiceExit _) | (ChLspError, HServiceError _) => true
  | _ => false
  end.

Definition wired (s : St) : bool := forallb paired (listeners s).

Definition handlers_on (c : Channel) (s : St) : list Handler :=
  map snd (List.filter (fun l => same_channel (fst l) c) (listeners s)).

(** [silenced]: nothing is unwired, no pty disappears and a handle that is
    dead stays dead. *)
Definition silenced (m m' : Mach) : Prop :=
  wired (st m) = true ->
  wired (st m') = true /\
  length (ptys (st m)) <= length (ptys (st m')) /\
  forall h, h < length (ptys (st m)) -> is_live (st m) h = false -> is_live (st m') h = false.


(** [keeps]: the terminal slot, the ptys and the listeners are untouched. *)
Definition keeps (m m' : Mach) : Prop :=
  term (st m') = term (st m) /\ ptys (st m') = ptys (st m) /\ listeners (st m') = listeners (st m).


(** The listeners of a channel, called in turn. *)
Fixpoint call_all (hs : list Handler) (p : Payload) : M unit :=
  match hs with
  | [] => ret tt
  | h :: rest => handler h p ;; call_all rest p
  end.


(** ** The release sequence

    The steps of teardown as they appear among the effects: the grace
    timer, the privileged cleanup command, the return of the uid and the
    closing of the websocket. *)
Definition is_release (e : Effect) : bool :=
  match e with
  | ESetTimeout _ | ERun (PrivilegedTeardown _) _ | EReturnUID | EWsTerminate => true
  | _ => false
  end.

Definition release_trace (s : St) : list Effect := List.filter is_release (effects s).

Definition is_teardown_task (t : Task) : bool :=
  match t with
  | TTeardownSlept _ | TTeardownCleaned _ | TTeardownReturned _ => true
  | _ => false
  end.

Definition teardown_tasks (s : St) : list Task :=
  List.filter is_teardown_task (map snd (pool s)).

Definition is_teardown_error (l : LogEntry) : bool :=
  match l with
  | LTeardownError _ => true
  | _ => false
  end.

Definition teardown_errors (s : St) : nat :=
  length (List.filter is_teardown_error (logs s)).

Definition release_sequence (c : Context) : list Effect :=
  [ESetTimeout 5000; ERun (PrivilegedTeardown c) None; EReturnUID; EWsTerminate].

(** [protocol]: where teardown stands.  Before it begins nothing of the
    release sequence has happened; afterwards exactly one continuation of
    [teardown] is suspended and the steps done so far are the matching
    prefix of the sequence, or teardown is over: stopped by an error, or
    through to the end. *)
Inductive protocol (s : St) : Prop :=
| protocol_idle :
    tearingDown s = false -> teardown_tasks s = [] -> release_trace s = [] ->
    protocol s
| protocol_waiting k c :
    tearingDown s = true -> teardown_tasks s = [TTeardownSlept k] ->
    release_trace s = take 1 (release_sequence c) ->
    protocol s
| protocol_cleaning k c :
    tearingDown s = true -> teardown_tasks s = [TTeardownCleaned k] ->
    release_trace s = take 2 (release_sequence c) -> uidInfo s <> None ->
    protocol s
| protocol_returning k c :
    tearingDown s = true -> teardown_tasks s = [TTeardownReturned k] ->
    release_trace s = take 3 (release_sequence c) ->
    protocol s
| protocol_aborted n c :
    tearingDown s = true -> teardown_tasks s = [] ->
    1 <= n <= 3 -> release_trace s = take n (release_sequence c) ->
    1 <= teardown_errors s ->
    protocol s
| protocol_closed c :
    tearingDown s = true -> teardown_tasks s = [] ->
    release_trace s = release_sequence c ->
    protocol s.

(** [orderly]: what code outside the continuations of [teardown] does to
    this picture: nothing, or it begins teardown. *)
Definition td_neutral (s s' : St) : Prop :=
  tearingDown s' = tearingDown s /\ teardown_tasks s' = teardown_tasks s /\
  release_trace s' = release_trace s /\ teardown_errors s' = teardown_errors s /\
  (uidInfo s <> None -> uidInfo s' <> None).

Definition td_begun (s s' : St) : Prop :=
  tearingDown s = false /\ tearingDown s' = true /\
  (exists k, teardown_tasks s' = teardown_tasks s ++ [TTeardownSlept k]) /\
  release_trace s' = release_trace s ++ [ESetTimeout 5000] /\
  teardown_errors s' = teardown_errors s /\
  (uidInfo s <> None -> uidInfo s' <> None).

Definition orderly (m m' : Mach) : Prop :=
  td_neutral (st m) (st m') \/ td_begun (st m) (st m').


Definition teardown_pending (s : St) : bool :=
  existsb is_teardown_task (map snd (pool s)).


(** ** Setup

    [listening]: [receive] is registered on the websocket, which is the
    last thing [setup] does: from then on the session takes client
    messages.  A task belongs to [setup] when it is one of its
    continuations or hands control back to it. *)
Definition listening (s : St) : bool :=
  existsb (fun l => same_channel (fst l) ChWsMessage) (listeners s).

Definition is_setup_kont (k : Kont) : bool :=
  match k with
  | KSetup => true
  | _ => false
  end.

Definition is_setup_task (t : Task) : bool :=
  match t with
  | TSetupBorrowed | TSetupPrivileged | TSetupLspSetup => true
  | TKont k | TRunCodeMkdir _ _ k | TRunCodeWritten _ _ k | TRunCodeHacked _ k
  | TTeardownSlept k | TTeardownCleaned k | TTeardownReturned k => is_setup_kont k
  end.

Definition setting_up (s : St) : bool := existsb is_setup_task (map snd (pool s)).

(** [abandoned]: setup is over without the websocket being listened to. *)
Definition abandoned (s : St) : Prop := listening s = false /\ setting_up s = false.

Definition never_ready (m m' : Mach) : Prop := abandoned (st m) -> abandoned (st m').


(** ** A Run-Code request followed on its own

    [inner]: a turn in which a suspended function resumes and the
    websocket accepts what is sent. *)
Definition inner (t : Event * Env) : bool :=
  match t with
  | (Settle _ _, e) => match ws_faults e with [] => true | _ => false end
  | (Fire _ _, _) => false
  end.

Definition is_run_error (l : LogEntry) : bool :=
  match l with
  | LRunError _ => true
  | _ => false
  end.

Definition run_errors (s : St) : nat := length (List.filter is_run_error (logs s)).

(** The continuations of a [runCode] that [receive] started. *)
Definition is_client_runCode (t : Task) : bool :=
  match t with
  | TRunCodeMkdir _ _ KDone | TRunCodeWritten _ _ KDone | TRunCodeHacked _ KDone => true
  | _ => false
  end.

(** What stays true while the request is served: the session is Ready
    and the retired handle [h] is dead. *)
Definition steady (u h : nat) (s : St) : Prop :=
  tearingDown s = false /\ handlers_on ChWsMessage s = [HReceive] /\
  uidInfo s = Some u /\ is_live s h = false /\ h < length (ptys s).

(** Where the request stands, [n] being the number of Run-Code errors
    logged before it. *)
Inductive stage (n : nat) (s : St) : Prop :=
| stage_running t :
    pool s = [(External, t)] -> is_client_runCode t = true ->
    term s = None -> run_errors s = n -> stage n s
| stage_reporting e :
    pool s = [(Microtask, TKont (KSendError e))] ->
    term s = None -> run_errors s = S n -> stage n s
| stage_failed :
    pool s = [] -> term s = None -> run_errors s = S n -> stage n s
| stage_done h' :
    pool s = [] -> term s = Some h' -> is_live s h' = true ->
    run_errors s = n -> stage n s.

(** ** Errors of a client's turn

    The errors that [receive] and [runCode] caught and logged. *)
Fixpoint errors_in (l : list LogEntry) : list Err :=
  match l with
  | [] => []
  | LRunError e :: rest | LHandlerError e :: rest => e :: errors_in rest
  | _ :: rest => errors_in rest
  end.

(** Those logged between [s] and a later state [s1]. *)
Definition caught (s s1 : St) : list Err :=
  errors_in (skipn (length (logs s)) (logs s1)).

(** A turn that serves the client: a frame arrives, or a [runCode]
    started by a frame resumes. *)
Definition client_turn (s : St) (ev : Event) : bool :=
  match ev with
  | Fire ChWsMessage (PFrame _) => true
  | Settle i _ =>
      match pool s !! i with
      | Some (_, t) => is_client_runCode t
      | None => false
      end
  | _ => false
  end.

(** The microtask checkpoint that ends a turn: continuations whose
    promise is already settled run, oldest first, the websocket accepting
    what they send. *)
Fixpoint first_microtask (q : list (Wait * Task)) : option nat :=
  match q with
  | [] => None
  | (Microtask, _) :: _ => Some 0
  | _ :: rest => option_map S (first_microtask rest)
  end.

Fixpoint checkpoint (fuel : nat) (s : St) : St :=
  match fuel with
  | 0 => s
  | S n =>
      match first_microtask (pool s) with
      | None => s
      | Some i => checkpoint n (turn (Settle i (resolved 0)) quiet s)
      end
  end.

(** What a client's turn leaves behind, [q0] being the functions that
    were suspended before it and still are: either nothing was caught and
    no microtask is queued, or one error was caught, the last frame sent
    is the [terminalClear] of [sendError] and the rest of [sendError] is
    the one microtask queued. *)
Inductive served (s : St) (q0 : list (Wait * Task)) (s1 : St) : Prop :=
| served_quiet l q :
    tearingDown s1 = false -> handlers_on ChWsMessage s1 = [HReceive] ->
    logs s1 = logs s ++ l -> errors_in l = [] ->
    pool s1 = q0 ++ q -> first_microtask q = None ->
    served s q0 s1
| served_reported l err pre :
    tearingDown s1 = false -> handlers_on ChWsMessage s1 = [HReceive] ->
    logs s1 = logs s ++ l -> errors_in l = [err] ->
    pool s1 = q0 ++ [(Microtask, TKont (KSendError err))] ->
    sent s1 = (sent s ++ pre) ++ [terminalClear] ->
    served s q0 s1.

(** ** A sample language and a sample session

    The language of the specification's scenario: an interpreter with a
    REPL and no compile step, an empty program for an empty editor, and
    both a daemon and a language server. *)
Definition python : LangConfig :=
  {| Lang.name := "Python";
     Lang.repl := Some "interpreter";
     Lang.main := "main.py";
     Lang.suffix := None;
     Lang.createEmpty := true;
     Lang.compile := None;
     Lang.run := "run-interpreter main.py";
     Lang.template := "print('Hello, world!')";
     Lang.hacks := None;
     Lang.daemon := Some "daemon";
     Lang.lsp := Some "language-server";
     Lang.lspSetup := None |}.

(** Setup goes through: the uid 1000 is borrowed, the privileged setup
    and the first write succeed, the terminal starts, then the daemon and
    the language server. *)
Definition to_ready : list (Event * Env) :=
  [calm (Settle 0 (resolved 1000));
   calm (Settle 0 (resolved 0));
   calm (Settle 0 (resolved 0));
   calm (Settle 0 (resolved 0))].

Definition ready_python : St := exec to_ready (start python "s1").

(** The messages a client sends. *)
Definition msg_runCode (code : string) : json :=
  JObj [("event", JStr "runCode"); ("code", JStr code)].

Definition msg_terminalInput (input : string) : json :=
  JObj [("event", JStr "terminalInput"); ("input", JStr input)].

Definition msg_lspInput (input : json) : json :=
  JObj [("event", JStr "lspInput"); ("input", input)].

(** A session whose uid could not be borrowed, a second Run-Code request
    to the sample session, and the failure of the write that follows. *)
Definition torn_down : St :=
  turn (Settle 0 (rejected "Error: no uid left")) quiet (start python "s1").

Definition rerun : json := msg_runCode "print(1+1)".

Definition rerunning : St := turn (Fire ChWsMessage (PFrame (Some rerun))) quiet ready_python.

Definition write_fails : Event := Settle 0 (rejected "Error: write failed").


(** ** The resolution of command line and code, as the specification
    words it *)

(** "If code is supplied, use the language's run command (or
    compile-then-run if a compile step exists); else fall back to the
    REPL command if one exists; else a no-op message command." *)
Definition spec_cmdline (cfg : LangConfig) (code : option string) : string :=
  match code with
  | Some _ =>
      match Lang.compile cfg with
      | Some c => "( " +:+ c +:+ " ) && ( " +:+ Lang.run cfg +:+ " )"
      | None => Lang.run cfg
      end
  | None =>
      match Lang.repl cfg with
      | Some r => r
      | None => "echo '" +:+ Lang.name cfg +:+ " has no REPL, press Run to see it in action'"
      end
  end.

(** "Code defaults to the language's canonical empty-program text or
    template when none is supplied; a language-specific trailing suffix
    is appended when configured." *)
Definition spec_deployed (cfg : LangConfig) (code : option string) : string :=
  let c := match code with
           | Some c => c
           | None => if Lang.createEmpty cfg then "" else Lang.template cfg
           end in
  match Lang.suffix cfg with
  | Some sfx => c +:+ sfx
  | None => c
  end.

(** The frames [receive] sets aside as malformed. *)
Definition malformed (raw : option json) : bool :=
  match raw with
  | None => true
  | Some msg =>
      match discriminant msg with
      | Some (JStr tag) =>
          if tag =? "terminalInput" then negb (is_type ty_string (prop msg "input"))
          else if tag =? "runCode" then negb (is_type ty_string (prop msg "code"))
          else if tag =? "lspInput"
               then negb (is_type ty_object (prop msg "input")) || negb (truthy msg)
          else true
      | _ => true
      end
  end.

(** * More of the session: vocabulary *)

(** ** When nothing fails

    What the segments of [runCode] and [setup] leave behind when every
    library call returns and the session is not tearing down. *)

(** [await this.run(cmd, { input })]: the command is started and the rest
    of the function, [t], waits for it. *)
Definition waiting_for (t : Task) (cmd : Command) (input : option string) (s : St) : St :=
  set_pool (pool s ++ [(External, t)]) (set_effects (effects s ++ [ERun cmd input]) s).

(** An asynchronous function returns to the caller that awaits it. *)
Definition returning (k : Kont) (s : St) : St :=
  match k with
  | KDone => s
  | _ => set_pool (pool s ++ [(Microtask, TKont k)]) s
  end.

(** Lines 322-337: a new pty runs [cmdline], takes the slot and has its
    data callback. *)
Definition spawned (ctx : Context) (cmdline : string) (s : St) : St :=
  let h := length (ptys s) in
  set_listeners (listeners s ++ [(ChPtyData h, HTermData h)])
    (set_term (Some h)
       (set_ptys (ptys s ++
          [{| pty_cmd := PrivilegedSpawn ctx (Bash cmdline); pid := 0; live := true |}]) s)).

(** Lines 265-274: the terminal in the slot is killed, marked dead and
    dropped. *)
Definition kill_command (p : nat) : string :=
  "kill -SIGTERM " +:+ decimal p +:+ "; sleep 3; kill -SIGKILL " +:+ decimal p.

Definition retired (ctx : Context) (s : St) : St :=
  match term s with
  | Some h =>
      set_term None
        (set_ptys (alter mark_dead h (ptys s))
           (set_children
              (children s ++ [PrivilegedSpawn ctx (Bash (kill_command (pid_of s h)))]) s))
  | None => s
  end.

(** Lines 293-321: the commands run on behalf of a deployment, in order:
    the directory of the entry point when it has one, the write of the
    code, and for the ghci quirk the write or the removal of [.ghci]. *)
Definition deploy_effects (cfg : LangConfig) (ctx : Context) (code : option string) : list Effect :=
  let home := "/tmp/riju/" +:+ ctx_uuid ctx in
  (if includes_char "/" (Lang.main cfg)
   then [ERun (PrivilegedSpawn ctx (MkdirP (home +:+ "/" +:+ Lang.main cfg))) None]
   else []) ++
  [ERun (PrivilegedSpawn ctx (CatInto home (Lang.main cfg))) (Some (deployed_code cfg code))] ++
  (if ghci_hack cfg then
     [if nonempty (deployed_code cfg code)
      then ERun (PrivilegedSpawn ctx (CatTo (home +:+ "/.ghci")))
                (Some (":load Main" +:+ LF +:+ "main" +:+ LF))
      else ERun (PrivilegedSpawn ctx (RmF (home +:+ "/.ghci"))) None]
   else []).

(** The number of commands a deployment waits for. *)
Definition deploy_turns (cfg : LangConfig) : nat :=
  (if includes_char "/" (Lang.main cfg) then 1 else 0) + 1 +
  (if ghci_hack cfg then 1 else 0).

(** The session after a deployment that began in [s] with an empty slot. *)
Definition deployed (ctx : Context) (code : option string) (k : Kont) (s : St) : St :=
  returning k
    (spawned ctx (cmdline_of (config s) code)
       (set_effects (effects s ++ deploy_effects (config s) ctx code)
          (set_sent (sent s ++ [terminalClear]) s))).

(** A session of language [cfg] and uuid [id] that holds the uid [u] and
    is not tearing down. *)
Definition sound (cfg : LangConfig) (id : string) (u : nat) (s : St) : Prop :=
  config s = cfg /\ uuid s = id /\ uidInfo s = Some u /\ tearingDown s = false.

(** Suspended functions resume one after the other, each operation
    having succeeded. *)
Definition settles (n : nat) : list (Event * Env) := repeat (calm (Settle 0 (resolved 0))) n.

(** The callbacks [setup] registers: on the daemon (lines 99-121, the
    body of the loop twice), on the language server (lines 134-153) and on
    the websocket (lines 156-163). *)
Definition daemon_wiring : list (Channel * Handler) :=
  [(ChDaemonStdout, HServiceLog "daemon");
   (ChDaemonExit, HServiceExit "daemon");
   (ChDaemonError, HServiceError "daemon");
   (ChDaemonStderr, HServiceLog "daemon");
   (ChDaemonExit, HServiceExit "daemon");
   (ChDaemonError, HServiceError "daemon")].

Definition lsp_wiring : list (Channel * Handler) :=
  [(ChLspMessage, HLspOutput);
   (ChLspStderr, HServiceLog "lsp");
   (ChLspExit, HServiceExit "lsp");
   (ChLspError, HServiceError "lsp")].

Definition ws_wiring : list (Channel * Handler) :=
  [(ChWsMessage, HReceive); (ChWsClose, HClose); (ChWsError, HWsError)].

(** Lines 91-122 and 127-163. *)
Definition with_daemon (ctx : Context) (s : St) : St :=
  set_listeners (listeners s ++ daemon_wiring)
    (set_daemon (Some (length (children s)))
       (set_children
          (children s ++ [PrivilegedSpawn ctx (Bash (text (Lang.daemon (config s))))]) s)).

Definition with_lsp (ctx : Context) (s : St) : St :=
  set_listeners ((listeners s ++ lsp_wiring) ++ ws_wiring)
    (set_sent (sent s ++ [lspStarted ("/tmp/riju/" +:+ uuid s)])
       (set_lsp (Some (length (children s)))
          (set_children
             (children s ++ [PrivilegedSpawn ctx (Bash (text (Lang.lsp (config s))))]) s))).

Definition with_ws (s : St) : St := set_listeners (listeners s ++ ws_wiring) s.

(** The Ready session of language [cfg]: what [new Session] has built
    once the uid [u] is borrowed and every step of [setup] has succeeded. *)
Definition ready (cfg : LangConfig) (id : string) (u : nat) : St :=
  let ctx := {| ctx_uid := u; ctx_uuid := id |} in
  let d := present (Lang.daemon cfg) in
  let l := present (Lang.lsp cfg) in
  {| config := cfg; uuid := id; tearingDown := false; uidInfo := Some u;
     term := Some 0;
     lsp := if l then Some (if d then 1 else 0) else None;
     daemon := if d then Some 0 else None;
     allSessions := true;
     ptys := [{| pty_cmd := PrivilegedSpawn ctx (Bash (cmdline_of cfg None));
                 pid := 0; live := true |}];
     children :=
       (if d then [PrivilegedSpawn ctx (Bash (text (Lang.daemon cfg)))] else []) ++
       (if l then [PrivilegedSpawn ctx (Bash (text (Lang.lsp cfg)))] else []);
     listeners :=
       [(ChPtyData 0, HTermData 0)] ++
       (if d then daemon_wiring else []) ++
       (if l then lsp_wiring else []) ++
       ws_wiring;
     pool := [];
     sent := terminalClear :: (if l then [lspStarted ("/tmp/riju/" +:+ id)] else []);
     logs := [LCreating; LBorrowed u];
     effects :=
       [EBorrowUser; ERun (PrivilegedSetup ctx) None] ++
       deploy_effects cfg ctx None ++
       (if l && present (Lang.lspSetup cfg)
        then [ERun (PrivilegedSpawn ctx (Bash (text (Lang.lspSetup cfg)))) None]
        else []) |}.

(** The uid is borrowed and everything [setup] waits for succeeds. *)
Definition going_well (u : nat) : list (Event * Env) :=
  calm (Settle 0 (resolved u)) :: settles 6.

(** ** The life of a session

    [setup] is one chain of continuations: at any time at most one of
    them is suspended.  It ends by registering the three callbacks of the
    websocket, or by giving up, and it gives up by calling [teardown]. *)
Definition setup_tasks (s : St) : list Task := List.filter is_setup_task (map snd (pool s)).

Definition on_websocket (l : Channel * Handler) : bool :=
  match fst l with
  | ChWsMessage | ChWsClose | ChWsError => true
  | _ => false
  end.

Definition ws_listeners (s : St) : list (Channel * Handler) :=
  List.filter on_websocket (listeners s).

(** A continuation of [setup] itself or of the [runCode] it awaits. *)
Definition is_setup_step (t : Task) : bool :=
  match t with
  | TSetupBorrowed | TSetupPrivileged | TSetupLspSetup | TKont KSetup
  | TRunCodeMkdir _ _ KSetup | TRunCodeWritten _ _ KSetup | TRunCodeHacked _ KSetup => true
  | _ => false
  end.

Inductive lifecycle (s : St) : Prop :=
| still_setting_up t :
    setup_tasks s = [t] -> is_setup_step t = true -> ws_listeners s = [] ->
    (t = TSetupBorrowed \/ uidInfo s <> None) ->
    lifecycle s
| taking_messages :
    setup_tasks s = [] -> ws_listeners s = ws_wiring -> uidInfo s <> None ->
    lifecycle s
| given_up :
    setup_tasks s = [] -> ws_listeners s = [] -> tearingDown s = true ->
    lifecycle s.

(** What a segment does to this picture.  [aside]: nothing, and a
    teardown flag that is set stays set.  [handed_on]: one more
    continuation of [setup] is suspended.  [listening_now]: the callbacks
    of the websocket are registered. *)
Definition aside (m m' : Mach) : Prop :=
  setup_tasks (st m') = setup_tasks (st m) /\
  ws_listeners (st m') = ws_listeners (st m) /\
  uidInfo (st m') = uidInfo (st m) /\
  (tearingDown (st m) = true -> tearingDown (st m') = true).

Definition handed_on (m m' : Mach) : Prop :=
  (exists t, is_setup_step t = true /\ t <> TSetupBorrowed /\
             setup_tasks (st m') = setup_tasks (st m) ++ [t]) /\
  ws_listeners (st m') = ws_listeners (st m) /\
  uidInfo (st m') = uidInfo (st m).

Definition listening_now (m m' : Mach) : Prop :=
  setup_tasks (st m') = setup_tasks (st m) /\
  ws_listeners (st m') = ws_listeners (st m) ++ ws_wiring /\
  uidInfo (st m') = uidInfo (st m).

(** [advance]: one or the other. *)
Definition advance (m m' : Mach) : Prop := handed_on m m' \/ listening_now m m'.

(** [outcome P c]: when [c] returns it has done [P], when it throws it
    has done nothing to the picture. *)
Definition outcome {A} (P : Mach -> Mach -> Prop) (c : M A) : Prop :=
  forall m,
    match snd (c m) with
    | Val _ => P m (fst (c m))
    | Exn _ => aside m (fst (c m))
    end.

(** [always P c]: [c] returns, having done [P]. *)
Definition always {A} (P : Mach -> Mach -> Prop) (c : M A) : Prop :=
  forall m, P m (fst (c m)) /\ exists a, snd (c m) = Val a.

(** Progress composes with segments that stand aside. *)
Class Absorbs (P : Mach -> Mach -> Prop) : Prop :=
  absorbs : forall a b c, aside a b -> P b c -> P a c.

(** ** Terminals and their callbacks

    [terminals_ok]: every pty spawned so far has exactly one data
    callback, the one that reads its own handle, and the handle in the
    slot, if any, is live. *)
Definition on_pty (l : Channel * Handler) : bool :=
  match fst l with
  | ChPtyData _ => true
  | _ => false
  end.

Definition pty_listeners (s : St) : list (Channel * Handler) :=
  List.filter on_pty (listeners s).

Definition own_callback (h : nat) : Channel * Handler := (ChPtyData h, HTermData h).

Definition terminals_ok (s : St) : Prop :=
  pty_listeners s = map own_callback (seq 0 (length (ptys s))) /\
  forall h, term s = Some h -> is_live s h = true.

Definition tended (m m' : Mach) : Prop := terminals_ok (st m) -> terminals_ok (st m').

(** ** The registry of sessions

    [enrolled]: the session is in [allSessions] exactly while it is not
    tearing down. *)
Definition enrolled (s : St) : Prop := allSessions s = negb (tearingDown s).

Definition registered (m m' : Mach) : Prop := enrolled (st m) -> enrolled (st m').

(** ** Terminals outside the slot

    [orphan h s]: the terminal [h] is live and is not the one in the
    slot. *)
Definition orphan (h : nat) (s : St) : Prop := is_live s h = true /\ term s <> Some h.

Definition forsaken (h : nat) (m m' : Mach) : Prop := orphan h (st m) -> orphan h (st m').

(** Two Run-Code requests, the second arriving while the first is still
    writing its code; then both writes succeed. *)
Definition overlapping (a b : string) : list (Event * Env) :=
  [calm (Fire ChWsMessage (PFrame (Some (msg_runCode a))));
   calm (Fire ChWsMessage (PFrame (Some (msg_runCode b))));
   calm (Settle 0 (resolved 0));
   calm (Settle 0 (resolved 0))].

(** ** Teardown when nothing fails *)

(** The websocket closes, the grace timer fires, the cleanup command and
    the return of the uid succeed. *)
Definition closing : list (Event * Env) := calm (Fire ChWsClose PNone) :: settles 3.

(** The session once teardown has run to its end. *)
Definition released (ctx : Context) (s : St) : St :=
  set_effects (effects s ++ release_sequence ctx)
    (set_allSessions false
       (set_tearingDown true
          (set_logs (logs s ++ [LTearingDown]) s))).

(** ** A session without a uid

    [stranded]: the session holds no uid, is tearing down, has no
    listener, and all that is suspended is the wait for the grace timer
    or a caller awaiting [send] or [teardown]. *)
Definition is_waiting (t : Task) : bool :=
  match t with
  | TTeardownSlept k | TKont k => negb (is_setup_kont k)
  | _ => false
  end.

Definition stranded (s : St) : Prop :=
  uidInfo s = None /\ tearingDown s = true /\ listeners s = [] /\
  forallb is_waiting (map snd (pool s)) = true.

(** ** What triggers teardown *)

(** The awaits of [setup] itself: the lease of a uid, the privileged
    setup, the setup command of the language server. *)
Definition is_setup_await (t : Task) : bool :=
  match t with
  | TSetupBorrowed | TSetupPrivileged | TSetupLspSetup => true
  | _ => false
  end.

(** The awaits of [teardown] that can be rejected: the cleanup command
    and the return of the uid. *)
Definition is_release_await (t : Task) : bool :=
  match t with
  | TTeardownCleaned _ | TTeardownReturned _ => true
  | _ => false
  end.

(** [entered]: teardown has just begun: the flag is set and, of the
    release sequence, the grace timer is started and nothing else. *)
Definition entered (s : St) : Prop :=
  tearingDown s = true /\ release_trace s = [ESetTimeout 5000].

(** ** Setup when the first deployment fails *)

(** The environment of a turn in which [pty.spawn] throws [x]. *)
Definition spawn_throws (x : Err) : Env := put_pty [Some x] quiet.

(** The uid [u] is borrowed and the privileged setup succeeds; of the
    commands the first deployment waits for, [n] succeed and the next is
    rejected with [x]; whatever is waited for afterwards succeeds. *)
Definition deploy_fails (u n : nat) (x : Err) : list (Event * Env) :=
  calm (Settle 0 (resolved u)) :: settles (S n) ++ calm (Settle 0 (rejected x)) :: settles 3.

(** The same with every command of the deployment succeeding and
    [pty.spawn] throwing [x] in the turn of the last of them. *)
Definition spawn_fails (cfg : LangConfig) (u : nat) (x : Err) : list (Event * Env) :=
  calm (Settle 0 (resolved u)) :: settles (deploy_turns cfg) ++
  (Settle 0 (resolved 0), spawn_throws x) :: settles 3.

(** The state [runCode] leaves when it has caught [x], the deployment
    having begun in [s] and started the commands [done]: the error is
    logged, the [terminalClear] of [sendError] follows that of the
    deployment, and the rest of [sendError] is suspended. *)
Definition reported (x : Err) (k : Kont) (done : list Effect) (s : St) : St :=
  returning k
    (set_pool [(Microtask, TKont (KSendError x))]
       (set_sent (sent s ++ [terminalClear; terminalClear])
          (set_logs (logs s ++ [LRunError x])
             (set_effects (effects s ++ done) s)))).

(** The session that is Ready although its first deployment failed with
    [x] after starting the commands [done]: as [ready], but without a
    terminal, and with the error logged and reported to the client. *)
Definition ready_undeployed (cfg : LangConfig) (id : string) (u : nat) (done : list Effect)
    (x : Err) : St :=
  let ctx := {| ctx_uid := u; ctx_uuid := id |} in
  let d := present (Lang.daemon cfg) in
  let l := present (Lang.lsp cfg) in
  {| config := cfg; uuid := id; tearingDown := false; uidInfo := Some u;
     term := None;
     lsp := if l then Some (if d then 1 else 0) else None;
     daemon := if d then Some 0 else None;
     allSessions := true;
     ptys := [];
     children :=
       (if d then [PrivilegedSpawn ctx (Bash (text (Lang.daemon cfg)))] else []) ++
       (if l then [PrivilegedSpawn ctx (Bash (text (Lang.lsp cfg)))] else []);
     listeners :=
       (if d then daemon_wiring else []) ++
       (if l then lsp_wiring else []) ++
       ws_wiring;
     pool := [];
     sent :=
       [terminalClear; terminalClear; terminalOutput (diagnostic x)] ++
       (if l then [lspStarted ("/tmp/riju/" +:+ id)] else []);
     logs := [LCreating; LBorrowed u; LRunError x];
     effects :=
       [EBorrowUser; ERun (PrivilegedSetup ctx) None] ++
       done ++
       (if l && present (Lang.lspSetup cfg)
        then [ERun (PrivilegedSpawn ctx (Bash (text (Lang.lspSetup cfg)))) None]
        else []) |}.

(** ** Library calls that throw

    [used_up before after x]: of the answers of one library, those used
    between [before] and [after] include the exception [x].
    [library_threw e e' x]: during a turn that began with the environment
    [e] and ended with [e'], a call of [spawn], of [pty.spawn] or
    [pty.write], or of the language server's [writer.write] threw [x]. *)
Definition used_up (before after : list (option Err)) (x : Err) : Prop :=
  exists consumed, before = consumed ++ after /\ In (Some x) consumed.

Definition library_threw (e e' : Env) (x : Err) : Prop :=
  used_up (child_faults e) (child_faults e') x \/
  used_up (pty_faults e) (pty_faults e') x \/
  used_up (rpc_faults e) (rpc_faults e') x.

(** The environment of a turn in which [spawn] throws. *)
Definition kill_fails : Env := put_child [Some "Error: spawn EAGAIN"] quiet.


(** * Reasoning about segments *)

Section Sat.
Context (R : Mach -> Mach -> Prop) `{!Stable R}.

Lemma sat_ret {A} (a : A) : sat R (ret a).
Proof. intros m. apply stable_refl. Qed.

Lemma sat_throw {A} (e : Err) : sat R (@throw A e).
Proof. intros m. apply stable_refl. Qed.

Lemma sat_gets {A} (f : St -> A) : sat R (gets f).
Proof. intros m. apply stable_refl. Qed.

Lemma sat_bind {A B} (c : M A) (f : A -> M B) :
  sat R c -> (forall a, sat R (f a)) -> sat R (bind c f).
Proof.
  intros Hc Hf m. unfold bind. specialize (Hc m).
  destruct (c m) as [m' [a | e]]; simpl in *.
  - eapply stable_trans; [exact Hc | apply Hf].
  - exact Hc.
Qed.

Lemma sat_try {A} (c : M A) (h : Err -> M A) :
  sat R c -> (forall e, sat R (h e)) -> sat R (try_catch c h).
Proof.
  intros Hc Hh m. unfold try_catch. specialize (Hc m).
  destruct (c m) as [m' [a | e]]; simpl in *.
  - exact Hc.
  - eapply stable_trans; [exact Hc | apply Hh].
Qed.

Lemma sat_modify (f : St -> St) :
  (forall s e, R {| st := s; env := e |} {| st := f s; env := e |}) ->
  sat R (modify f).
Proof. intros H [s e]. apply H. Qed.

Lemma sat_next_fault get put :
  (forall s e l, R {| st := s; env := e |} {| st := s; env := put l e |}) ->
  sat R (next_fault get put).
Proof.
  intros H [s e]. unfold next_fault. simpl.
  destruct (get e) as [| [x |] rest]; simpl; first [apply stable_refl | apply H].
Qed.

Lemma sat_next_pid :
  (forall s e l, R {| st := s; env := e |} {| st := s; env := put_pids l e |}) ->
  sat R next_pid.
Proof.
  intros H [s e]. unfold next_pid. simpl.
  destruct (pids e); simpl; first [apply stable_refl | apply H].
Qed.

Lemma sat_emit (c : Channel) (p : Payload) :
  (forall h, sat R (handler h p)) ->
  forall ls, sat R (emit ls c p).
Proof.
  intros Hh ls. induction ls as [| [c' h] rest IH]; simpl.
  - apply sat_ret.
  - apply sat_bind; [| intros _; exact IH].
    destruct (same_channel c' c); [apply Hh | apply sat_ret].
Qed.

Lemma sat_fire (c : Channel) (p : Payload) :
  (forall h, sat R (handler h p)) -> sat R (step (Fire c p)).
Proof.
  intros Hh. unfold step. apply sat_bind; [apply sat_gets | intros ls].
  destruct (unheard ls c p); [apply sat_throw | apply sat_emit; exact Hh].
Qed.
End Sat.

Ltac head_of t :=
  lazymatch t with
  | ?f _ => head_of f
  | _ => t
  end.

(** One step through the structure of a segment: [known] closes calls
    that have a lemma of their own, [leaf] the writes. *)
Ltac sat_step known leaf :=
  first
  [ solve [known]
  | lazymatch goal with
    | |- sat _ (ret _) => apply sat_ret; try exact _
    | |- sat _ (throw _) => apply sat_throw; try exact _
    | |- sat _ (gets _) => apply sat_gets; try exact _
    | |- sat _ (bind _ _) => apply sat_bind; [exact _ | | intro]
    | |- sat _ (try_catch _ _) => apply sat_try; [exact _ | | intro]
    | |- sat _ (if ?b then _ else _) => destruct b eqn:?
    | |- sat _ (match ?x with _ => _ end) => destruct x eqn:?
    | |- sat _ (modify _) => apply sat_modify; intros; leaf
    | |- sat _ (next_fault _ _) => apply sat_next_fault; [exact _ | intros; leaf]
    | |- sat _ next_pid => apply sat_next_pid; [exact _ | intros; leaf]
    | |- sat _ ?c => let h := head_of c in unfold h
    end ].

Ltac sat_auto known leaf := repeat sat_step known leaf.


(** ** Symbolic execution of a segment *)

Create HintDb session discriminated.
#[local] Hint Unfold ret bind throw try_catch gets modify log effect next_fault next_pid
  ws_send child_spawn pty_spawn pty_write rpc_write on suspend finish
  homedir context privilegedSetup privilegedSpawn privilegedTeardown run
  teardown_catch teardown teardown_slept teardown_cleaned teardown_returned
  send sendError sendError_second runCode_catch runCode_spawn runCode_hacks runCode_write
  settled runCode_retire runCode_deploy runCode runCode_mkdir runCode_written runCode_hacked
  logBadMessage case_terminalInput case_runCode case_lspInput receive
  setup_catch setup_listen setup_lsp setup_daemon setup_services setup_lspSetup
  setup_borrowed setup_privileged setup constructor : session.

#[local] Arguments String.append : simpl never.
#[local] Arguments decimal : simpl never.
#[local] Arguments cmdline_of : simpl never.
#[local] Arguments deployed_code : simpl never.
#[local] Arguments includes_char : simpl never.
#[local] Arguments ghci_hack : simpl never.
#[local] Arguments is_type : simpl never.
#[local] Arguments discriminant : simpl never.
#[local] Arguments prop : simpl never.
#[local] Arguments printable : simpl never.
#[local] Arguments nonempty : simpl never.
#[local] Arguments present : simpl never.

Ltac symex := repeat (progress (autounfold with session; cbn)).


Ltac stuck_case :=
  match goal with
  | H : ?x = _ |- context [match ?x with _ => _ end] => rewrite H
  | H : ?x = _ |- context [match negb ?x with _ => _ end] => rewrite H
  | |- context [match ?x with _ => _ end] =>
      lazymatch x with
      | context [match _ with _ => _ end] => fail
      | _ => destruct x eqn:?
      end
  end.
Ltac drive := symex; repeat (stuck_case; cbn).

(** Closed facts about the sample sessions are settled by running them. *)
Ltac by_evaluation := vm_compute; reflexivity.

(** * No handler lets an error escape *)

Lemma contained_ret {A} (a : A) : contained (ret a).
Proof. intros m. exists a. reflexivity. Qed.

Lemma contained_gets {A} (f : St -> A) : contained (gets f).
Proof. intros m. eexists. reflexivity. Qed.

Lemma contained_modify (f : St -> St) : contained (modify f).
Proof. intros m. eexists. reflexivity. Qed.

Lemma contained_bind {A B} (c : M A) (f : A -> M B) :
  contained c -> (forall a, contained (f a)) -> contained (bind c f).
Proof.
  intros Hc Hf m. unfold bind. destruct (Hc m) as [a Ha].
  destruct (c m) as [m' r]. simpl in Ha. subst r. apply Hf.
Qed.

Lemma contained_try {A} (c : M A) (h : Err -> M A) :
  (forall e, contained (h e)) -> contained (try_catch c h).
Proof.
  intros Hh m. unfold try_catch. destruct (c m) as [m' [a | e]].
  - exists a. reflexivity.
  - apply Hh.
Qed.

Lemma contained_emit (c : Channel) (p : Payload) :
  (forall h, contained (handler h p)) -> forall ls, contained (emit ls c p).
Proof.
  intros Hh ls. induction ls as [| [c' h] rest IH]; simpl.
  - apply contained_ret.
  - apply contained_bind; [| intros _; exact IH].
    destruct (same_channel c' c); [apply Hh | apply contained_ret].
Qed.

Ltac contained_step known :=
  first
  [ solve [known]
  | lazymatch goal with
    | |- contained (ret _) => apply contained_ret
    | |- contained (gets _) => apply contained_gets
    | |- contained (modify _) => apply contained_modify
    | |- contained (bind _ _) => apply contained_bind; [| intro]
    | |- contained (try_catch _ _) => apply contained_try; intro
    | |- contained (if ?b then _ else _) => destruct b
    | |- contained (match ?x with _ => _ end) => destruct x
    | |- contained ?c => let h := head_of c in unfold h
    end ].

Ltac contained_auto known := repeat contained_step known.

Lemma contained_teardown k : contained (teardown k).
Proof. contained_auto fail. Qed.

Lemma contained_send msg k : contained (send msg k).
Proof. contained_auto ltac:(simple apply contained_teardown). Qed.

Ltac contained_known :=
  idtac;
  lazymatch goal with
  | |- contained (teardown _) => apply contained_teardown
  | |- contained (send _ _) => apply contained_send
  end.

Lemma contained_handler h p : contained (handler h p).
Proof. destruct h, p; simpl; contained_auto contained_known. Qed.

Lemma contained_resume t o : contained (resume t o).
Proof. destruct t; simpl; contained_auto contained_known. Qed.

(** A turn ends with an exception in one case only: an "error" event
    that nobody listens for. *)
Lemma result_of_step ev m :
  snd (step ev m) =
  match ev with
  | Fire c p =>
      match unheard (listeners (st m)) c p with
      | Some x => Exn x
      | None => Val tt
      end
  | Settle _ _ => Val tt
  end.
Proof.
  destruct ev as [c p | i o].
  - unfold step, bind, gets. cbn [fst snd].
    destruct (unheard (listeners (st m)) c p) as [x |]; [reflexivity |].
    destruct (contained_emit c p (fun h => contained_handler h p) (listeners (st m)) m)
      as [[] H].
    exact H.
  - assert (H : contained (step (Settle i o)))
      by (unfold step; contained_auto ltac:(simple apply contained_resume)).
    destruct (H m) as [[] Hv]. exact Hv.
Qed.

Lemma result_of_a_client_turn s ev m : client_turn s ev = true -> snd (step ev m) = Val tt.
Proof.
  intros H. rewrite result_of_step.
  destruct ev as [c p | i o]; [| reflexivity].
  destruct c; try discriminate. destruct p; try discriminate. reflexivity.
Qed.

(** * Teardown silences the session *)

#[local] Instance frozen_stable : Stable frozen.
Proof.
  split.
  - intros m H. auto.
  - intros a b c Hab Hbc H. destruct (Hab H) as [H1 H2].
    destruct (Hbc H1) as [H3 H4]. split; congruence.
Qed.

Ltac frozen_leaf := let H := fresh in intros H; simpl in *; auto.

Lemma frozen_send msg k : sat frozen (send msg k).
Proof.
  intros [s e] H. simpl in H. unfold send, try_catch, bind, gets. simpl. rewrite H.
  destruct k; simpl; auto.
Qed.

Ltac frozen_known :=
  idtac;
  lazymatch goal with
  | |- sat _ (send _ _) => apply frozen_send
  end.

Lemma frozen_daemon_streams l : sat frozen (daemon_streams l).
Proof.
  induction l; simpl; sat_auto ltac:(first [frozen_known | eassumption]) frozen_leaf.
Qed.

Lemma frozen_handler h p : sat frozen (handler h p).
Proof.
  destruct h, p; simpl; sat_auto ltac:(first [frozen_known | simple apply frozen_daemon_streams]) frozen_leaf.
Qed.

Lemma frozen_resume t o : sat frozen (resume t o).
Proof.
  destruct t; simpl; sat_auto ltac:(first [frozen_known | simple apply frozen_daemon_streams]) frozen_leaf.
Qed.

Lemma frozen_step ev : sat frozen (step ev).
Proof.
  destruct ev as [c p | i o]; [| unfold step].
  - apply sat_fire; [exact _ | intros h; apply frozen_handler].
  - sat_auto ltac:(simple apply frozen_resume) frozen_leaf.
Qed.

Lemma frozen_exec evs : forall s,
  tearingDown s = true ->
  tearingDown (exec evs s) = true /\ sent (exec evs s) = sent s.
Proof.
  induction evs as [| [ev e] rest IH]; intros s H; simpl; [auto |].
  destruct (frozen_step ev {| st := s; env := e |} H) as [H1 H2].
  destruct (IH (turn ev e s) H1) as [H3 H4].
  split; [exact H3 |]. rewrite H4. exact H2.
Qed.

Lemma handler_ignores_frames_once_tearing_down h raw m :
  tearingDown (st m) = true -> handler h (PFrame raw) m = (m, Val tt).
Proof.
  intros H. destruct h; simpl; try reflexivity.
  - unfold receive, try_catch, bind, gets. rewrite H. reflexivity.
  - unfold teardown, try_catch, bind, gets. rewrite H. reflexivity.
Qed.

Lemma emit_ignores_frames_once_tearing_down raw m :
  tearingDown (st m) = true ->
  forall ls, emit ls ChWsMessage (PFrame raw) m = (m, Val tt).
Proof.
  intros H ls. induction ls as [| [c h] rest IH]; simpl; [reflexivity |].
  unfold bind. destruct (same_channel c ChWsMessage).
  - rewrite handler_ignores_frames_once_tearing_down by exact H. exact IH.
  - simpl. exact IH.
Qed.

(** C7: once the teardown flag is set, a frame that arrives changes
    nothing at all (no effect, no frame, no log line), [send] hands
    nothing to the websocket whoever calls it, and this stays so through
    every later turn of the event loop: the flag is never reset and the
    list of frames sent never grows. *)
Theorem teardown_silences_the_session (s : St) :
  tearingDown s = true ->
  (forall raw e, turn (Fire ChWsMessage (PFrame raw)) e s = s) /\
  (forall msg k e, sent (st (fst (send msg k {| st := s; env := e |}))) = sent s) /\
  (forall evs, tearingDown (exec evs s) = true /\ sent (exec evs s) = sent s).
Proof.
  intros H. split; [| split].
  - intros raw e. unfold turn, step, bind, gets. simpl.
    rewrite emit_ignores_frames_once_tearing_down by exact H. reflexivity.
  - intros msg k e. apply (frozen_send msg k {| st := s; env := e |} H).
  - intros evs. apply frozen_exec. exact H.
Qed.

Lemma teardown_silences_the_session_witness :
  tearingDown torn_down = true /\
  ((forall raw e, turn (Fire ChWsMessage (PFrame raw)) e torn_down = torn_down) /\
   (forall msg k e,
      sent (st (fst (send msg k {| st := torn_down; env := e |}))) = sent torn_down) /\
   (forall evs, tearingDown (exec evs torn_down) = true /\
                sent (exec evs torn_down) = sent torn_down)).
Proof.
  split; [by_evaluation |].
  apply (teardown_silences_the_session torn_down). by_evaluation.
Defined.


(** * Superseded terminals *)

#[local] Instance silenced_stable : Stable silenced.
Proof.
  split.
  - intros m H. auto.
  - intros a b c Hab Hbc H. destruct (Hab H) as (H1 & H2 & H3).
    destruct (Hbc H1) as (H4 & H5 & H6). split; [exact H4 | split; [lia |]].
    intros h Hh Hd. apply H6; [lia | apply H3; assumption].
Qed.

Lemma lookup_mark_dead (l : list Pty) h h' :
  match l !! h' with Some p => live p | None => false end = false ->
  match alter mark_dead h l !! h' with Some p => live p | None => false end = false.
Proof.
  intros H. rewrite list_lookup_alter.
  destruct (decide (h = h')) as [<- |]; [| exact H].
  destruct (l !! h); reflexivity.
Qed.

Lemma lookup_spawned (l : list Pty) p h' :
  h' < length l ->
  match l !! h' with Some p => live p | None => false end = false ->
  match (l ++ [p]) !! h' with Some p => live p | None => false end = false.
Proof. intros Hlt H. rewrite lookup_app_l by exact Hlt. exact H. Qed.

Ltac silenced_leaf :=
  let H := fresh in
  unfold silenced, wired, is_live; simpl; intros H;
  repeat split;
  [ try assumption;
    try (rewrite forallb_app, H; simpl; rewrite ?Nat.eqb_refl; reflexivity)
  | rewrite ?length_app, ?length_alter; simpl; lia
  | intros; first [ assumption | apply lookup_mark_dead; assumption
                  | apply lookup_spawned; assumption ] ].

Lemma silenced_daemon_streams l :
  Forall (fun c => c = ChDaemonStdout \/ c = ChDaemonStderr) l ->
  sat silenced (daemon_streams l).
Proof.
  induction 1 as [| c l [-> | ->] _ IH]; simpl; sat_auto ltac:(eassumption) silenced_leaf.
Qed.

Ltac silenced_known :=
  idtac;
  lazymatch goal with
  | |- sat _ (daemon_streams _) => apply silenced_daemon_streams; repeat constructor; auto
  end.

Lemma silenced_handler h p : sat silenced (handler h p).
Proof.
  destruct h, p; simpl; sat_auto fail silenced_leaf.
Qed.

Lemma silenced_resume t o : sat silenced (resume t o).
Proof.
  destruct t; simpl;
    sat_auto silenced_known silenced_leaf.
Qed.

Lemma silenced_step ev : sat silenced (step ev).
Proof.
  destruct ev as [c p | i o]; [| unfold step].
  - apply sat_fire; [exact _ | intros h; apply silenced_handler].
  - sat_auto ltac:(simple apply silenced_resume) silenced_leaf.
Qed.

Lemma silenced_exec evs : forall s h,
  wired s = true -> h < length (ptys s) -> is_live s h = false ->
  wired (exec evs s) = true /\ is_live (exec evs s) h = false.
Proof.
  induction evs as [| [ev e] rest IH]; intros s h Hw Hh Hd; simpl; [auto |].
  destruct (silenced_step ev {| st := s; env := e |} Hw) as (H1 & H2 & H3).
  apply IH; [exact H1 | simpl in H2; unfold turn; lia | apply H3; assumption].
Qed.

Lemma emit_call_all c p ls m :
  emit ls c p m =
  call_all (map snd (List.filter (fun l => same_channel (fst l) c) ls)) p m.
Proof.
  revert m. induction ls as [| [c' h] rest IH]; intros m; simpl; [reflexivity |].
  destruct (same_channel c' c); simpl; unfold bind.
  - destruct (handler h p m) as [m' [[] | e]]; [apply IH | reflexivity].
  - apply IH.
Qed.

Lemma unheard_no_handler ls c p x :
  unheard ls c p = Some x -> List.filter (fun l => same_channel (fst l) c) ls = [].
Proof.
  unfold unheard. destruct p; try discriminate.
  destruct (is_error_event c); [| discriminate]. cbn [andb].
  induction ls as [| l ls IH]; [reflexivity |]. cbn [existsb List.filter].
  destruct (same_channel (fst l) c); [discriminate | exact IH].
Qed.

Lemma turn_fire s e c p :
  turn (Fire c p) e s = st (fst (call_all (handlers_on c s) p {| st := s; env := e |})).
Proof.
  unfold turn, step, bind, gets, handlers_on. cbn [st fst].
  destruct (unheard (listeners s) c p) as [x |] eqn:Hu.
  - rewrite (unheard_no_handler _ _ _ _ Hu). reflexivity.
  - rewrite emit_call_all. reflexivity.
Qed.

Lemma turn_message s e raw :
  handlers_on ChWsMessage s = [HReceive] ->
  turn (Fire ChWsMessage (PFrame raw)) e s = st (fst (receive raw {| st := s; env := e |})).
Proof.
  intros H. unfold turn, step, bind, gets. simpl. rewrite emit_call_all.
  unfold handlers_on in H. rewrite H. simpl. unfold bind.
  destruct (receive raw {| st := s; env := e |}) as [m' [[] | x]]; reflexivity.
Qed.

Lemma dead_pty_is_ignored h data m :
  is_live (st m) h = false ->
  forall ls, forallb paired ls = true ->
  emit ls (ChPtyData h) (PData data) m = (m, Val tt).
Proof.
  intros Hd ls. induction ls as [| [c hd] rest IH]; simpl; intros Hp; [reflexivity |].
  apply andb_prop in Hp. destruct Hp as [Hp Hr]. unfold bind.
  destruct c; simpl; try (apply IH; exact Hr).
  destruct (Nat.eqb h0 h) eqn:E; simpl; [| apply IH; exact Hr].
  apply Nat.eqb_eq in E. subst h0.
  destruct hd; simpl in Hp; try discriminate.
  apply Nat.eqb_eq in Hp. subst h0. cbn [handler]. unfold bind, gets. rewrite Hd.
  apply IH; exact Hr.
Qed.

#[local] Instance keeps_stable : Stable keeps.
Proof.
  split.
  - intros m. repeat split.
  - intros a b c (H1 & H2 & H3) (H4 & H5 & H6). repeat split; congruence.
Qed.

Ltac keeps_leaf := repeat split.

Lemma keeps_deploy code k : sat keeps (runCode_deploy code k).
Proof. sat_auto fail keeps_leaf. Qed.

Lemma keeps_catch e k : sat keeps (runCode_catch e k).
Proof. sat_auto fail keeps_leaf. Qed.

Lemma keeps_report e : sat keeps (log (LHandlerError e) ;; sendError e).
Proof. sat_auto fail keeps_leaf. Qed.

Lemma retire_live_terminal s e h u :
  term s = Some h -> uidInfo s = Some u -> hd None (child_faults e) = None ->
  exists s' e',
    runCode_retire {| st := s; env := e |} = ({| st := s'; env := e' |}, Val tt) /\
    term s' = None /\ ptys s' = alter mark_dead h (ptys s) /\ listeners s' = listeners s.
Proof.
  intros Ht Hu Hc. symex. rewrite Ht. cbn. rewrite Hu. cbn.
  destruct (child_faults e) as [| [x |] r]; simpl in Hc; try discriminate; cbn;
    eexists _, _; repeat split.
Qed.

Lemma runCode_supersedes s e h u code k :
  term s = Some h -> uidInfo s = Some u -> hd None (child_faults e) = None ->
  let s' := st (fst (runCode code k {| st := s; env := e |})) in
  term s' = None /\ ptys s' = alter mark_dead h (ptys s) /\ listeners s' = listeners s.
Proof.
  intros Ht Hu Hc.
  destruct (retire_live_terminal s e h u Ht Hu Hc) as (s1 & e1 & Hr & H1 & H2 & H3).
  unfold runCode, try_catch, bind. rewrite Hr.
  pose proof (keeps_deploy code k {| st := s1; env := e1 |}) as Hd.
  destruct (runCode_deploy code k {| st := s1; env := e1 |}) as [m2 [[] | x]]; simpl in *.
  - destruct Hd as (Ha & Hb & Hc'). cbn in *. repeat split; congruence.
  - pose proof (keeps_catch x k m2) as (Hx & Hy & Hz).
    destruct Hd as (Ha & Hb & Hc'). cbn in *. repeat split; congruence.
Qed.

(** What lines 265-274 achieve, for the terminal that is in the slot when
    a Run-Code request arrives (the kill command being spawned).  In the
    turn of the request, before any new pty exists, [h] is marked dead
    and dropped from the slot; it is still dead after any further turns
    whatever, and output of its pty then leaves the session as it is: no
    [terminalOutput] frame, nor anything else. *)
Theorem superseded_terminal_is_never_forwarded s h u msg e0 evs data e :
  wired s = true ->
  handlers_on ChWsMessage s = [HReceive] ->
  tearingDown s = false ->
  term s = Some h ->
  is_live s h = true ->
  uidInfo s = Some u ->
  discriminant msg = Some (JStr "runCode") ->
  is_type ty_string (prop msg "code") = true ->
  hd None (child_faults e0) = None ->
  let s1 := turn (Fire ChWsMessage (PFrame (Some msg))) e0 s in
  let s2 := exec evs s1 in
  (term s1 = None /\ is_live s1 h = false /\ length (ptys s1) = length (ptys s)) /\
  is_live s2 h = false /\
  turn (Fire (ChPtyData h) (PData data)) e s2 = s2.
Proof.
  intros Hw Hr Htd Ht Hl Hu Hd Hty Hc s1 s2.
  assert (Hlt : h < length (ptys s)).
  { unfold is_live in Hl. destruct (ptys s !! h) eqn:E; [| discriminate].
    apply lookup_lt_Some in E. exact E. }
  assert (Hs1 : term s1 = None /\ ptys s1 = alter mark_dead h (ptys s) /\
                listeners s1 = listeners s).
  { unfold s1. rewrite turn_message by exact Hr.
    unfold receive, try_catch, bind, gets. cbn [st]. rewrite Htd, Hd. cbn.
    unfold case_runCode. rewrite Hty. cbn.
    pose proof (runCode_supersedes s e0 h u (Some (as_string (prop msg "code"))) KDone Ht Hu Hc)
      as Hs.
    destruct (runCode _ KDone _) as [m' [[] | x]]; cbn in *; [exact Hs |].
    pose proof (keeps_report x m') as (Hx & Hy & Hz).
    destruct Hs as (Ha & Hb & Hc'). cbn in *. repeat split; congruence. }
  destruct Hs1 as (H1 & H2 & H3).
  assert (Hdead : is_live s1 h = false).
  { unfold is_live. rewrite H2. rewrite list_lookup_alter.
    destruct (decide (h = h)); [| congruence]. destruct (ptys s !! h); reflexivity. }
  assert (Hw1 : wired s1 = true).
  { unfold wired. rewrite H3. exact Hw. }
  assert (Hlen : length (ptys s1) = length (ptys s)).
  { rewrite H2. apply length_alter. }
  destruct (silenced_exec evs s1 h Hw1 ltac:(lia) Hdead) as [Hw2 Hd2].
  fold s2 in Hw2, Hd2.
  split; [auto |]. split; [exact Hd2 |].
  unfold turn, step, bind, gets. cbn [st unheard].
  rewrite (dead_pty_is_ignored h data {| st := s2; env := e |} Hd2 (listeners s2) Hw2).
  reflexivity.
Qed.

Lemma superseded_terminal_is_never_forwarded_witness :
  wired ready_python = true /\
  handlers_on ChWsMessage ready_python = [HReceive] /\
  tearingDown ready_python = false /\
  term ready_python = Some 0 /\
  is_live ready_python 0 = true /\
  uidInfo ready_python = Some 1000 /\
  discriminant rerun = Some (JStr "runCode") /\
  is_type ty_string (prop rerun "code") = true /\
  hd None (child_faults quiet) = None /\
  let s1 := turn (Fire ChWsMessage (PFrame (Some rerun))) quiet ready_python in
  let s2 := exec [calm (Fire (ChPtyData 0) (PData "late")); calm (Settle 0 (resolved 0))] s1 in
  (term s1 = None /\ is_live s1 0 = false /\ length (ptys s1) = length (ptys ready_python)) /\
  is_live s2 0 = false /\
  turn (Fire (ChPtyData 0) (PData "later")) quiet s2 = s2.
Proof.
  repeat (split; [by_evaluation |]).
  apply (superseded_terminal_is_never_forwarded ready_python 0 1000 rerun quiet
           [calm (Fire (ChPtyData 0) (PData "late")); calm (Settle 0 (resolved 0))]
           "later" quiet); by_evaluation.
Defined.

(** C2, which the code breaks when two Run-Code requests overlap.  The
    second request arrives while the first is still writing its code: it
    finds the slot empty (the first request has emptied it), so it kills
    nothing, and both go on to spawn a pty.  The pty of the first request
    (handle 1) takes the slot and is then replaced by the pty of the
    second (handle 2) at line 330, which overwrites the slot without
    marking its occupant dead: handle 1 is superseded, still live, never
    killed, and what it prints is forwarded to the client as a
    [terminalOutput] frame. *)
Lemma overlapping_requests_leave_a_live_terminal_behind :
  let s := exec [calm (Fire ChWsMessage (PFrame (Some (msg_runCode "a"))));
                 calm (Fire ChWsMessage (PFrame (Some (msg_runCode "b"))));
                 calm (Settle 0 (resolved 0));
                 calm (Settle 0 (resolved 0))] ready_python in
  term s = Some 2 /\ map live (ptys s) = [false; true; true] /\
  turn (Fire (ChPtyData 1) (PData "from a")) quiet s =
  set_sent (sent s ++ [terminalOutput "from a"]) s.
Proof. vm_compute. repeat split; reflexivity. Qed.

(** * A failed Run-Code leaves the session without a terminal *)

Ltac steady_tac :=
  unfold steady, handlers_on, is_live in *; cbn;
  rewrite ?List.filter_app, ?List.map_app, ?List.length_app; cbn;
  rewrite ?app_nil_r;
  repeat split; try assumption; try lia;
  try (rewrite lookup_app_l by lia; assumption).

Ltac stage_tac :=
  first
  [ solve [eapply stage_running;
           [reflexivity | reflexivity | assumption
           | unfold run_errors in *; cbn; assumption]]
  | solve [eapply stage_reporting;
           [reflexivity | assumption
           | unfold run_errors in *; cbn; rewrite ?List.filter_app, ?List.length_app; cbn; lia]]
  | solve [eapply stage_failed;
           [reflexivity | assumption
           | unfold run_errors in *; cbn; rewrite ?List.filter_app, ?List.length_app; cbn; lia]]
  | solve [eapply stage_done;
           [reflexivity | reflexivity
           | unfold is_live; cbn; rewrite lookup_app_r by lia; rewrite Nat.sub_diag; reflexivity
           | unfold run_errors in *; cbn; assumption]] ].


Lemma stage_turn n u h s ev e :
  steady u h s -> stage n s -> inner (ev, e) = true ->
  steady u h (turn ev e s) /\ stage n (turn ev e s).
Proof.
  intros (Htd & Hr & Hu & Hl & Hlt) Hs Hi.
  destruct ev as [c p | i o]; [discriminate |]. simpl in Hi.
  destruct (ws_faults e) eqn:Hw; [clear Hi | discriminate].
  unfold turn, step. symex.
  destruct Hs as [t Hp Ht Htm Hn | x Hp Htm Hn | Hp Htm Hn | h' Hp Htm Hl' Hn]; rewrite Hp.
  - destruct i as [| i]; cbn.
    2:{ split; [repeat split; assumption | eapply stage_running; eauto]. }
    destruct t as [| | | | c1 c2 [| |] | c1 c2 [| |] | c2 [| |] | | | ]; try discriminate.
    + destruct o as [v | x]; drive.
      all: split; [steady_tac | stage_tac].
    + destruct o as [v | x]; drive.
      all: split; [steady_tac | stage_tac].
    + destruct o as [v | x]; drive.
      all: split; [steady_tac | stage_tac].
  - destruct i as [| i]; cbn.
    2:{ split; [repeat split; assumption | eapply stage_reporting; eauto]. }
    drive. split; [steady_tac | stage_tac].
  - cbn. split; [repeat split; assumption | eapply stage_failed; eauto].
  - cbn. split; [repeat split; assumption | eapply stage_done; eauto].
Qed.

Lemma stage_exec n u h evs : forall s,
  steady u h s -> stage n s -> forallb inner evs = true ->
  steady u h (exec evs s) /\ stage n (exec evs s).
Proof.
  induction evs as [| [ev e] rest IH]; intros s Hst Hs Hi; simpl in *; [auto |].
  apply andb_prop in Hi. destruct Hi as [Hi Hr].
  destruct (stage_turn n u h s ev e Hst Hs Hi) as [H1 H2].
  apply IH; assumption.
Qed.

Lemma runCode_request_is_underway s h u msg e0 :
  handlers_on ChWsMessage s = [HReceive] -> tearingDown s = false -> pool s = [] ->
  term s = Some h -> is_live s h = true -> uidInfo s = Some u ->
  discriminant msg = Some (JStr "runCode") ->
  is_type ty_string (prop msg "code") = true ->
  hd None (child_faults e0) = None -> ws_faults e0 = [] ->
  let s1 := turn (Fire ChWsMessage (PFrame (Some msg))) e0 s in
  steady u h s1 /\ stage (run_errors s) s1.
Proof.
  intros Hr Htd Hp Ht Hl Hu Hd Hty Hc Hw s1.
  assert (Hlt : h < length (ptys s)).
  { unfold is_live in Hl. destruct (ptys s !! h) eqn:E; [| discriminate].
    apply lookup_lt_Some in E. exact E. }
  unfold s1. rewrite turn_message by exact Hr.
  destruct (child_faults e0) as [| [x |] r] eqn:Hcf; simpl in Hc; try discriminate.
  - drive.
    all: split;
      [ unfold steady, handlers_on, is_live in *; cbn; rewrite ?length_alter;
        repeat split; try assumption;
        first [ lia
              | rewrite list_lookup_alter; destruct (decide (h = h)); [| congruence];
                destruct (ptys s !! h); reflexivity ]
      | eapply stage_running; cbn; rewrite ?Hp; reflexivity ].
  - drive.
    all: split;
      [ unfold steady, handlers_on, is_live in *; cbn; rewrite ?length_alter;
        repeat split; try assumption;
        first [ lia
              | rewrite list_lookup_alter; destruct (decide (h = h)); [| congruence];
                destruct (ptys s !! h); reflexivity ]
      | eapply stage_running; cbn; rewrite ?Hp; reflexivity ].
Qed.

Lemma ignored_terminal_input s msg e :
  handlers_on ChWsMessage s = [HReceive] -> tearingDown s = false -> term s = None ->
  discriminant msg = Some (JStr "terminalInput") ->
  is_type ty_string (prop msg "input") = true ->
  turn (Fire ChWsMessage (PFrame (Some msg))) e s = set_logs (logs s ++ [LTermIgnored]) s.
Proof.
  intros Hr Htd Ht Hd Hty. rewrite turn_message by exact Hr. drive. reflexivity.
Qed.




(** * Errors of a client's turn are reported, the session stays *)

Ltac served_side :=
  cbn;
  first
  [ assumption
  | reflexivity
  | symmetry; apply app_nil_r
  | apply (f_equal (fun x => x ++ [terminalClear])); symmetry; apply app_nil_r
  | unfold handlers_on in *; cbn; rewrite ?List.filter_app, ?List.map_app; cbn;
    rewrite ?app_nil_r; assumption ].

Ltac served_tac :=
  first
  [ solve [eapply served_quiet; served_side]
  | solve [eapply served_reported; served_side] ].

Lemma receive_served s e raw :
  tearingDown s = false -> handlers_on ChWsMessage s = [HReceive] -> ws_faults e = [] ->
  served s (pool s) (st (fst (receive raw {| st := s; env := e |}))).
Proof.
  intros Htd Hr Hw.
  drive.
  all: served_tac.
Qed.

Lemma resume_served s e i w t o :
  tearingDown s = false -> handlers_on ChWsMessage s = [HReceive] -> ws_faults e = [] ->
  pool s !! i = Some (w, t) -> is_client_runCode t = true ->
  served s (delete i (pool s)) (turn (Settle i o) e s).
Proof.
  intros Htd Hr Hw Hi Ht. unfold turn, step. symex. rewrite Hi. cbn.
  generalize (outcome_for w o). clear o. intros o.
  destruct t as [| | | | c1 c2 [| |] | c1 c2 [| |] | c2 [| |] | | | ]; try discriminate;
    destruct o as [v | x]; drive; served_tac.
Qed.

Lemma first_microtask_app q q' :
  first_microtask q = None -> first_microtask (q ++ q') = option_map (Nat.add (length q)) (first_microtask q').
Proof.
  induction q as [| [[] t] q IH]; simpl; intros H; try discriminate.
  - destruct (first_microtask q'); reflexivity.
  - destruct (first_microtask q) eqn:E; [discriminate |]. rewrite (IH eq_refl).
    destruct (first_microtask q'); reflexivity.
  - destruct (first_microtask q) eqn:E; [discriminate |]. rewrite (IH eq_refl).
    destruct (first_microtask q'); reflexivity.
Qed.

Lemma first_microtask_delete q i :
  first_microtask q = None -> first_microtask (delete i q) = None.
Proof.
  revert i. induction q as [| [[] t] q IH]; intros [| i] H; simpl in *; try discriminate; auto.
  - destruct (first_microtask q); [discriminate | reflexivity].
  - destruct (first_microtask q) eqn:E; [discriminate |]. rewrite (IH i eq_refl). reflexivity.
  - destruct (first_microtask q); [discriminate | reflexivity].
  - destruct (first_microtask q) eqn:E; [discriminate |]. rewrite (IH i eq_refl). reflexivity.
Qed.

Lemma checkpoint_idle n s : first_microtask (pool s) = None -> checkpoint n s = s.
Proof. intros H. destruct n; simpl; [reflexivity | rewrite H; reflexivity]. Qed.

Lemma delete_last {A} (q : list A) x : delete (length q) (q ++ [x]) = q.
Proof. induction q as [| a q IH]; simpl; [reflexivity | rewrite IH; reflexivity]. Qed.

Lemma report_turn s q err :
  tearingDown s = false -> pool s = q ++ [(Microtask, TKont (KSendError err))] ->
  turn (Settle (length q) (resolved 0)) quiet s =
  set_sent (sent s ++ [terminalOutput (diagnostic err)]) (set_pool q s).
Proof.
  intros Htd Hp. unfold turn, step. symex. rewrite Hp.
  rewrite lookup_app_r by lia. rewrite Nat.sub_diag. symex.
  rewrite delete_last. rewrite Htd. cbn. reflexivity.
Qed.

Lemma caught_app s s1 l : logs s1 = logs s ++ l -> caught s s1 = errors_in l.
Proof.
  intros H. unfold caught. rewrite H. rewrite List.skipn_app, List.skipn_all, Nat.sub_diag.
  reflexivity.
Qed.

Lemma served_checkpoint s q0 s1 :
  served s q0 s1 -> first_microtask q0 = None ->
  let s' := checkpoint (length (pool s1)) s1 in
  tearingDown s' = false /\ handlers_on ChWsMessage s' = [HReceive] /\
  first_microtask (pool s') = None /\
  forall err, In err (caught s s1) ->
    exists pre, sent s' = sent s ++ pre ++ [terminalClear; terminalOutput (diagnostic err)].
Proof.
  intros [l q Htd Hr Hl He Hp Hq | l err pre Htd Hr Hl He Hp Hs] H0 s'.
  - assert (Hn : first_microtask (pool s1) = None).
    { rewrite Hp, first_microtask_app by exact H0. rewrite Hq. reflexivity. }
    unfold s'. rewrite checkpoint_idle by exact Hn. repeat split; auto.
    intros err Hin. rewrite (caught_app s s1 l Hl), He in Hin. destruct Hin.
  - assert (Hs' : s' = set_sent (sent s1 ++ [terminalOutput (diagnostic err)]) (set_pool q0 s1)).
    { unfold s'. rewrite Hp at 1. rewrite List.length_app, Nat.add_comm. simpl.
      rewrite Hp, first_microtask_app by exact H0. simpl. rewrite Nat.add_0_r.
      rewrite (report_turn s1 q0 err Htd Hp). apply checkpoint_idle. exact H0. }
    rewrite Hs'. cbn. repeat split; auto.
    intros err' Hin. rewrite (caught_app s s1 l Hl), He in Hin.
    destruct Hin as [<- | []]. exists pre. rewrite Hs. rewrite <- !app_assoc. reflexivity.
Qed.

Lemma rejected_step_is_caught s e i t err :
  tearingDown s = false -> ws_faults e = [] ->
  pool s !! i = Some (External, t) -> is_client_runCode t = true ->
  caught s (turn (Settle i (rejected err)) e s) = [err].
Proof.
  intros Htd Hw Hi Ht. unfold turn, step. symex. rewrite Hi. cbn.
  destruct t as [| | | | c1 c2 [| |] | c1 c2 [| |] | c2 [| |] | | | ]; try discriminate;
    drive; erewrite caught_app by (cbn; reflexivity); reflexivity.
Qed.

Lemma failed_write_is_caught s e msg h x rest :
  tearingDown s = false -> handlers_on ChWsMessage s = [HReceive] -> ws_faults e = [] ->
  discriminant msg = Some (JStr "terminalInput") ->
  is_type ty_string (prop msg "input") = true ->
  term s = Some h -> pty_faults e = Some x :: rest ->
  caught s (turn (Fire ChWsMessage (PFrame (Some msg))) e s) = [x].
Proof.
  intros Htd Hr Hw Hd Hty Ht Hp. rewrite turn_message by exact Hr.
  drive. erewrite caught_app by (cbn; reflexivity). reflexivity.
Qed.

(** On the sample session: the write of a second Run-Code fails. *)
Lemma failed_write_reaches_the_client :
  let s1 := turn write_fails quiet rerunning in
  caught rerunning s1 = ["Error: write failed"] /\
  sent (checkpoint (length (pool s1)) s1) =
  sent rerunning ++ [terminalClear; terminalOutput (diagnostic "Error: write failed")].
Proof. vm_compute. split; reflexivity. Qed.

(** * Teardown runs the release sequence at most once *)

#[local] Instance orderly_stable : Stable orderly.
Proof.
  split.
  - intros m. left. repeat split; auto.
  - intros a b c [(A1 & A2 & A3 & A4 & A5) | (A1 & A2 & (k & A3) & A4 & A5 & A6)]
      [(B1 & B2 & B3 & B4 & B5) | (B1 & B2 & (k' & B3) & B4 & B5 & B6)].
    + left. repeat split; try congruence. auto.
    + right. repeat split; try congruence; auto. exists k'. congruence.
    + right. repeat split; try congruence; auto. exists k. congruence.
    + congruence.
Qed.

Ltac orderly_leaf :=
  left; unfold td_neutral, teardown_tasks, release_trace, teardown_errors; cbn;
  rewrite ?List.map_app, ?List.filter_app, ?List.length_app; cbn; rewrite ?app_nil_r, ?Nat.add_0_r;
  repeat split; auto; congruence.

Lemma orderly_teardown k : sat orderly (teardown k).
Proof.
  intros [s e]. symex. destruct (tearingDown s) eqn:Htd.
  - destruct k; cbn; orderly_leaf.
  - cbn. right. unfold td_begun, teardown_tasks, release_trace, teardown_errors. cbn.
    rewrite ?List.map_app, ?List.filter_app, ?List.length_app; cbn; rewrite ?app_nil_r, ?Nat.add_0_r.
    repeat split; auto. exists k. reflexivity.
Qed.

Lemma orderly_run_spawn a i t :
  is_teardown_task t = false ->
  sat orderly (cmd <- privilegedSpawn a ;; run cmd i t).
Proof.
  intros Ht [s e]. symex. destruct (uidInfo s) eqn:Hu; cbn; [| apply stable_refl].
  left. unfold td_neutral, teardown_tasks, release_trace, teardown_errors; cbn.
  rewrite ?List.map_app, ?List.filter_app, ?List.length_app; cbn; rewrite Ht, ?app_nil_r.
  repeat split; auto; congruence.
Qed.

Lemma orderly_run_setup i t :
  is_teardown_task t = false ->
  sat orderly (cmd <- privilegedSetup ;; run cmd i t).
Proof.
  intros Ht [s e]. symex. destruct (uidInfo s) eqn:Hu; cbn; [| apply stable_refl].
  left. unfold td_neutral, teardown_tasks, release_trace, teardown_errors; cbn.
  rewrite ?List.map_app, ?List.filter_app, ?List.length_app; cbn; rewrite Ht, ?app_nil_r.
  repeat split; auto; congruence.
Qed.

Ltac orderly_known :=
  idtac;
  lazymatch goal with
  | |- sat _ (teardown _) => apply orderly_teardown
  | |- sat _ (bind (privilegedSpawn _) (fun cmd => run cmd _ _)) =>
      apply orderly_run_spawn; reflexivity
  | |- sat _ (bind privilegedSetup (fun cmd => run cmd _ _)) =>
      apply orderly_run_setup; reflexivity
  | |- sat _ (daemon_streams _) => eassumption
  end.

Lemma orderly_daemon_streams l : sat orderly (daemon_streams l).
Proof. induction l; simpl; sat_auto orderly_known orderly_leaf. Qed.

Lemma orderly_handler h p : sat orderly (handler h p).
Proof. destruct h, p; simpl; sat_auto orderly_known orderly_leaf. Qed.

Lemma orderly_resume t o : is_teardown_task t = false -> sat orderly (resume t o).
Proof.
  destruct t; simpl; try discriminate; intros _;
    sat_auto ltac:(first [orderly_known | simple apply orderly_daemon_streams]) orderly_leaf.
Qed.

Lemma protocol_neutral s s' : protocol s -> td_neutral s s' -> protocol s'.
Proof.
  intros H (N1 & N2 & N3 & N4 & N5).
  destruct H;
    [ apply protocol_idle | eapply protocol_waiting | eapply protocol_cleaning
    | eapply protocol_returning | eapply protocol_aborted | eapply protocol_closed ];
    rewrite ?N1, ?N2, ?N3, ?N4; eauto.
Qed.

Lemma protocol_begun s s' : protocol s -> td_begun s s' -> protocol s'.
Proof.
  intros H (B1 & B2 & (k & B3) & B4 & B5 & B6).
  destruct H; try congruence.
  apply (protocol_waiting s' k {| ctx_uid := 0; ctx_uuid := "" |}); [exact B2 | |].
  - rewrite B3. match goal with H : teardown_tasks s = [] |- _ => rewrite H end. reflexivity.
  - rewrite B4. match goal with H : release_trace s = [] |- _ => rewrite H end. reflexivity.
Qed.

Lemma protocol_orderly m m' : protocol (st m) -> orderly m m' -> protocol (st m').
Proof. intros H [N | B]; eauto using protocol_neutral, protocol_begun. Qed.

Lemma filter_delete_other {A B} (f : B -> bool) (g : A -> B) (l : list A) i x :
  l !! i = Some x -> f (g x) = false ->
  List.filter f (map g (delete i l)) = List.filter f (map g l).
Proof.
  revert i. induction l as [| a l IH]; intros [| i] H Hf; simpl in *; try discriminate.
  - injection H as ->. rewrite Hf. reflexivity.
  - rewrite (IH i H Hf). reflexivity.
Qed.

Lemma filter_delete_single {A B} (f : B -> bool) (g : A -> B) (l : list A) i x y :
  l !! i = Some x -> f (g x) = true -> List.filter f (map g l) = [y] ->
  g x = y /\ List.filter f (map g (delete i l)) = [].
Proof.
  revert i. induction l as [| a l IH]; intros [| i] H Hf Hy; simpl in *; try discriminate.
  - injection H as ->. rewrite Hf in Hy. injection Hy as -> Hy. auto.
  - destruct (f (g a)) eqn:Ha.
    + injection Hy as -> Hy. exfalso.
      assert (In (g x) (List.filter f (map g l))) as Hin.
      { apply List.filter_In. split; [| exact Hf]. apply List.in_map.
        apply list_elem_of_In. eapply list_elem_of_lookup_2. exact H. }
      rewrite Hy in Hin. destruct Hin.
    + destruct (IH i H Hf Hy) as [-> Hd]. rewrite Hd. auto.
Qed.

Ltac view :=
  unfold teardown_tasks, release_trace, teardown_errors in *; cbn;
  rewrite ?List.map_app, ?List.filter_app, ?List.length_app; cbn.

Lemma slept_protocol s e k c :
  tearingDown s = true -> teardown_tasks s = [] ->
  release_trace s = take 1 (release_sequence c) ->
  protocol (st (fst (teardown_slept k {| st := s; env := e |}))).
Proof.
  intros Htd Ht Hr. symex. destruct (uidInfo s) eqn:Hu; cbn.
  - apply (protocol_cleaning _ k {| ctx_uid := n; ctx_uuid := uuid s |}); view;
      rewrite ?Ht, ?Hr; auto; congruence.
  - destruct k; cbn; apply (protocol_aborted _ 1 c); view; rewrite ?Ht, ?Hr; auto; lia.
Qed.

Lemma cleaned_protocol s e k c o :
  tearingDown s = true -> teardown_tasks s = [] ->
  release_trace s = take 2 (release_sequence c) -> uidInfo s <> None ->
  protocol (st (fst (teardown_cleaned k o {| st := s; env := e |}))).
Proof.
  intros Htd Ht Hr Hu. symex. destruct o as [v | x]; cbn.
  - destruct (uidInfo s) eqn:Hu'; [| congruence]. cbn.
    apply (protocol_returning _ k c); view; rewrite ?Ht, ?Hr; auto.
  - destruct k; cbn; apply (protocol_aborted _ 2 c); view; rewrite ?Ht, ?Hr; auto; lia.
Qed.

Lemma returned_protocol s e k c o :
  tearingDown s = true -> teardown_tasks s = [] ->
  release_trace s = take 3 (release_sequence c) ->
  protocol (st (fst (teardown_returned k o {| st := s; env := e |}))).
Proof.
  intros Htd Ht Hr. symex. destruct o as [v | x]; cbn.
  - destruct k; cbn; apply (protocol_closed _ c); view; rewrite ?Ht, ?Hr; auto.
  - destruct k; cbn; apply (protocol_aborted _ 3 c); view; rewrite ?Ht, ?Hr; auto; lia.
Qed.

Lemma protocol_turn ev e s : protocol s -> protocol (turn ev e s).
Proof.
  intros H. destruct ev as [c p | i o]; unfold turn; [| unfold step].
  - apply (protocol_orderly {| st := s; env := e |}); [exact H |].
    apply sat_fire; [exact _ | intros h; apply orderly_handler].
  - unfold bind at 1. unfold gets at 1. cbn [st].
    destruct (pool s !! i) as [[w t] |] eqn:Hi; [| exact H].
    unfold bind, modify. cbn [st env fst].
    set (s1 := set_pool (delete i (pool s)) s).
    destruct (is_teardown_task t) eqn:Ht.
    + assert (Hv : tearingDown s1 = tearingDown s /\ release_trace s1 = release_trace s /\
                   teardown_errors s1 = teardown_errors s /\ uidInfo s1 = uidInfo s)
        by (repeat split).
      destruct Hv as (V1 & V2 & V3 & V4).
      assert (Hdel : forall t', teardown_tasks s = [t'] -> t = t' /\ teardown_tasks s1 = []).
      { intros t' Ht'. unfold teardown_tasks in *. cbn.
        apply (filter_delete_single is_teardown_task snd (pool s) i (w, t) t' Hi Ht Ht'). }
      assert (Hnone : teardown_tasks s <> []).
      { unfold teardown_tasks. intros Hn.
        assert (In t (List.filter is_teardown_task (map snd (pool s)))) as Hin.
        { apply List.filter_In. split; [| exact Ht].
          change t with (snd (w, t)). apply List.in_map.
          apply list_elem_of_In. eapply list_elem_of_lookup_2. exact Hi. }
        rewrite Hn in Hin. destruct Hin. }
      destruct H as [? Hn | k c ? Hk ? | k c ? Hk ? ? | k c ? Hk ? | n c ? Hn | c ? Hn];
        try congruence;
        destruct (Hdel _ Hk) as [-> Hd]; cbn [resume].
      * apply (slept_protocol s1 e k c); congruence.
      * apply (cleaned_protocol s1 e k c); congruence.
      * apply (returned_protocol s1 e k c); congruence.
    + apply (protocol_orderly {| st := s1; env := e |}).
      * apply (protocol_neutral s); [exact H |].
        unfold td_neutral, teardown_tasks. cbn.
        rewrite (filter_delete_other is_teardown_task snd (pool s) i (w, t) Hi Ht).
        repeat split; auto.
      * apply orderly_resume. exact Ht.
Qed.

Lemma protocol_start cfg id : protocol (start cfg id).
Proof. apply protocol_idle; reflexivity. Qed.

Lemma protocol_exec evs : forall s, protocol s -> protocol (exec evs s).
Proof.
  induction evs as [| [ev e] rest IH]; intros s H; simpl; [exact H |].
  apply IH, protocol_turn, H.
Qed.

Lemma protocol_clean_end s :
  protocol s -> tearingDown s = true -> teardown_pending s = false ->
  teardown_errors s = 0 -> exists c, release_trace s = release_sequence c.
Proof.
  intros H Htd Hp He.
  assert (Hq : forall t, teardown_tasks s = [t] -> teardown_pending s = true).
  { intros t Ht. unfold teardown_pending, teardown_tasks in *.
    apply existsb_exists. exists t.
    assert (In t (List.filter is_teardown_task (map snd (pool s)))) as Hin
      by (rewrite Ht; left; reflexivity).
    apply List.filter_In in Hin. exact Hin. }
  destruct H as [? | k c ? Hk | k c ? Hk | k c ? Hk | n c | c]; try congruence;
    try (rewrite (Hq _ Hk) in Hp; discriminate); try lia.
  exists c. assumption.
Qed.

Lemma teardown_again_is_a_no_op s e :
  tearingDown s = true ->
  teardown KDone {| st := s; env := e |} = ({| st := s; env := e |}, Val tt).
Proof. intros H. unfold teardown, try_catch, bind, gets. cbn [st]. rewrite H. reflexivity. Qed.

(** The whole sequence does run: the sample session, closed by its
    client, with every step succeeding. *)
Lemma clean_teardown_releases_everything :
  let s := exec [calm (Fire ChWsClose PNone); calm (Fire ChWsClose PNone);
                 calm (Settle 0 (resolved 0)); calm (Settle 0 (resolved 0));
                 calm (Settle 0 (resolved 0))] ready_python in
  release_trace s = release_sequence {| ctx_uid := 1000; ctx_uuid := "s1" |} /\
  teardown_pending s = false /\ teardown_errors s = 0.
Proof. vm_compute. repeat split; reflexivity. Qed.

(** * A failed setup never reaches Ready *)

#[local] Instance never_ready_stable : Stable never_ready.
Proof. split; unfold never_ready; auto. Qed.

Ltac never_ready_leaf :=
  try discriminate;
  let H := fresh in
  unfold never_ready, abandoned, listening, setting_up; cbn; intros [H ?];
  rewrite ?List.map_app, ?List.existsb_app; cbn;
  repeat match goal with Hk : is_setup_kont _ = false |- _ => rewrite Hk; clear Hk end;
  rewrite ?orb_false_r; auto.

Lemma never_ready_finish k : is_setup_kont k = false -> sat never_ready (finish k).
Proof. intros Hk. sat_auto fail never_ready_leaf. Qed.

Ltac never_ready_known0 :=
  idtac;
  lazymatch goal with
  | |- sat _ (finish _) => apply never_ready_finish; assumption
  end.

Lemma never_ready_teardown k : is_setup_kont k = false -> sat never_ready (teardown k).
Proof. intros Hk. sat_auto never_ready_known0 never_ready_leaf. Qed.

Lemma never_ready_teardown_catch e k :
  is_setup_kont k = false -> sat never_ready (teardown_catch e k).
Proof. intros Hk. sat_auto never_ready_known0 never_ready_leaf. Qed.

Ltac never_ready_known1 :=
  idtac;
  lazymatch goal with
  | |- sat _ (finish _) => apply never_ready_finish; assumption
  | |- sat _ (teardown _) => apply never_ready_teardown; assumption
  end.

Lemma never_ready_send msg k : is_setup_kont k = false -> sat never_ready (send msg k).
Proof.
  intros Hk.
  sat_auto never_ready_known1 never_ready_leaf.
Qed.

Ltac never_ready_known :=
  idtac;
  lazymatch goal with
  | |- sat _ (finish _) => apply never_ready_finish
  | |- sat _ (teardown _) => apply never_ready_teardown
  | |- sat _ (teardown_catch _ _) => apply never_ready_teardown_catch
  | |- sat _ (send _ _) => apply never_ready_send
  end;
  first [ assumption | reflexivity ].

Lemma never_ready_handler h p : sat never_ready (handler h p).
Proof. destruct h, p; simpl; sat_auto never_ready_known never_ready_leaf. Qed.

Lemma never_ready_resume t o : is_setup_task t = false -> sat never_ready (resume t o).
Proof.
  destruct t; simpl; try discriminate; intros Hk;
    sat_auto never_ready_known never_ready_leaf.
Qed.

Lemma existsb_delete {A B} (f : B -> bool) (g : A -> B) (l : list A) i :
  existsb f (map g l) = false -> existsb f (map g (delete i l)) = false.
Proof.
  revert i. induction l as [| a l IH]; intros [| i] H; simpl in *; auto.
  - apply orb_false_elim in H. tauto.
  - apply orb_false_elim in H. destruct H as [-> H]. simpl. auto.
Qed.

Lemma existsb_lookup {A B} (f : B -> bool) (g : A -> B) (l : list A) i x :
  existsb f (map g l) = false -> l !! i = Some x -> f (g x) = false.
Proof.
  revert i. induction l as [| a l IH]; intros [| i] H Hi; simpl in *; try discriminate;
    apply orb_false_elim in H; destruct H as [Ha H].
  - injection Hi as <-. exact Ha.
  - eauto.
Qed.

Lemma never_ready_step ev : sat never_ready (step ev).
Proof.
  destruct ev as [c p | i o]; [| unfold step].
  - apply sat_fire; [exact _ | intros h; apply never_ready_handler].
  - intros [s e] [Hl Hs]. unfold bind at 1. unfold gets at 1. cbn [st].
    destruct (pool s !! i) as [[w t] |] eqn:Hi; [| split; assumption].
    unfold bind, modify. cbn [st env fst].
    apply (never_ready_resume t (outcome_for w o)).
    + apply (existsb_lookup is_setup_task snd (pool s) i (w, t) Hs Hi).
    + split; [exact Hl |]. unfold setting_up. cbn. apply existsb_delete. exact Hs.
Qed.

Lemma abandoned_exec evs : forall s, abandoned s -> abandoned (exec evs s).
Proof.
  induction evs as [| [ev e] rest IH]; intros s H; simpl; [exact H |].
  apply IH. apply (never_ready_step ev {| st := s; env := e |} H).
Qed.

Lemma lease_failure cfg id e env :
  let s1 := turn (Settle 0 (rejected e)) env (start cfg id) in
  In (LSetupError e) (logs s1) /\ tearingDown s1 = true /\ uidInfo s1 = None /\
  abandoned s1 /\ (ws_faults env = [] -> sent s1 = [terminalClear]).
Proof.
  destruct env as [ws ch pt rp ps].
  destruct ws as [| [x |] r]; vm_compute; repeat split; auto; discriminate.
Qed.

Lemma privileged_setup_failure cfg id u e env1 env2 :
  let s2 := exec [(Settle 0 (resolved u), env1); (Settle 0 (rejected e), env2)] (start cfg id) in
  In (LSetupError e) (logs s2) /\ tearingDown s2 = true /\ uidInfo s2 = Some u /\
  abandoned s2 /\ (ws_faults env2 = [] -> sent s2 = [terminalClear]).
Proof.
  destruct env1 as [ws1 ch1 pt1 rp1 ps1], env2 as [ws ch pt rp ps].
  destruct ws as [| [x |] r]; vm_compute; repeat split; auto; discriminate.
Qed.

(** * Command line and code of a Run-Code request *)

Lemma append_empty (s : string) : s +:+ "" = s.
Proof.
  induction s as [| c s IH]; [reflexivity |].
  change (String c (s +:+ "") = String c s). rewrite IH. reflexivity.
Qed.

Lemma nonempty_false (s : string) : nonempty s = false -> s = "".
Proof.
  unfold nonempty. intros H. apply negb_false_iff in H.
  apply String.eqb_eq in H. exact H.
Qed.

Lemma nonempty_true (s : string) : s <> "" -> nonempty s = true.
Proof.
  unfold nonempty. intros H. apply negb_true_iff. apply String.eqb_neq. exact H.
Qed.

(** C5, as stated, fails: an empty string is code that is supplied, yet
    the session starts the REPL and not the run command. *)
Lemma empty_code_starts_the_repl :
  ~ (forall cfg code,
       cmdline_of cfg code = spec_cmdline cfg code /\
       deployed_code cfg code = spec_deployed cfg code).
Proof.
  intros H. destruct (H python (Some "")) as [Hc _].
  vm_compute in Hc. discriminate Hc.
Qed.

(** C5, amended: the run command (wrapped by a non-empty compile command)
    serves code that is supplied and not empty; any other request gets the
    REPL when a non-empty one is configured and the message command
    otherwise.  Absent code defaults to the empty text or the template,
    and the suffix is appended to every deployed text that is not empty.
    The resolution agrees with the specification's wording whenever
    neither the code nor a configured command is the empty string. *)
Theorem resolution_of_command_line_and_code (cfg : LangConfig) (code : option string) :
  (present code = true ->
   cmdline_of cfg code =
   if present (Lang.compile cfg)
   then "( " +:+ text (Lang.compile cfg) +:+ " ) && ( " +:+ Lang.run cfg +:+ " )"
   else Lang.run cfg) /\
  (present code = false ->
   cmdline_of cfg code =
   if present (Lang.repl cfg) then text (Lang.repl cfg)
   else "echo '" +:+ Lang.name cfg +:+ " has no REPL, press Run to see it in action'") /\
  (code = None ->
   default_code cfg code = if Lang.createEmpty cfg then "" else Lang.template cfg) /\
  (default_code cfg code <> "" ->
   deployed_code cfg code = default_code cfg code +:+ text (Lang.suffix cfg)) /\
  (default_code cfg code = "" -> deployed_code cfg code = "") /\
  (code <> Some "" -> Lang.compile cfg <> Some "" -> Lang.repl cfg <> Some "" ->
   cmdline_of cfg code = spec_cmdline cfg code) /\
  (default_code cfg code <> "" -> deployed_code cfg code = spec_deployed cfg code).
Proof.
  repeat split.
  - intros H. unfold cmdline_of. rewrite H. reflexivity.
  - intros H. unfold cmdline_of. rewrite H. reflexivity.
  - intros ->. reflexivity.
  - intros H. unfold deployed_code, present, text. rewrite (nonempty_true _ H).
    destruct (Lang.suffix cfg) as [sfx |]; cbn [andb].
    + destruct (nonempty sfx) eqn:E; [reflexivity |].
      rewrite (nonempty_false _ E), append_empty. reflexivity.
    + rewrite append_empty. reflexivity.
  - intros H. unfold deployed_code. rewrite H. reflexivity.
  - intros Hc Hk Hr. unfold cmdline_of, spec_cmdline, present, text.
    destruct code as [c |].
    + rewrite nonempty_true by congruence.
      destruct (Lang.compile cfg) as [k |]; [| reflexivity].
      rewrite nonempty_true by congruence. reflexivity.
    + destruct (Lang.repl cfg) as [r |]; [| reflexivity].
      rewrite nonempty_true by congruence. reflexivity.
  - intros H. unfold deployed_code, spec_deployed, present, text.
    fold (default_code cfg code). rewrite (nonempty_true _ H).
    destruct (Lang.suffix cfg) as [sfx |]; cbn [andb]; [| reflexivity].
    destruct (nonempty sfx) eqn:E; [reflexivity |].
    rewrite (nonempty_false _ E), append_empty. reflexivity.
Qed.

Lemma resolution_of_command_line_and_code_witness :
  present (Some "print(1+1)") = true /\
  cmdline_of python (Some "print(1+1)") = "run-interpreter main.py".
Proof.
  split; [reflexivity |].
  apply (proj1 (resolution_of_command_line_and_code python (Some "print(1+1)"))).
  reflexivity.
Defined.

(** [runCode] writes and starts what the two functions resolve: here for
    a request with code on an idle Ready session without a terminal, an
    entry point at the top of the home directory and no ghci quirk. *)
Lemma runCode_uses_the_resolution s u code :
  handlers_on ChWsMessage s = [HReceive] -> tearingDown s = false -> pool s = [] ->
  term s = None -> uidInfo s = Some u ->
  includes_char "/" (Lang.main (config s)) = false -> ghci_hack (config s) = false ->
  let ctx := {| ctx_uid := u; ctx_uuid := uuid s |} in
  let s' := exec [calm (Fire ChWsMessage (PFrame (Some (msg_runCode code))));
                  calm (Settle 0 (resolved 0))] s in
  effects s' = effects s ++
    [ERun (PrivilegedSpawn ctx (CatInto ("/tmp/riju/" +:+ uuid s) (Lang.main (config s))))
          (Some (deployed_code (config s) (Some code)))] /\
  ptys s' = ptys s ++
    [{| pty_cmd := PrivilegedSpawn ctx (Bash (cmdline_of (config s) (Some code)));
        pid := 0; live := true |}] /\
  term s' = Some (length (ptys s)).
Proof.
  intros Hr Htd Hp Ht Hu Hm Hg ctx s'. unfold s', exec, calm.
  rewrite turn_message by exact Hr.
  assert (Hd : discriminant (msg_runCode code) = Some (JStr "runCode")) by reflexivity.
  assert (Hty : is_type ty_string (prop (msg_runCode code) "code") = true) by reflexivity.
  assert (Hc : as_string (prop (msg_runCode code) "code") = code) by reflexivity.
  drive. rewrite Hc. unfold turn, step. symex. rewrite Hp. cbn.
  drive. repeat split; reflexivity.
Qed.


(** * Reports of the daemon's exit *)

(** C3 fails on the code: the loop over the two output streams of the
    daemon registers the exit callback once per stream, so one exit of
    the daemon is reported by two [serviceFailed] frames; otherwise the
    session is as it was. *)
Theorem daemon_exit_is_reported_twice :
  (forall m,
     handlers_on ChDaemonExit
       (st (fst (daemon_streams [ChDaemonStdout; ChDaemonStderr] m))) =
     handlers_on ChDaemonExit (st m) ++ [HServiceExit "daemon"; HServiceExit "daemon"]) /\
  handlers_on ChLspExit ready_python = [HServiceExit "lsp"] /\
  turn (Fire ChDaemonExit (PExit None (Some "SIGKILL"))) quiet ready_python =
  set_sent (sent ready_python ++
            [serviceFailed "daemon" "Exited with status SIGKILL";
             serviceFailed "daemon" "Exited with status SIGKILL"]) ready_python.
Proof.
  split; [| split; vm_compute; reflexivity].
  intros [s e]. unfold handlers_on. cbn.
  rewrite <- !app_assoc. rewrite !List.filter_app, !List.map_app. cbn.
  reflexivity.
Qed.

(** * Frames that are not what they should be *)

(** What [receive] does set aside it only logs, provided the frame can
    be printed. *)
Lemma malformed_frame_is_only_logged s e raw :
  handlers_on ChWsMessage s = [HReceive] -> tearingDown s = false ->
  malformed raw = true ->
  (forall msg, raw = Some msg -> printable msg = true) ->
  exists l,
    turn (Fire ChWsMessage (PFrame raw)) e s = set_logs (logs s ++ [l]) s /\
    (l = LParseFailed \/ exists msg, l = LMalformed msg).
Proof.
  intros Hr Htd Hm Hp. rewrite turn_message by exact Hr.
  destruct raw as [msg |].
  - specialize (Hp msg eq_refl). unfold malformed in Hm.
    unfold receive, try_catch, bind, gets. cbn [st]. rewrite Htd.
    assert (Hlog : logBadMessage msg {| st := s; env := e |} =
                   ({| st := set_logs (logs s ++ [LMalformed msg]) s; env := e |}, Val tt)).
    { unfold logBadMessage. rewrite Hp. reflexivity. }
    destruct (discriminant msg) as [[| | | tag | |] |];
      try (rewrite Hlog; eexists; split; [reflexivity | right; eexists; reflexivity]).
    destruct (tag =? "terminalInput")%string.
    { unfold case_terminalInput. rewrite Hm. rewrite Hlog.
      eexists; split; [reflexivity | right; eexists; reflexivity]. }
    destruct (tag =? "runCode")%string.
    { unfold case_runCode. rewrite Hm. rewrite Hlog.
      eexists; split; [reflexivity | right; eexists; reflexivity]. }
    destruct (tag =? "lspInput")%string.
    { unfold case_lspInput. rewrite Hm. rewrite Hlog.
      eexists; split; [reflexivity | right; eexists; reflexivity]. }
    rewrite Hlog. eexists; split; [reflexivity | right; eexists; reflexivity].
  - unfold receive, try_catch, bind, gets. cbn [st]. rewrite Htd. cbn.
    eexists; split; [reflexivity | left; reflexivity].
Qed.

(** A frame with an own property "toString" cannot be printed:
    [logBadMessage] throws, and the client gets the report of an error. *)
Lemma unprintable_frame_is_answered :
  let raw := Some (JObj [("event", JStr "noSuchEvent"); ("toString", JNum 1)]) in
  let s1 := turn (Fire ChWsMessage (PFrame raw)) quiet ready_python in
  malformed raw = true /\
  sent (checkpoint (length (pool s1)) s1) =
  sent ready_python ++
  [terminalClear;
   terminalOutput (diagnostic "TypeError: Cannot convert object to primitive value")].
Proof. vm_compute. split; reflexivity. Qed.

(** C4 fails on the code: [typeof null] is "object" and the guard [!msg]
    looks at the message, not at its input, so an [lspInput] frame whose
    input is [null] is written to the language server and nothing is
    logged. *)
Theorem null_lsp_input_reaches_the_server :
  malformed (Some (msg_lspInput JNull)) = false /\
  turn (Fire ChWsMessage (PFrame (Some (msg_lspInput JNull)))) quiet ready_python =
  set_effects (effects ready_python ++ [ELspWrite JNull]) ready_python.
Proof. split; vm_compute; reflexivity. Qed.

(** * The report of a setup failure *)

(** C10 fails on the code: [setup] does not await [sendError] before it
    calls [teardown], so the flag is set when [sendError] resumes and its
    second frame is dropped.  Whether the uid cannot be borrowed or the
    privileged setup fails, all that the client ever receives is the
    [terminalClear]; the [terminalOutput] with the error never follows. *)
Theorem setup_failure_report_is_cut_short (cfg : LangConfig) (id : string) (e : Err)
    (evs : list (Event * Env)) :
  sent (exec evs (turn (Settle 0 (rejected e)) quiet (start cfg id))) = [terminalClear] /\
  forall u,
    sent (exec evs (exec [calm (Settle 0 (resolved u)); calm (Settle 0 (rejected e))]
                         (start cfg id))) = [terminalClear].
Proof.
  split; [| intros u].
  - destruct (frozen_exec evs (turn (Settle 0 (rejected e)) quiet (start cfg id))) as [_ H].
    + reflexivity.
    + rewrite H. reflexivity.
  - destruct (frozen_exec evs (exec [calm (Settle 0 (resolved u)); calm (Settle 0 (rejected e))]
                                    (start cfg id))) as [_ H].
    + reflexivity.
    + rewrite H. reflexivity.
Qed.

(** * Counterexamples to the claims on teardown and setup *)

(** C1, as stated, fails: the websocket closes twice and errs once, the
    cleanup command fails, and teardown ends without the uid being
    returned or the websocket closed. *)
Lemma failed_cleanup_skips_the_release :
  let s := exec [calm (Fire ChWsClose PNone);
                 calm (Fire ChWsClose PNone);
                 calm (Fire ChWsError (PError "Error: socket hang up"));
                 calm (Settle 0 (resolved 0));
                 calm (Settle 0 (rejected "Error: cleanup failed"))] ready_python in
  tearingDown s = true /\ teardown_pending s = false /\
  ~ In EReturnUID (effects s) /\ ~ In EWsTerminate (effects s).
Proof.
  vm_compute. repeat split; try reflexivity; intros H;
    repeat (destruct H as [H | H]; [discriminate H |]); exact H.
Qed.

(** C6, as stated, fails: the first write of the code fails, [runCode]
    reports it and returns, and [setup] goes on to listen: the session is
    Ready, not torn down, and keeps its uid; the client has received the
    diagnostic of the failure. *)
Lemma failed_first_deploy_still_becomes_ready :
  let s := exec [calm (Settle 0 (resolved 1000));
                 calm (Settle 0 (resolved 0));
                 calm (Settle 0 (rejected "Error: write failed"));
                 calm (Settle 0 (resolved 0));
                 calm (Settle 0 (resolved 0))] (start python "s1") in
  In (LRunError "Error: write failed") (logs s) /\
  listening s = true /\ tearingDown s = false /\ release_trace s = [] /\
  sent s = [terminalClear; terminalClear;
            terminalOutput (diagnostic "Error: write failed");
            lspStarted "/tmp/riju/s1"].
Proof. vm_compute. repeat split; auto. Qed.

(** * Setup and Run-Code when nothing fails *)

Lemma exec_cons ev e rest s : exec ((ev, e) :: rest) s = exec rest (turn ev e s).
Proof. reflexivity. Qed.

Lemma turn_settle s e o w t q :
  pool s = (w, t) :: q ->
  turn (Settle 0 o) e s = st (fst (resume t (outcome_for w o) {| st := set_pool q s; env := e |})).
Proof.
  intros H. unfold turn, step, bind, gets, modify. cbn [st env]. rewrite H. reflexivity.
Qed.

Lemma turn_idle s e i o : pool s = [] -> turn (Settle i o) e s = s.
Proof.
  intros H. unfold turn, step, bind, gets. cbn [st env]. rewrite H. reflexivity.
Qed.

Lemma settles_idle n : forall s, pool s = [] -> exec (settles n) s = s.
Proof.
  induction n as [| n IH]; intros s H; [reflexivity |].
  unfold settles, calm. cbn [repeat]. rewrite exec_cons, turn_idle by exact H. apply IH, H.
Qed.

Lemma St_ext (a b : St) :
  config a = config b -> uuid a = uuid b -> tearingDown a = tearingDown b ->
  uidInfo a = uidInfo b -> term a = term b -> lsp a = lsp b -> daemon a = daemon b ->
  allSessions a = allSessions b -> ptys a = ptys b -> children a = children b ->
  listeners a = listeners b -> pool a = pool b -> sent a = sent b -> logs a = logs b ->
  effects a = effects b -> a = b.
Proof. destruct a, b. cbn. intros. subst. reflexivity. Qed.

Ltac refold :=
  repeat match goal with
  | s : St |- _ =>
      progress (fold (config s) (uuid s) (tearingDown s) (uidInfo s) (term s) (lsp s)
                  (daemon s) (allSessions s) (ptys s) (children s) (listeners s) (pool s)
                  (sent s) (logs s) (effects s))
  end.

(** A field of a state built by updates, read without unfolding the
    state itself. *)
Ltac read_field :=
  lazy beta iota zeta delta
    [config uuid tearingDown uidInfo term lsp daemon allSessions ptys children
     listeners pool sent logs effects
     set_tearingDown set_uidInfo set_term set_lsp set_daemon set_allSessions
     set_ptys set_children set_listeners set_pool set_sent set_logs set_effects
     deployed waiting_for returning spawned with_daemon with_lsp with_ws
     daemon_wiring lsp_wiring ws_wiring blank];
  refold;
  rewrite <- ?app_assoc, ?app_nil_r; cbn [app length].

Ltac same_result := f_equal; f_equal; apply St_ext; read_field; reflexivity.

Section Segments.
Variables (cfg : LangConfig) (id : string) (u : nat).
Let ctx : Context := {| ctx_uid := u; ctx_uuid := id |}.
Let home : string := "/tmp/riju/" +:+ id.

Lemma write_goes_well s code cmdline k :
  sound cfg id u s ->
  runCode_write code cmdline k {| st := s; env := quiet |} =
  ({| st := waiting_for (TRunCodeWritten code cmdline k)
              (PrivilegedSpawn ctx (CatInto home (Lang.main cfg))) (Some code) s;
      env := quiet |}, Val tt).
Proof. intros (Hc & Hi & Hu & Htd). symex. rewrite Hu. cbn. rewrite Hc, Hi. reflexivity. Qed.

Lemma spawn_goes_well s cmdline k :
  sound cfg id u s ->
  runCode_spawn cmdline k {| st := s; env := quiet |} =
  ({| st := returning k (spawned ctx cmdline s); env := quiet |}, Val tt).
Proof.
  intros (Hc & Hi & Hu & Htd). symex. rewrite Hu. cbn. rewrite Hi. destruct k; reflexivity.
Qed.

Lemma hacks_go_well s code cmdline k :
  sound cfg id u s ->
  runCode_hacks code cmdline k {| st := s; env := quiet |} =
  ({| st :=
        if ghci_hack cfg then
          if nonempty code
          then waiting_for (TRunCodeHacked cmdline k)
                 (PrivilegedSpawn ctx (CatTo (home +:+ "/.ghci")))
                 (Some (":load Main" +:+ LF +:+ "main" +:+ LF)) s
          else waiting_for (TRunCodeHacked cmdline k)
                 (PrivilegedSpawn ctx (RmF (home +:+ "/.ghci"))) None s
        else returning k (spawned ctx cmdline s);
      env := quiet |}, Val tt).
Proof.
  intros Hs. pose proof Hs as (Hc & Hi & Hu & Htd).
  unfold runCode_hacks, bind at 1 2, gets at 1, homedir, gets at 1. cbn [st]. rewrite Hc.
  destruct (ghci_hack cfg); [| apply spawn_goes_well, Hs].
  destruct (nonempty code); symex; rewrite Hu; cbn; rewrite Hi; reflexivity.
Qed.

Lemma deploy_goes_well s code k :
  sound cfg id u s ->
  let s1 := set_sent (sent s ++ [terminalClear]) s in
  runCode_deploy code k {| st := s; env := quiet |} =
  ({| st :=
        if includes_char "/" (Lang.main cfg)
        then waiting_for (TRunCodeMkdir (deployed_code cfg code) (cmdline_of cfg code) k)
               (PrivilegedSpawn ctx (MkdirP (home +:+ "/" +:+ Lang.main cfg))) None s1
        else waiting_for (TRunCodeWritten (deployed_code cfg code) (cmdline_of cfg code) k)
               (PrivilegedSpawn ctx (CatInto home (Lang.main cfg)))
               (Some (deployed_code cfg code)) s1;
      env := quiet |}, Val tt).
Proof.
  intros Hs s1. pose proof Hs as (Hc & Hi & Hu & Htd).
  unfold runCode_deploy, bind at 1, gets at 1. cbn [st].
  unfold bind at 1, send, try_catch, bind at 1, gets at 1. cbn [st]. rewrite Htd, Hc.
  cbn [ws_send bind next_fault ws_faults quiet env st modify finish ret].
  unfold bind at 1, homedir, gets at 1. cbn [st].
  destruct (includes_char "/" (Lang.main cfg)).
  - symex. rewrite Hu. cbn. rewrite Hi. reflexivity.
  - apply (write_goes_well s1). exact Hs.
Qed.

Lemma retire_goes_well s :
  sound cfg id u s ->
  runCode_retire {| st := s; env := quiet |} = ({| st := retired ctx s; env := quiet |}, Val tt).
Proof.
  intros (Hc & Hi & Hu & Htd). unfold runCode_retire, retired, bind at 1, gets at 1. cbn [st].
  destruct (term s) as [h |]; [| reflexivity].
  symex. rewrite Hu. cbn. rewrite Hi. reflexivity.
Qed.

Lemma daemon_goes_well s :
  sound cfg id u s ->
  setup_daemon {| st := s; env := quiet |} =
  ({| st := if present (Lang.daemon cfg) then with_daemon ctx s else s; env := quiet |}, Val tt).
Proof.
  intros (Hc & Hi & Hu & Htd). unfold setup_daemon, bind at 1, gets at 1. cbn [st]. rewrite Hc.
  destruct (present (Lang.daemon cfg)); [| reflexivity].
  symex. rewrite Hu. cbn. rewrite Hi.
  f_equal; f_equal; apply St_ext; read_field; rewrite ?Hc; reflexivity.
Qed.

Lemma lsp_goes_well s :
  sound cfg id u s ->
  setup_lsp {| st := s; env := quiet |} = ({| st := with_lsp ctx s; env := quiet |}, Val tt).
Proof.
  intros (Hc & Hi & Hu & Htd). symex. rewrite Hu. cbn. rewrite Htd. cbn. rewrite Hc, Hi.
  f_equal; f_equal; apply St_ext; read_field; rewrite ?Hc, ?Hi; reflexivity.
Qed.

Lemma listen_goes_well s e :
  setup_listen {| st := s; env := e |} = ({| st := with_ws s; env := e |}, Val tt).
Proof. symex. same_result. Qed.

Lemma services_go_well s :
  sound cfg id u s ->
  let s1 := if present (Lang.daemon cfg) then with_daemon ctx s else s in
  setup_services {| st := s; env := quiet |} =
  ({| st := if present (Lang.lsp cfg) then
              if present (Lang.lspSetup cfg)
              then waiting_for TSetupLspSetup
                     (PrivilegedSpawn ctx (Bash (text (Lang.lspSetup cfg)))) None s1
              else with_lsp ctx s1
            else with_ws s1;
      env := quiet |}, Val tt).
Proof.
  intros Hs s1.
  unfold setup_services, try_catch, bind at 1. rewrite (daemon_goes_well s Hs).
  fold s1. cbv beta iota.
  assert (Hs1 : sound cfg id u s1) by (unfold s1; destruct (present _); exact Hs).
  clearbody s1. pose proof Hs1 as (Hc & Hi & Hu & Htd).
  unfold bind at 1, gets at 1. cbn [st]. rewrite Hc.
  destruct (present (Lang.lsp cfg)).
  - destruct (present (Lang.lspSetup cfg)).
    + symex. rewrite Hu. cbn. rewrite Hi. reflexivity.
    + rewrite (lsp_goes_well s1 Hs1). reflexivity.
  - rewrite listen_goes_well. reflexivity.
Qed.

Ltac resume_next Hp :=
  rewrite exec_cons;
  erewrite turn_settle
    by (cbn [waiting_for returning set_pool set_effects set_sent pool]; rewrite ?Hp;
        reflexivity);
  cbn [resume outcome_for];
  unfold runCode_mkdir, runCode_written, runCode_hacked, setup_lspSetup, setup_privileged,
    try_catch, bind at 1, settled, ret;
  cbv beta iota.

(** A deployment that began with an empty slot and an empty pool runs to
    its end. *)
Lemma deploy_completes s code k rest :
  sound cfg id u s -> pool s = [] ->
  exec (settles (deploy_turns cfg) ++ rest)
       (st (fst (runCode_deploy code k {| st := s; env := quiet |}))) =
  exec rest (deployed ctx code k s).
Proof.
  intros Hs Hp. pose proof Hs as (Hc & Hi & Hu & Htd).
  rewrite (deploy_goes_well s code k Hs). cbn [fst st].
  unfold deploy_turns, settles, calm.
  destruct (includes_char "/" (Lang.main cfg)) eqn:Es; cbn [Nat.add repeat app].
  1: resume_next Hp; rewrite write_goes_well by (repeat split; read_field; assumption);
    cbn [fst st].
  all: resume_next Hp; rewrite hacks_go_well by (repeat split; read_field; assumption);
    cbn [fst st].
  all: destruct (ghci_hack cfg) eqn:Eg; cbn [repeat app].
  all: try (destruct (nonempty (deployed_code cfg code)) eqn:En;
            resume_next Hp;
            rewrite spawn_goes_well by (repeat split; read_field; assumption);
            cbn [fst st]).
  all: f_equal; destruct k; apply St_ext; unfold deployed, deploy_effects; read_field;
    rewrite ?Hp, ?Hc, ?Es, ?Eg, ?En; cbn [app ctx_uuid]; reflexivity.
Qed.

Lemma sound_retired s : sound cfg id u s -> sound cfg id u (retired ctx s).
Proof. intros H. unfold retired. destruct (term s); exact H. Qed.

Lemma deploy_returns s code k :
  sound cfg id u s ->
  exists s1,
    runCode_deploy code k {| st := s; env := quiet |} = ({| st := s1; env := quiet |}, Val tt).
Proof. intros Hs. rewrite (deploy_goes_well s code k Hs). eexists. reflexivity. Qed.

Lemma runCode_goes_well s code k :
  sound cfg id u s ->
  runCode code k {| st := s; env := quiet |} =
  runCode_deploy code k {| st := retired ctx s; env := quiet |}.
Proof.
  intros Hs. unfold runCode, try_catch, bind at 1. rewrite (retire_goes_well s Hs).
  destruct (deploy_returns (retired ctx s) code k (sound_retired s Hs)) as [s1 H1].
  rewrite H1. reflexivity.
Qed.

Lemma borrowed_goes_well s e :
  setup_borrowed (resolved u) {| st := s; env := e |} =
  ({| st := waiting_for TSetupPrivileged
              (PrivilegedSetup {| ctx_uid := u; ctx_uuid := uuid s |}) None
              (set_logs (logs s ++ [LBorrowed u]) (set_uidInfo (Some u) s));
      env := e |}, Val tt).
Proof. reflexivity. Qed.
End Segments.

Lemma receive_runCode s e msg code :
  tearingDown s = false ->
  discriminant msg = Some (JStr "runCode") -> prop msg "code" = Some (JStr code) ->
  receive (Some msg) {| st := s; env := e |} =
  try_catch (runCode (Some code) KDone) (fun x => log (LHandlerError x) ;; sendError x)
    {| st := s; env := e |}.
Proof.
  intros Htd Hd Hp. unfold receive, try_catch, bind at 1, gets at 1. cbn [st].
  rewrite Htd, Hd. cbn [String.eqb Ascii.eqb Bool.eqb]. unfold case_runCode, is_type.
  rewrite Hp. reflexivity.
Qed.

Lemma settles_split n m : n <= m -> settles m = settles n ++ settles (m - n).
Proof.
  intros H. unfold settles. rewrite <- repeat_app. f_equal. lia.
Qed.

Lemma deploy_turns_bound cfg : deploy_turns cfg <= 3.
Proof.
  unfold deploy_turns. destruct (includes_char _ _), (ghci_hack cfg); cbn; lia.
Qed.

(** X8: a Run-Code request goes through.  In a session that takes
    messages, is not tearing down and has nothing suspended, a frame
    whose event is "runCode" and whose code is the string [code] arrives
    and every command it waits for succeeds.  After at most three
    resumptions the session is as it was except that: the terminal of the
    slot, if any, is dead and a kill command was spawned for its pid;
    [terminalClear] was sent; the commands of the deployment were run in
    order (the directory, the write of the resolved code, the ghci
    quirk); a new live terminal runs the resolved command line, holds the
    slot and has its data callback.  Nothing is left suspended. *)
Theorem run_code_request_goes_through s u msg code :
  handlers_on ChWsMessage s = [HReceive] -> tearingDown s = false -> pool s = [] ->
  uidInfo s = Some u ->
  discriminant msg = Some (JStr "runCode") -> prop msg "code" = Some (JStr code) ->
  let ctx := {| ctx_uid := u; ctx_uuid := uuid s |} in
  exec (calm (Fire ChWsMessage (PFrame (Some msg))) :: settles 3) s =
  deployed ctx (Some code) KDone (retired ctx s).
Proof.
  intros Hr Htd Hp Hu Hd Hc ctx.
  assert (Hs : sound (config s) (uuid s) u s) by (repeat split; assumption).
  assert (Hs' := sound_retired _ _ _ s Hs). fold ctx in Hs'.
  assert (Hp' : pool (retired ctx s) = []) by (unfold retired; destruct (term s); exact Hp).
  unfold calm. rewrite exec_cons, turn_message by exact Hr.
  rewrite (receive_runCode s quiet msg code Htd Hd Hc). unfold try_catch.
  rewrite (runCode_goes_well _ _ _ s (Some code) KDone Hs). fold ctx.
  pose proof (deploy_completes _ _ _ (retired ctx s) (Some code) KDone
                (settles (3 - deploy_turns (config s))) Hs' Hp') as H.
  rewrite <- settles_split in H by apply deploy_turns_bound.
  destruct (deploy_returns _ _ _ (retired ctx s) (Some code) KDone Hs') as [s1 H1].
  rewrite H1 in H |- *. cbn [fst st] in H |- *. rewrite H.
  apply settles_idle. unfold deployed, returning, spawned.
  cbn [pool set_listeners set_term set_ptys set_effects set_sent]. exact Hp'.
Qed.

Lemma run_code_request_goes_through_witness :
  handlers_on ChWsMessage ready_python = [HReceive] /\
  tearingDown ready_python = false /\
  pool ready_python = [] /\
  uidInfo ready_python = Some 1000 /\
  discriminant rerun = Some (JStr "runCode") /\
  prop rerun "code" = Some (JStr "print(1+1)") /\
  let ctx := {| ctx_uid := 1000; ctx_uuid := uuid ready_python |} in
  exec (calm (Fire ChWsMessage (PFrame (Some rerun))) :: settles 3) ready_python =
  deployed ctx (Some "print(1+1)") KDone (retired ctx ready_python).
Proof.
  do 6 (split; [by_evaluation |]).
  apply (run_code_request_goes_through ready_python 1000 rerun "print(1+1)"); by_evaluation.
Defined.

Lemma start_state cfg id :
  start cfg id =
  set_pool [(External, TSetupBorrowed)]
    (set_effects [EBorrowUser] (set_allSessions true (set_logs [LCreating] (blank cfg id)))).
Proof. reflexivity. Qed.

(** X2: setup reaches Ready, for every language.  A session is created,
    the uid [u] is borrowed and every command [setup] waits for succeeds:
    after at most seven resumptions the session is [ready cfg id u].  It
    holds the uid, is registered and not tearing down; one live terminal
    runs the command line resolved for absent code; the daemon and the
    language server are spawned exactly when the language configures a
    non-empty command for them; [terminalClear] and, with a language
    server, [lspStarted] were sent; the callbacks of the websocket are
    registered last; nothing is left suspended. *)
Theorem setup_reaches_ready cfg id u :
  exec (going_well u) (start cfg id) = ready cfg id u.
Proof.
  unfold going_well, calm. rewrite start_state, exec_cons.
  erewrite turn_settle by reflexivity. cbn [resume outcome_for].
  rewrite borrowed_goes_well. cbn [fst st].
  rewrite (settles_split 1 6) by lia. unfold settles at 1, calm. cbn [repeat app Nat.sub].
  match goal with |- exec _ ?s = _ => set (s1 := s) end.
  assert (Hs1 : sound cfg id u s1) by (repeat split).
  assert (Hp1 : pool s1 = [(External, TSetupPrivileged)]) by reflexivity.
  assert (Ht1 : term s1 = None) by reflexivity.
  rewrite exec_cons. erewrite turn_settle by exact Hp1. cbn [resume outcome_for].
  unfold setup_privileged, try_catch, bind at 1, settled, ret. cbv beta iota.
  set (s2 := set_pool [] s1).
  assert (Hs2 : sound cfg id u s2) by (repeat split).
  assert (Hr2 : retired {| ctx_uid := u; ctx_uuid := id |} s2 = s2) by reflexivity.
  rewrite (runCode_goes_well cfg id u s2 None KSetup Hs2), Hr2.
  destruct (deploy_returns cfg id u s2 None KSetup Hs2) as [s3 H3].
  pose proof (deploy_completes cfg id u s2 None KSetup (settles (5 - deploy_turns cfg)) Hs2 eq_refl)
    as H.
  rewrite <- settles_split in H by (pose proof (deploy_turns_bound cfg); lia).
  rewrite H3 in H |- *. cbn [fst st] in H |- *. rewrite H. clear H H3 s3.
  replace (5 - deploy_turns cfg) with (S (S (3 - deploy_turns cfg)))
    by (pose proof (deploy_turns_bound cfg); lia).
  unfold settles, calm. cbn [repeat].
  set (ctx := {| ctx_uid := u; ctx_uuid := id |}).
  rewrite exec_cons. erewrite turn_settle by reflexivity. cbn [resume outcome_for].
  match goal with |- context [setup_services {| st := ?s; env := _ |}] => set (s4 := s) end.
  assert (Hs4 : sound cfg id u s4) by (repeat split).
  rewrite (services_go_well cfg id u s4 Hs4). cbn [fst st]. fold ctx.
  unfold ready. cbv zeta. fold ctx.
  destruct (present (Lang.daemon cfg)) eqn:Ed, (present (Lang.lsp cfg)) eqn:El;
    [ destruct (present (Lang.lspSetup cfg)) eqn:Els |
    | destruct (present (Lang.lspSetup cfg)) eqn:Els | ].
  all: rewrite exec_cons.
  all: first [ erewrite turn_settle by reflexivity; cbn [resume outcome_for];
               unfold setup_lspSetup, try_catch, bind at 1, settled, ret; cbv beta iota;
               rewrite (lsp_goes_well cfg id u) by (repeat split); cbn [fst st]
             | rewrite turn_idle by reflexivity ].
  all: change (repeat (Settle 0 (resolved 0), quiet) (3 - deploy_turns cfg))
         with (settles (3 - deploy_turns cfg)).
  all: rewrite settles_idle by reflexivity.
  all: apply St_ext; subst s4 s2 s1; read_field; cbn [andb]; rewrite ?app_nil_r; reflexivity.
Qed.

(** * A session takes messages only once it is set up *)

#[local] Instance aside_stable : Stable aside.
Proof.
  split.
  - intros m. repeat split; auto.
  - intros a b c (A1 & A2 & A3 & A4) (B1 & B2 & B3 & B4). repeat split; try congruence. auto.
Qed.

Ltac aside_leaf :=
  try discriminate;
  unfold aside, setup_tasks, ws_listeners; cbn;
  rewrite ?List.map_app, ?List.filter_app; cbn;
  repeat match goal with Hk : is_setup_kont _ = false |- _ => rewrite Hk; clear Hk end;
  rewrite ?app_nil_r; repeat split; auto.

Lemma aside_finish k : is_setup_kont k = false -> sat aside (finish k).
Proof. intros Hk. sat_auto fail aside_leaf. Qed.

Ltac aside_known0 :=
  idtac;
  lazymatch goal with
  | |- sat _ (finish _) => apply aside_finish; assumption
  end.

Lemma aside_teardown k : is_setup_kont k = false -> sat aside (teardown k).
Proof. intros Hk. sat_auto aside_known0 aside_leaf. Qed.

Lemma aside_teardown_catch e k : is_setup_kont k = false -> sat aside (teardown_catch e k).
Proof. intros Hk. sat_auto aside_known0 aside_leaf. Qed.

Ltac aside_known1 :=
  idtac;
  lazymatch goal with
  | |- sat _ (finish _) => apply aside_finish; assumption
  | |- sat _ (teardown _) => apply aside_teardown; assumption
  end.

Lemma aside_send msg k : is_setup_kont k = false -> sat aside (send msg k).
Proof. intros Hk. sat_auto aside_known1 aside_leaf. Qed.

Ltac aside_known :=
  idtac;
  lazymatch goal with
  | |- sat _ (finish _) => apply aside_finish
  | |- sat _ (teardown _) => apply aside_teardown
  | |- sat _ (teardown_catch _ _) => apply aside_teardown_catch
  | |- sat _ (send _ _) => apply aside_send
  end;
  first [ assumption | reflexivity ].

Lemma aside_handler h p : sat aside (handler h p).
Proof. destruct h, p; simpl; sat_auto aside_known aside_leaf. Qed.

Lemma aside_resume t o : is_setup_task t = false -> sat aside (resume t o).
Proof.
  destruct t; simpl; try discriminate; intros Hk;
    sat_auto aside_known aside_leaf.
Qed.

Lemma aside_daemon_streams l :
  Forall (fun c => c = ChDaemonStdout \/ c = ChDaemonStderr) l ->
  sat aside (daemon_streams l).
Proof.
  induction 1 as [| c l [-> | ->] _ IH]; simpl; sat_auto ltac:(eassumption) aside_leaf.
Qed.

Lemma aside_setup_catch e : sat aside (setup_catch e).
Proof. sat_auto aside_known aside_leaf. Qed.

Lemma flag_after_teardown k m : tearingDown (st (fst (teardown k m))) = true.
Proof.
  destruct m as [s e]. symex. destruct (tearingDown s) eqn:Htd; destruct k; cbn; auto.
Qed.

Lemma flag_after_setup_catch e m : tearingDown (st (fst (setup_catch e m))) = true.
Proof.
  unfold setup_catch, bind.
  destruct (log (LSetupError e) m) as [m1 [[] | x]] eqn:E1; [| discriminate E1].
  destruct (contained_send terminalClear (KSendError e) m1) as [[] Ha].
  unfold sendError. destruct (send terminalClear (KSendError e) m1) as [m2 r].
  cbn in Ha. subst r. apply flag_after_teardown.
Qed.

Ltac aside_segment :=
  sat_auto
    ltac:(first [ aside_known
                | idtac;
                  lazymatch goal with
                  | |- sat _ (daemon_streams _) =>
                      apply aside_daemon_streams; repeat constructor; auto
                  end ])
    aside_leaf.

#[local] Instance aside_absorbs : Absorbs aside.
Proof. intros a b c. apply stable_trans. Qed.

#[local] Instance handed_on_absorbs : Absorbs handed_on.
Proof.
  intros a b c (A1 & A2 & A3 & A4) ((t & Ht & Hn & B1) & B2 & B3).
  split; [exists t | split]; try congruence. repeat split; congruence.
Qed.

#[local] Instance listening_now_absorbs : Absorbs listening_now.
Proof. intros a b c (A1 & A2 & A3 & A4) (B1 & B2 & B3). repeat split; congruence. Qed.

#[local] Instance either_absorbs (P Q : Mach -> Mach -> Prop) `{!Absorbs P, !Absorbs Q} :
  Absorbs (fun m m' => P m m' \/ Q m m').
Proof. intros a b c H [H' | H']; [left | right]; eapply absorbs; eauto. Qed.

Section Outcome.
Context (P : Mach -> Mach -> Prop) `{!Absorbs P}.

Lemma outcome_throw {A} (e : Err) : outcome P (@throw A e).
Proof. intros m. apply stable_refl. Qed.

Lemma outcome_bind {A B} (c : M A) (f : A -> M B) :
  sat aside c -> (forall a, outcome P (f a)) -> outcome P (bind c f).
Proof.
  intros Hc Hf m. unfold bind. specialize (Hc m).
  destruct (c m) as [m' [a | e]]; cbn in *; [| exact Hc].
  specialize (Hf a m'). destruct (snd (f a m')).
  - eapply absorbs; eauto.
  - eapply stable_trans; eauto.
Qed.

(** [setup] catches what its body throws and gives up. *)
Lemma outcome_try (c : M unit) :
  outcome P c ->
  forall m, let m' := fst (try_catch c setup_catch m) in
            P m m' \/ (aside m m' /\ tearingDown (st m') = true).
Proof.
  intros Hc m. unfold try_catch. specialize (Hc m).
  destruct (c m) as [m1 [a | e]]; cbn in *; [left; exact Hc |].
  right. split; [| apply flag_after_setup_catch].
  eapply stable_trans; [exact Hc | apply aside_setup_catch].
Qed.

Lemma always_bind {A B} (c : M A) (f : A -> M B) :
  sat aside c -> contained c -> (forall a, always P (f a)) -> always P (bind c f).
Proof.
  intros Hc Hv Hf m. unfold bind. specialize (Hc m). destruct (Hv m) as [a Ha].
  destruct (c m) as [m' r]. cbn in *. subst r.
  destruct (Hf a m') as [H1 H2]. split; [eapply absorbs; eauto | exact H2].
Qed.

Lemma always_try {A} (c : M A) (h : Err -> M A) :
  outcome P c -> (forall e, always P (h e)) -> always P (try_catch c h).
Proof.
  intros Hc Hh m. unfold try_catch. specialize (Hc m).
  destruct (c m) as [m1 [a | e]]; cbn in *; [split; [exact Hc | eauto] |].
  destruct (Hh e m1) as [H1 H2]. split; [eapply absorbs; eauto | exact H2].
Qed.
End Outcome.

Lemma handed_on_suspend w t :
  is_setup_step t = true -> t <> TSetupBorrowed ->
  always handed_on (suspend w t).
Proof.
  intros Ht Hn [s e]. split; [| eexists; reflexivity].
  assert (Hs : is_setup_task t = true)
    by (destruct t as [[] | | | | ? ? [] | ? ? [] | ? [] | | |]; try discriminate; reflexivity).
  unfold handed_on, setup_tasks, ws_listeners. cbn.
  rewrite List.map_app, List.filter_app. cbn. rewrite Hs.
  split; [exists t | split]; auto.
Qed.

Lemma always_outcome {A} P (c : M A) : always P c -> outcome P c.
Proof. intros H m. destruct (H m) as [H1 [a H2]]. rewrite H2. exact H1. Qed.

Lemma listening_now_listen : always listening_now setup_listen.
Proof.
  intros [s e]. split; [| eexists; reflexivity].
  unfold listening_now, setup_tasks, ws_listeners. cbn.
  rewrite <- !app_assoc, List.filter_app. cbn. repeat split.
Qed.

(** One step through a segment that may hand on. *)
Ltac outcome_step :=
  lazymatch goal with
  | |- outcome _ (throw _) => apply outcome_throw; exact _
  | |- outcome _ (suspend _ _) =>
      apply always_outcome, handed_on_suspend; [reflexivity | discriminate]
  | |- outcome _ (finish KSetup) =>
      apply always_outcome, handed_on_suspend; [reflexivity | discriminate]
  | |- outcome _ setup_listen => apply always_outcome, listening_now_listen
  | |- outcome _ (bind _ _) => apply outcome_bind; [exact _ | aside_segment | intro]
  | |- outcome _ (if ?b then _ else _) => destruct b eqn:?
  | |- outcome _ (match ?x with _ => _ end) => destruct x eqn:?
  | |- outcome _ ?c => let h := head_of c in unfold h
  end.

Lemma handed_on_spawn cmdline : outcome handed_on (runCode_spawn cmdline KSetup).
Proof. repeat outcome_step. Qed.

Lemma handed_on_write code cmdline : outcome handed_on (runCode_write code cmdline KSetup).
Proof. repeat outcome_step. Qed.

Lemma handed_on_hacks code cmdline : outcome handed_on (runCode_hacks code cmdline KSetup).
Proof. repeat outcome_step. Qed.

Lemma handed_on_deploy code : outcome handed_on (runCode_deploy code KSetup).
Proof. repeat outcome_step. Qed.

Lemma handed_on_catch e : always handed_on (runCode_catch e KSetup).
Proof.
  unfold runCode_catch.
  apply always_bind; [exact _ | aside_segment | contained_auto contained_known | intros _].
  apply always_bind; [exact _ | aside_segment | contained_auto contained_known | intros _].
  apply handed_on_suspend; [reflexivity | discriminate].
Qed.

Lemma handed_on_runCode code : always handed_on (runCode code KSetup).
Proof.
  apply always_try; [exact _ | | intros e; apply handed_on_catch].
  apply outcome_bind; [exact _ | aside_segment | intros _; apply handed_on_deploy].
Qed.

Lemma handed_on_continue (c : M unit) :
  outcome handed_on c -> always handed_on (try_catch c (fun e => runCode_catch e KSetup)).
Proof. intros H. apply always_try; [exact _ | exact H | intros e; apply handed_on_catch]. Qed.

Lemma handed_on_settled (o : Outcome) (c : M unit) :
  outcome handed_on c -> outcome handed_on (settled o ;; c).
Proof. intros H. apply outcome_bind; [exact _ | aside_segment | intros _; exact H]. Qed.

Lemma outcome_weaken {A} (P Q : Mach -> Mach -> Prop) (c : M A) :
  (forall m m', P m m' -> Q m m') -> outcome P c -> outcome Q c.
Proof. intros H Hc m. specialize (Hc m). destruct (snd (c m)); auto. Qed.

Lemma listening_now_lsp : outcome listening_now setup_lsp.
Proof. repeat outcome_step. Qed.

Lemma advance_services : outcome advance
  (setup_daemon ;;
   cfg <- gets config ;;
   if present (Lang.lsp cfg) then
     if present (Lang.lspSetup cfg) then
       cmd <- privilegedSpawn (Bash (text (Lang.lspSetup cfg))) ;;
       run cmd None TSetupLspSetup
     else setup_lsp
   else setup_listen).
Proof.
  apply outcome_bind; [exact _ | aside_segment | intros _].
  apply outcome_bind; [exact _ | aside_segment | intros cfg].
  destruct (present (Lang.lsp cfg)); [destruct (present (Lang.lspSetup cfg)) |].
  - apply (outcome_weaken handed_on); [intros; left; assumption |]. repeat outcome_step.
  - apply (outcome_weaken listening_now); [intros; right; assumption |]. apply listening_now_lsp.
  - apply (outcome_weaken listening_now); [intros; right; assumption |].
    apply always_outcome, listening_now_listen.
Qed.

Lemma lifecycle_aside m m' : lifecycle (st m) -> aside m m' -> lifecycle (st m').
Proof.
  intros H (A1 & A2 & A3 & A4).
  destruct H as [t H1 H2 H3 H4 | H1 H2 H3 | H1 H2 H3].
  - apply (still_setting_up _ t); congruence.
  - apply taking_messages; congruence.
  - apply given_up; [congruence | congruence | auto].
Qed.

Lemma lifecycle_handed_on m m' :
  setup_tasks (st m) = [] -> ws_listeners (st m) = [] -> uidInfo (st m) <> None ->
  handed_on m m' -> lifecycle (st m').
Proof.
  intros H1 H2 H3 ((t & Ht & Hn & B1) & B2 & B3).
  apply (still_setting_up _ t);
    [rewrite B1, H1; reflexivity | assumption | congruence | right; congruence].
Qed.

Lemma lifecycle_listening_now m m' :
  setup_tasks (st m) = [] -> ws_listeners (st m) = [] -> uidInfo (st m) <> None ->
  listening_now m m' -> lifecycle (st m').
Proof.
  intros H1 H2 H3 (B1 & B2 & B3). apply taking_messages; try congruence.
  rewrite B2, H2. reflexivity.
Qed.

Lemma lifecycle_given_up m m' :
  setup_tasks (st m) = [] -> ws_listeners (st m) = [] ->
  aside m m' /\ tearingDown (st m') = true -> lifecycle (st m').
Proof. intros H1 H2 [(B1 & B2 & B3 & B4) Htd]. apply given_up; congruence. Qed.

(** The continuation of [setup] resumes. *)
Lemma lifecycle_resume t o m :
  is_setup_step t = true ->
  setup_tasks (st m) = [] -> ws_listeners (st m) = [] ->
  (t = TSetupBorrowed \/ uidInfo (st m) <> None) ->
  lifecycle (st (fst (resume t o m))).
Proof.
  intros Ht H1 H2 H3.
  assert (Hu : t <> TSetupBorrowed -> uidInfo (st m) <> None)
    by (destruct H3; [congruence | auto]).
  destruct t as [[] | | | | ? ? [] | ? ? [] | ? [] | | |]; try discriminate; cbn [resume].
  - (* setup_services *)
    destruct (outcome_try advance _ advance_services m) as [[H | H] | H].
    + eapply lifecycle_handed_on; eauto; apply Hu; discriminate.
    + eapply lifecycle_listening_now; eauto; apply Hu; discriminate.
    + eapply lifecycle_given_up; eauto.
  - (* setup_borrowed *)
    destruct o as [u | x].
    + destruct m as [s e]. cbn in *.
      apply (still_setting_up _ TSetupPrivileged); unfold setup_tasks, ws_listeners in *; cbn;
        rewrite ?List.map_app, ?List.filter_app, ?H1; auto; right; discriminate.
    + eapply lifecycle_given_up; eauto. split.
      * apply (aside_setup_catch x m).
      * apply flag_after_setup_catch.
  - (* setup_privileged *)
    unfold setup_privileged.
    assert (Hb : outcome handed_on (settled o ;; runCode None KSetup)).
    { apply outcome_bind; [exact _ | aside_segment | intros _].
      apply always_outcome, handed_on_runCode. }
    destruct (outcome_try handed_on _ Hb m) as [H | H].
    + eapply lifecycle_handed_on; eauto; apply Hu; discriminate.
    + eapply lifecycle_given_up; eauto.
  - (* setup_lspSetup *)
    unfold setup_lspSetup.
    assert (Hb : outcome listening_now (settled o ;; setup_lsp)).
    { apply outcome_bind; [exact _ | aside_segment | intros _]. apply listening_now_lsp. }
    destruct (outcome_try listening_now _ Hb m) as [H | H].
    + eapply lifecycle_listening_now; eauto; apply Hu; discriminate.
    + eapply lifecycle_given_up; eauto.
  - apply (lifecycle_handed_on m); [assumption | assumption | apply Hu; discriminate |].
    apply handed_on_continue, handed_on_settled, handed_on_write.
  - apply (lifecycle_handed_on m); [assumption | assumption | apply Hu; discriminate |].
    apply handed_on_continue, handed_on_settled, handed_on_hacks.
  - apply (lifecycle_handed_on m); [assumption | assumption | apply Hu; discriminate |].
    apply handed_on_continue, handed_on_settled, handed_on_spawn.
Qed.

Lemma setup_step_is_setup_task t : is_setup_step t = true -> is_setup_task t = true.
Proof.
  destruct t as [[] | | | | ? ? [] | ? ? [] | ? [] | | |]; try discriminate; reflexivity.
Qed.

Lemma lifecycle_turn ev e s : lifecycle s -> lifecycle (turn ev e s).
Proof.
  intros H. destruct ev as [c p | i o]; unfold turn; [| unfold step].
  - apply (lifecycle_aside {| st := s; env := e |}); [exact H |].
    apply sat_fire; [exact _ | intros h; apply aside_handler].
  - unfold bind at 1. unfold gets at 1. cbn [st].
    destruct (pool s !! i) as [[w t] |] eqn:Hi; [| exact H].
    unfold bind, modify. cbn [st env fst].
    set (s1 := set_pool (delete i (pool s)) s).
    destruct (is_setup_task t) eqn:Ht.
    + assert (Hin : In t (setup_tasks s)).
      { apply List.filter_In. split; [| exact Ht].
        change t with (snd (w, t)). apply List.in_map.
        apply list_elem_of_In. eapply list_elem_of_lookup_2. exact Hi. }
      destruct H as [t' H1 H2 H3 H4 | H1 H2 H3 | H1 H2 H3];
        try (rewrite H1 in Hin; destruct Hin; fail).
      destruct (filter_delete_single is_setup_task snd (pool s) i (w, t) t' Hi Ht H1) as [Heq Hd].
      cbn [snd] in Heq. subst t'.
      apply lifecycle_resume; auto.
    + apply (lifecycle_aside {| st := s1; env := e |}).
      * apply (lifecycle_aside {| st := s; env := e |}); [exact H |].
        unfold aside, setup_tasks. cbn.
        rewrite (filter_delete_other is_setup_task snd (pool s) i (w, t) Hi Ht).
        repeat split. auto.
      * apply aside_resume. exact Ht.
Qed.

Lemma lifecycle_start cfg id : lifecycle (start cfg id).
Proof. apply (still_setting_up _ TSetupBorrowed); auto. Qed.

Lemma lifecycle_exec evs : forall s, lifecycle s -> lifecycle (exec evs s).
Proof.
  induction evs as [| [ev e] rest IH]; intros s H; simpl; [exact H |].
  apply IH, lifecycle_turn, H.
Qed.

Lemma filter_narrow {A} (f g : A -> bool) (l : list A) :
  (forall x, f x = true -> g x = true) ->
  List.filter f l = List.filter f (List.filter g l).
Proof.
  intros H. induction l as [| a l IH]; [reflexivity |]. cbn.
  destruct (f a) eqn:Ef.
  - rewrite (H a Ef). cbn. rewrite Ef, IH. reflexivity.
  - destruct (g a); cbn; rewrite ?Ef; exact IH.
Qed.

Lemma handlers_on_websocket c s :
  on_websocket (c, HReceive) = true ->
  handlers_on c s = map snd (List.filter (fun l => same_channel (fst l) c) (ws_listeners s)).
Proof.
  intros Hc. unfold handlers_on, ws_listeners. f_equal. apply filter_narrow.
  intros [c' h]. unfold on_websocket. cbn. destruct c', c; try discriminate; reflexivity.
Qed.

Lemma existsb_filter_nil {A} (f : A -> bool) (l : list A) :
  List.filter f l = [] -> existsb f l = false.
Proof.
  induction l as [| a l IH]; [reflexivity |]. cbn. destruct (f a); [discriminate | exact IH].
Qed.

Lemma existsb_narrow {A} (f g : A -> bool) (l : list A) :
  (forall x, f x = true -> g x = true) ->
  existsb f l = existsb f (List.filter g l).
Proof.
  intros H. induction l as [| a l IH]; [reflexivity |]. cbn.
  destruct (f a) eqn:Ef.
  - rewrite (H a Ef). cbn. rewrite Ef. reflexivity.
  - destruct (g a); cbn; rewrite ?Ef; exact IH.
Qed.

Lemma existsb_filter_one {A} (f : A -> bool) (l : list A) x :
  List.filter f l = [x] -> existsb f l = true.
Proof.
  intros H. apply existsb_exists. exists x.
  assert (Hin : In x (List.filter f l)) by (rewrite H; left; reflexivity).
  apply List.filter_In in Hin. exact Hin.
Qed.

(** X3: a session takes messages only once it is set up.  Whatever
    happens to a session, [receive] is registered on the websocket at
    most once; when it is registered, no continuation of [setup] is
    suspended any more, a uid is borrowed, and the callbacks for the
    close and the error of the websocket are registered as well, once
    each; and when no continuation of [setup] is suspended, the session
    either takes messages or is tearing down. *)
Theorem messages_are_taken_only_after_setup cfg id evs :
  let s := exec evs (start cfg id) in
  (handlers_on ChWsMessage s = [] \/ handlers_on ChWsMessage s = [HReceive]) /\
  (listening s = true ->
   setting_up s = false /\ uidInfo s <> None /\
   handlers_on ChWsMessage s = [HReceive] /\
   handlers_on ChWsClose s = [HClose] /\
   handlers_on ChWsError s = [HWsError]) /\
  (setting_up s = false -> listening s = true \/ tearingDown s = true).
Proof.
  intros s.
  assert (H : lifecycle s) by apply lifecycle_exec, lifecycle_start.
  assert (Hsome : forall l, ws_listeners s = l ->
            listening s = existsb (fun x => same_channel (fst x) ChWsMessage) l /\
            handlers_on ChWsMessage s =
            map snd (List.filter (fun x => same_channel (fst x) ChWsMessage) l)).
  { intros l <-. split; [| apply handlers_on_websocket; reflexivity].
    unfold listening, ws_listeners. apply existsb_narrow.
    intros [c h]. unfold on_websocket. cbn. destruct c; try discriminate; reflexivity. }
  destruct H as [t H1 H2 H3 H4 | H1 H2 H3 | H1 H2 H3].
  - destruct (Hsome [] H3) as [Ha Hb]. cbn in Ha, Hb.
    split; [left; exact Hb |]. split; [congruence |].
    intros Hs. unfold setting_up in Hs.
    rewrite (existsb_filter_one _ _ t H1) in Hs. discriminate.
  - destruct (Hsome ws_wiring H2) as [Ha Hb]. cbn in Ha, Hb.
    split; [right; exact Hb |]. split; [| left; exact Ha].
    intros _. repeat split; auto.
    + unfold setting_up. apply existsb_filter_nil. exact H1.
    + rewrite handlers_on_websocket by reflexivity. rewrite H2. reflexivity.
    + rewrite handlers_on_websocket by reflexivity. rewrite H2. reflexivity.
  - destruct (Hsome [] H2) as [Ha Hb]. cbn in Ha, Hb.
    split; [left; exact Hb |]. split; [congruence | right; exact H3].
Qed.

(** * Terminals in the sessions that can arise *)

#[local] Instance tended_stable : Stable tended.
Proof. split; unfold tended; auto. Qed.

Ltac tended_leaf :=
  try discriminate;
  first
  [ let H := fresh in intros H; exact H
  | unfold tended, terminals_ok, pty_listeners, is_live; cbn;
    rewrite ?List.filter_app; cbn; rewrite ?app_nil_r; auto ].

Lemma tended_retire : sat tended runCode_retire.
Proof.
  intros [s e] H. pose proof H as [H1 H2]. cbn [st] in H1, H2.
  unfold runCode_retire, bind at 1, gets at 1. cbn [st].
  destruct (term s) as [h |] eqn:Ht; [| exact H].
  symex. destruct (uidInfo s); cbn; [| exact H].
  destruct (child_faults e) as [| [x |] r]; cbn; try (exact H).
  all: split; unfold pty_listeners; cbn; rewrite ?length_alter; [exact H1 | discriminate].
Qed.

Lemma tended_spawn cmdline k : sat tended (runCode_spawn cmdline k).
Proof.
  intros [s e] H. pose proof H as [H1 H2]. cbn [st] in H1, H2. symex.
  destruct (uidInfo s); cbn; [| exact H].
  destruct (pty_faults e) as [| [x |] r]; cbn; try (exact H).
  all: destruct (pids e) as [| p ps]; cbn.
  all: destruct k; cbn.
  all: split; unfold pty_listeners, is_live; cbn;
    [ rewrite List.filter_app, List.length_app, seq_app, List.map_app; cbn;
      unfold pty_listeners in H1; rewrite H1; reflexivity
    | intros h Hh; injection Hh as <-; rewrite lookup_app_r by lia;
      rewrite Nat.sub_diag; reflexivity ].
Qed.

Lemma tended_daemon_streams l :
  Forall (fun c => c = ChDaemonStdout \/ c = ChDaemonStderr) l ->
  sat tended (daemon_streams l).
Proof.
  induction 1 as [| c l [-> | ->] _ IH]; simpl; sat_auto ltac:(eassumption) tended_leaf.
Qed.

Ltac tended_known :=
  idtac;
  lazymatch goal with
  | |- sat _ runCode_retire => apply tended_retire
  | |- sat _ (runCode_spawn _ _) => apply tended_spawn
  | |- sat _ (daemon_streams _) => apply tended_daemon_streams; repeat constructor; auto
  end.

Lemma tended_handler h p : sat tended (handler h p).
Proof. destruct h, p; simpl; sat_auto tended_known tended_leaf. Qed.

Lemma tended_resume t o : sat tended (resume t o).
Proof. destruct t; simpl; sat_auto tended_known tended_leaf. Qed.

Lemma tended_step ev : sat tended (step ev).
Proof.
  destruct ev as [c p | i o]; [| unfold step].
  - apply sat_fire; [exact _ | intros h; apply tended_handler].
  - sat_auto ltac:(simple apply tended_resume) tended_leaf.
Qed.

Lemma terminals_ok_exec cfg id evs : terminals_ok (exec evs (start cfg id)).
Proof.
  assert (H : forall s, terminals_ok s -> terminals_ok (exec evs s)).
  { induction evs as [| [ev e] rest IH]; intros s H; simpl; [exact H |].
    apply IH. apply (tended_step ev {| st := s; env := e |} H). }
  apply H. split; [reflexivity | discriminate].
Qed.

Lemma own_callbacks_of h n :
  List.filter (fun l => same_channel (fst l) (ChPtyData h)) (map own_callback (seq 0 n)) =
  if Nat.ltb h n then [own_callback h] else [].
Proof.
  induction n as [| n IH]; [reflexivity |].
  rewrite seq_S, List.map_app, List.filter_app, IH.
  cbn [map List.filter app same_channel fst own_callback Nat.add].
  destruct (Nat.ltb_spec h n), (Nat.ltb_spec h (S n)), (Nat.eqb_spec n h);
    try lia; subst; reflexivity.
Qed.

Lemma handlers_on_pty s h :
  terminals_ok s ->
  handlers_on (ChPtyData h) s = if Nat.ltb h (length (ptys s)) then [HTermData h] else [].
Proof.
  intros [H1 _]. unfold handlers_on.
  rewrite (filter_narrow _ on_pty).
  - fold (pty_listeners s). rewrite H1, own_callbacks_of.
    destruct (Nat.ltb h (length (ptys s))); reflexivity.
  - intros [c' hd]. unfold on_pty. cbn. destruct c'; try discriminate; reflexivity.
Qed.

(** X4: the slot never holds a dead terminal.  Whatever happens to a
    session, the handle in [this.term], if there is one, is live. *)
Theorem the_slot_holds_a_live_terminal cfg id evs h :
  term (exec evs (start cfg id)) = Some h ->
  is_live (exec evs (start cfg id)) h = true.
Proof. intros H. apply (terminals_ok_exec cfg id evs). exact H. Qed.

Lemma the_slot_holds_a_live_terminal_witness :
  term (exec to_ready (start python "s1")) = Some 0 /\
  is_live (exec to_ready (start python "s1")) 0 = true.
Proof.
  split; [by_evaluation |].
  apply (the_slot_holds_a_live_terminal python "s1" to_ready 0). by_evaluation.
Defined.

(** X5: the output of a terminal is forwarded exactly while it is live.
    Whatever happens to a session, every pty it has spawned has one data
    callback, bound to its own handle, and no other handle has any.  So
    when a pty emits output and the websocket accepts frames, the session
    sends one [terminalOutput] frame with that output if the handle is
    live and teardown has not begun, and does nothing at all otherwise. *)
Theorem terminal_output_is_forwarded_iff_live cfg id evs h data :
  let s := exec evs (start cfg id) in
  handlers_on (ChPtyData h) s = (if Nat.ltb h (length (ptys s)) then [HTermData h] else []) /\
  turn (Fire (ChPtyData h) (PData data)) quiet s =
  if is_live s h && negb (tearingDown s)
  then set_sent (sent s ++ [terminalOutput data]) s
  else s.
Proof.
  intros s. pose proof (terminals_ok_exec cfg id evs) as Hok. fold s in Hok.
  pose proof (handlers_on_pty s h Hok) as Hh. split; [exact Hh |].
  rewrite turn_fire, Hh.
  destruct (Nat.ltb_spec h (length (ptys s))) as [Hlt | Hge].
  - cbn [call_all handler]. unfold bind at 1 2, gets at 1. cbn [st].
    destruct (is_live s h); [| reflexivity].
    cbn [andb]. unfold send, try_catch, bind at 1, gets at 1. cbn [st].
    destruct (tearingDown s); reflexivity.
  - assert (Hd : is_live s h = false).
    { unfold is_live. rewrite lookup_ge_None_2 by lia. reflexivity. }
    rewrite Hd. reflexivity.
Qed.

(** * Terminals that lost the slot *)

#[local] Instance forsaken_stable h : Stable (forsaken h).
Proof. split; unfold forsaken; auto. Qed.

Ltac forsaken_leaf := try discriminate; let H := fresh in intros H; exact H.

Lemma forsaken_retire h : sat (forsaken h) runCode_retire.
Proof.
  intros [s e] H. pose proof H as [H1 H2]. cbn [st] in H1, H2.
  unfold runCode_retire, bind at 1, gets at 1. cbn [st].
  destruct (term s) as [t |] eqn:Ht; [| exact H].
  symex. destruct (uidInfo s); cbn; [| exact H].
  destruct (child_faults e) as [| [x |] r]; cbn; try exact H.
  all: split; [| discriminate]; unfold is_live in *; cbn;
    rewrite list_lookup_alter_ne by congruence; exact H1.
Qed.

Lemma forsaken_spawn h cmdline k : sat (forsaken h) (runCode_spawn cmdline k).
Proof.
  intros [s e] H. pose proof H as [H1 H2]. cbn [st] in H1, H2.
  assert (Hlt : h < length (ptys s)).
  { unfold is_live in H1. destruct (ptys s !! h) eqn:E; [| discriminate].
    apply lookup_lt_Some in E. exact E. }
  symex. destruct (uidInfo s); cbn; [| exact H].
  destruct (pty_faults e) as [| [x |] r]; cbn; try exact H.
  all: destruct (pids e) as [| p ps]; cbn.
  all: destruct k; cbn.
  all: split; [unfold is_live in *; cbn; rewrite lookup_app_l by exact Hlt; exact H1 |].
  all: cbn; intros Heq; injection Heq as Heq; lia.
Qed.

Ltac forsaken_known :=
  idtac;
  lazymatch goal with
  | |- sat _ runCode_retire => apply forsaken_retire
  | |- sat _ (runCode_spawn _ _) => apply forsaken_spawn
  | |- sat _ (daemon_streams _) => eassumption
  end.

Lemma forsaken_daemon_streams h l : sat (forsaken h) (daemon_streams l).
Proof. induction l; simpl; sat_auto forsaken_known forsaken_leaf. Qed.

Lemma forsaken_handler h hd p : sat (forsaken h) (handler hd p).
Proof. destruct hd, p; simpl; sat_auto forsaken_known forsaken_leaf. Qed.

Lemma forsaken_resume h t o : sat (forsaken h) (resume t o).
Proof.
  destruct t; simpl;
    sat_auto ltac:(first [forsaken_known | simple apply forsaken_daemon_streams])
             forsaken_leaf.
Qed.

Lemma forsaken_step h ev : sat (forsaken h) (step ev).
Proof.
  destruct ev as [c p | i o]; [| unfold step].
  - apply sat_fire; [exact _ | intros hd; apply forsaken_handler].
  - sat_auto ltac:(simple apply forsaken_resume) forsaken_leaf.
Qed.

(** X12: only the terminal of the slot is ever retired.  A terminal
    that is live and is not the one in the slot stays live and outside
    the slot, whatever happens afterwards: [runCode] kills and marks dead
    the handle it finds in the slot and no other.  Such a terminal arises
    when two Run-Code requests overlap (the witness below). *)
Theorem a_terminal_outside_the_slot_is_never_retired s h evs :
  is_live s h = true -> term s <> Some h ->
  is_live (exec evs s) h = true /\ term (exec evs s) <> Some h.
Proof.
  intros H1 H2. assert (H : orphan h s) by (split; assumption). clear H1 H2.
  revert s H. induction evs as [| [ev e] rest IH]; intros s H; simpl; [exact H |].
  apply IH. apply (forsaken_step h ev {| st := s; env := e |} H).
Qed.

Lemma a_terminal_outside_the_slot_is_never_retired_witness :
  let s := exec (overlapping "a" "b") ready_python in
  let later := [calm (Fire ChWsMessage (PFrame (Some (msg_runCode "c"))));
                calm (Settle 0 (resolved 0))] in
  is_live s 1 = true /\ term s <> Some 1 /\
  is_live (exec later s) 1 = true /\ term (exec later s) <> Some 1.
Proof.
  intros s later.
  assert (H1 : is_live s 1 = true) by by_evaluation.
  assert (H2 : term s <> Some 1) by (vm_compute; discriminate).
  split; [exact H1 |]. split; [exact H2 |].
  apply (a_terminal_outside_the_slot_is_never_retired s 1 later H1 H2).
Defined.

(** * The registry of sessions *)

#[local] Instance registered_stable : Stable registered.
Proof. split; unfold registered; auto. Qed.

Ltac registered_leaf := try discriminate; let H := fresh in intros H; exact H.

Lemma registered_teardown k : sat registered (teardown k).
Proof.
  intros [s e] H. unfold enrolled in *. symex. cbn [st] in H.
  destruct (tearingDown s) eqn:Htd; [destruct k |]; cbn; rewrite ?Htd; try exact H.
  reflexivity.
Qed.

Ltac registered_known :=
  idtac;
  lazymatch goal with
  | |- sat _ (teardown _) => apply registered_teardown
  | |- sat _ (daemon_streams _) => eassumption
  end.

Lemma registered_daemon_streams l : sat registered (daemon_streams l).
Proof. induction l; simpl; sat_auto registered_known registered_leaf. Qed.

Lemma registered_handler h p : sat registered (handler h p).
Proof. destruct h, p; simpl; sat_auto registered_known registered_leaf. Qed.

Lemma registered_resume t o : sat registered (resume t o).
Proof.
  destruct t; simpl;
    sat_auto ltac:(first [registered_known | simple apply registered_daemon_streams])
             registered_leaf.
Qed.

Lemma registered_step ev : sat registered (step ev).
Proof.
  destruct ev as [c p | i o]; [| unfold step].
  - apply sat_fire; [exact _ | intros h; apply registered_handler].
  - sat_auto ltac:(simple apply registered_resume) registered_leaf.
Qed.

(** X6: a session is registered until its teardown begins.  Whatever
    happens to a session after its creation, it is a member of
    [allSessions] exactly when its teardown flag is off. *)
Theorem a_session_is_registered_until_teardown_begins cfg id evs :
  allSessions (exec evs (start cfg id)) = negb (tearingDown (exec evs (start cfg id))).
Proof.
  assert (H : forall s, enrolled s -> enrolled (exec evs s)).
  { induction evs as [| [ev e] rest IH]; intros s H; simpl; [exact H |].
    apply IH. apply (registered_step ev {| st := s; env := e |} H). }
  apply H. reflexivity.
Qed.

(** * A websocket that refuses a frame *)

(** X7: a failing [ws.send] begins teardown.  When the session is not
    tearing down and [ws.send] throws, [send] records no frame, logs the
    failure and calls [teardown] at once: the flag is set, the session
    leaves [allSessions], the grace timer is started, and the caller that
    awaits [send] resumes only when that teardown has come to an end. *)
Theorem a_failing_send_begins_teardown s e msg k x rest :
  tearingDown s = false -> ws_faults e = Some x :: rest ->
  send msg k {| st := s; env := e |} =
  ({| st := set_pool (pool s ++ [(Timer, TTeardownSlept k)])
              (set_effects (effects s ++ [ESetTimeout 5000])
                 (set_allSessions false
                    (set_tearingDown true
                       (set_logs (logs s ++ [LSendFailed x; LTearingDown]) s))));
      env := put_ws rest e |}, Val tt).
Proof.
  intros Htd Hf. drive. rewrite <- app_assoc. reflexivity.
Qed.

Lemma a_failing_send_begins_teardown_witness :
  tearingDown ready_python = false /\
  ws_faults (put_ws [Some "Error: not opened"] quiet) = [Some "Error: not opened"] /\
  send (terminalOutput "$ ") KDone
    {| st := ready_python; env := put_ws [Some "Error: not opened"] quiet |} =
  ({| st := set_pool (pool ready_python ++ [(Timer, TTeardownSlept KDone)])
              (set_effects (effects ready_python ++ [ESetTimeout 5000])
                 (set_allSessions false
                    (set_tearingDown true
                       (set_logs (logs ready_python ++
                                  [LSendFailed "Error: not opened"; LTearingDown])
                          ready_python))));
      env := put_ws [] (put_ws [Some "Error: not opened"] quiet) |}, Val tt).
Proof.
  split; [by_evaluation |]. split; [by_evaluation |].
  apply (a_failing_send_begins_teardown ready_python
           (put_ws [Some "Error: not opened"] quiet) (terminalOutput "$ ") KDone
           "Error: not opened" []); by_evaluation.
Defined.

(** * What a client's frame does *)

(** X9: malformed frames are set aside.  A frame that does not parse is
    logged as such; a frame that parses but is not a well-formed
    [terminalInput], [runCode] or [lspInput] is logged as malformed; in
    both cases nothing else changes.  The exception is a frame that
    cannot be printed (it has an own property "toString"): formatting the
    log line throws, [receive] logs a handler error and begins
    [sendError]. *)
Theorem malformed_frames_are_set_aside s e raw :
  handlers_on ChWsMessage s = [HReceive] -> tearingDown s = false ->
  malformed raw = true ->
  let s' := turn (Fire ChWsMessage (PFrame raw)) e s in
  (raw = None -> s' = set_logs (logs s ++ [LParseFailed]) s) /\
  (forall msg, raw = Some msg -> printable msg = true ->
     s' = set_logs (logs s ++ [LMalformed msg]) s) /\
  (forall msg, raw = Some msg -> printable msg = false -> hd None (ws_faults e) = None ->
     let err := "TypeError: Cannot convert object to primitive value" in
     s' = set_pool (pool s ++ [(Microtask, TKont (KSendError err))])
            (set_sent (sent s ++ [terminalClear])
               (set_logs (logs s ++ [LHandlerError err]) s))).
Proof.
  intros Hr Htd Hm s'. unfold s'. rewrite turn_message by exact Hr.
  unfold receive, try_catch, bind, gets. cbn [st]. rewrite Htd.
  split; [| split].
  - intros ->. reflexivity.
  - intros msg -> Hp.
    assert (Hlog : logBadMessage msg {| st := s; env := e |} =
                   ({| st := set_logs (logs s ++ [LMalformed msg]) s; env := e |}, Val tt)).
    { unfold logBadMessage. rewrite Hp. reflexivity. }
    unfold malformed in Hm.
    destruct (discriminant msg) as [[| | | tag | |] |]; try (rewrite Hlog; reflexivity).
    destruct (tag =? "terminalInput")%string.
    { unfold case_terminalInput. rewrite Hm, Hlog. reflexivity. }
    destruct (tag =? "runCode")%string.
    { unfold case_runCode. rewrite Hm, Hlog. reflexivity. }
    destruct (tag =? "lspInput")%string.
    { unfold case_lspInput. rewrite Hm, Hlog. reflexivity. }
    rewrite Hlog. reflexivity.
  - intros msg -> Hp Hw.
    set (err := "TypeError: Cannot convert object to primitive value").
    assert (Hlog : logBadMessage msg {| st := s; env := e |} =
                   ({| st := s; env := e |}, Exn err)).
    { unfold logBadMessage. rewrite Hp. reflexivity. }
    assert (Hrep : st (fst ((log (LHandlerError err) ;; sendError err) {| st := s; env := e |})) =
                   set_pool (pool s ++ [(Microtask, TKont (KSendError err))])
                     (set_sent (sent s ++ [terminalClear])
                        (set_logs (logs s ++ [LHandlerError err]) s))).
    { symex. rewrite Htd. cbn.
      destruct (ws_faults e) as [| [x |] r]; try discriminate; reflexivity. }
    unfold malformed in Hm.
    destruct (discriminant msg) as [[| | | tag | |] |]; try (rewrite Hlog; exact Hrep).
    destruct (tag =? "terminalInput")%string.
    { unfold case_terminalInput. rewrite Hm, Hlog. exact Hrep. }
    destruct (tag =? "runCode")%string.
    { unfold case_runCode. rewrite Hm, Hlog. exact Hrep. }
    destruct (tag =? "lspInput")%string.
    { unfold case_lspInput. rewrite Hm, Hlog. exact Hrep. }
    rewrite Hlog. exact Hrep.
Qed.

Lemma malformed_frames_are_set_aside_witness :
  let raw := Some (JObj [("event", JStr "terminalInput"); ("input", JNum 7)]) in
  handlers_on ChWsMessage ready_python = [HReceive] /\
  tearingDown ready_python = false /\
  malformed raw = true /\
  let s' := turn (Fire ChWsMessage (PFrame raw)) quiet ready_python in
  (raw = None -> s' = set_logs (logs ready_python ++ [LParseFailed]) ready_python) /\
  (forall msg, raw = Some msg -> printable msg = true ->
     s' = set_logs (logs ready_python ++ [LMalformed msg]) ready_python) /\
  (forall msg, raw = Some msg -> printable msg = false -> hd None (ws_faults quiet) = None ->
     let err := "TypeError: Cannot convert object to primitive value" in
     s' = set_pool (pool ready_python ++ [(Microtask, TKont (KSendError err))])
            (set_sent (sent ready_python ++ [terminalClear])
               (set_logs (logs ready_python ++ [LHandlerError err]) ready_python))).
Proof.
  intros raw. repeat (split; [by_evaluation |]).
  apply (malformed_frames_are_set_aside ready_python quiet raw); by_evaluation.
Defined.

(** X10: well-formed input is passed on.  In a session that takes
    messages and is not tearing down, a [terminalInput] frame with a
    string input is written, unchanged, to the pty of the slot and does
    nothing else; with an empty slot it is only logged as ignored.  An
    [lspInput] frame whose input has type "object" is written, unchanged,
    to the language server; without a language server it is only logged
    as ignored. *)
Theorem client_input_is_passed_on s e msg :
  handlers_on ChWsMessage s = [HReceive] -> tearingDown s = false ->
  let s' := turn (Fire ChWsMessage (PFrame (Some msg))) e s in
  (forall input,
     discriminant msg = Some (JStr "terminalInput") -> prop msg "input" = Some (JStr input) ->
     match term s with
     | Some h =>
         hd None (pty_faults e) = None -> s' = set_effects (effects s ++ [EPtyWrite h input]) s
     | None => s' = set_logs (logs s ++ [LTermIgnored]) s
     end) /\
  (forall input,
     discriminant msg = Some (JStr "lspInput") -> prop msg "input" = Some input ->
     typeof (Some input) = ty_object ->
     match lsp s with
     | Some _ =>
         hd None (rpc_faults e) = None -> s' = set_effects (effects s ++ [ELspWrite input]) s
     | None => s' = set_logs (logs s ++ [LLspIgnored]) s
     end).
Proof.
  intros Hr Htd s'. unfold s'. rewrite turn_message by exact Hr.
  unfold receive, try_catch, bind, gets. cbn [st]. rewrite Htd.
  split; intros input Hd Hp.
  - rewrite Hd. cbn. unfold case_terminalInput, is_type, bind, gets. rewrite Hp. cbn.
    destruct (term s) as [h |]; [| reflexivity].
    intros Hf. unfold pty_write, bind, next_fault. cbn.
    destruct (pty_faults e) as [| [x |] r]; try discriminate; reflexivity.
  - intros Hty. rewrite Hd. cbn.
    assert (Ht : truthy msg = true).
    { unfold discriminant in Hd. destruct (truthy msg); [reflexivity |].
      injection Hd as ->. discriminate. }
    unfold case_lspInput, is_type, bind, gets. rewrite Hp, Hty, Ht. cbn.
    destruct (lsp s) as [l |]; [| reflexivity].
    intros Hf. unfold rpc_write, bind, next_fault. cbn.
    destruct (rpc_faults e) as [| [x |] r]; try discriminate; reflexivity.
Qed.

Lemma client_input_is_passed_on_witness :
  let msg := msg_terminalInput "ls" in
  handlers_on ChWsMessage ready_python = [HReceive] /\
  tearingDown ready_python = false /\
  let s' := turn (Fire ChWsMessage (PFrame (Some msg))) quiet ready_python in
  (forall input,
     discriminant msg = Some (JStr "terminalInput") -> prop msg "input" = Some (JStr input) ->
     match term ready_python with
     | Some h =>
         hd None (pty_faults quiet) = None ->
         s' = set_effects (effects ready_python ++ [EPtyWrite h input]) ready_python
     | None => s' = set_logs (logs ready_python ++ [LTermIgnored]) ready_python
     end) /\
  (forall input,
     discriminant msg = Some (JStr "lspInput") -> prop msg "input" = Some input ->
     typeof (Some input) = ty_object ->
     match lsp ready_python with
     | Some _ =>
         hd None (rpc_faults quiet) = None ->
         s' = set_effects (effects ready_python ++ [ELspWrite input]) ready_python
     | None => s' = set_logs (logs ready_python ++ [LLspIgnored]) ready_python
     end).
Proof.
  intros msg. repeat (split; [by_evaluation |]).
  apply (client_input_is_passed_on ready_python quiet msg); by_evaluation.
Defined.

(** * What the daemon and the language server report *)

(** X11: what the services emit reaches the client.  In the Ready
    session of any language: a chunk of the daemon's stdout or stderr is
    sent as one [serviceLog] frame, a chunk of the language server's
    stderr likewise, a message of the language server as one [lspOutput]
    frame; the exit and the error of the language server are reported by
    one [serviceFailed] frame each, those of the daemon by two; and when
    the language configures no daemon or no language server, its events
    have no listener and change nothing. *)
Theorem service_events_reach_the_client cfg id u :
  let s := ready cfg id u in
  let d := present (Lang.daemon cfg) in
  let l := present (Lang.lsp cfg) in
  let reports (ev : Event) (frames : list Frame) :=
    turn ev quiet s = set_sent (sent s ++ frames) s in
  (forall data,
     reports (Fire ChDaemonStdout (PData data)) (if d then [serviceLog "daemon" data] else []) /\
     reports (Fire ChDaemonStderr (PData data)) (if d then [serviceLog "daemon" data] else []) /\
     reports (Fire ChLspStderr (PData data)) (if l then [serviceLog "lsp" data] else [])) /\
  (forall msg,
     reports (Fire ChLspMessage (PMessage msg)) (if l then [lspOutput msg] else [])) /\
  (forall code signal,
     reports (Fire ChDaemonExit (PExit code signal))
       (if d then [serviceFailed "daemon" (exit_status code signal);
                   serviceFailed "daemon" (exit_status code signal)] else []) /\
     reports (Fire ChLspExit (PExit code signal))
       (if l then [serviceFailed "lsp" (exit_status code signal)] else [])) /\
  (forall err,
     reports (Fire ChDaemonError (PError err))
       (if d then [serviceFailed "daemon" err; serviceFailed "daemon" err] else []) /\
     reports (Fire ChLspError (PError err)) (if l then [serviceFailed "lsp" err] else [])).
Proof.
  intros s d l reports. subst reports s d l. unfold ready. cbv zeta.
  destruct (present (Lang.daemon cfg)), (present (Lang.lsp cfg));
    repeat split; vm_compute; reflexivity.
Qed.

(** * Teardown when nothing fails *)

Lemma teardown_begins s e k :
  tearingDown s = false ->
  teardown k {| st := s; env := e |} =
  ({| st := set_pool (pool s ++ [(Timer, TTeardownSlept k)])
              (set_effects (effects s ++ [ESetTimeout 5000])
                 (set_allSessions false
                    (set_tearingDown true (set_logs (logs s ++ [LTearingDown]) s))));
      env := e |}, Val tt).
Proof. intros Htd. symex. rewrite Htd. reflexivity. Qed.

Lemma cleanup_begins s e u k :
  uidInfo s = Some u ->
  teardown_slept k {| st := s; env := e |} =
  ({| st := waiting_for (TTeardownCleaned k)
              (PrivilegedTeardown {| ctx_uid := u; ctx_uuid := uuid s |}) None s;
      env := e |}, Val tt).
Proof. intros Hu. symex. rewrite Hu. reflexivity. Qed.

Lemma return_begins s e u k v :
  uidInfo s = Some u ->
  teardown_cleaned k (resolved v) {| st := s; env := e |} =
  ({| st := set_pool (pool s ++ [(External, TTeardownReturned k)])
              (set_effects (effects s ++ [EReturnUID]) s);
      env := e |}, Val tt).
Proof. intros Hu. symex. rewrite Hu. reflexivity. Qed.

Lemma teardown_ends s e k v :
  teardown_returned k (resolved v) {| st := s; env := e |} =
  ({| st := returning k (set_effects (effects s ++ [EWsTerminate]) s); env := e |}, Val tt).
Proof. destruct k; reflexivity. Qed.

(** X13: teardown runs to its end.  In a session that takes messages,
    holds a uid, is not tearing down and has nothing suspended, the
    websocket closes; the grace timer fires, the cleanup command and the
    return of the uid succeed.  Then the four steps of the release
    sequence have run, in order and once each, the flag is set, the
    session has left [allSessions], one line is logged and nothing is
    left suspended. *)
Theorem teardown_runs_to_its_end s u :
  handlers_on ChWsClose s = [HClose] -> tearingDown s = false -> pool s = [] ->
  uidInfo s = Some u ->
  exec closing s = released {| ctx_uid := u; ctx_uuid := uuid s |} s.
Proof.
  intros Hc Htd Hp Hu. unfold closing, settles, calm. cbn [repeat].
  rewrite exec_cons, turn_fire, Hc. cbn [call_all handler].
  unfold bind at 1. rewrite (teardown_begins s quiet KDone Htd). cbv beta iota.
  unfold ret at 1. cbn [fst st].
  rewrite exec_cons.
  erewrite turn_settle by (read_field; rewrite ?Hp; reflexivity). cbn [resume outcome_for].
  rewrite (cleanup_begins _ quiet u KDone) by (read_field; exact Hu). cbn [fst st].
  rewrite exec_cons.
  erewrite turn_settle by (read_field; rewrite ?Hp; reflexivity). cbn [resume outcome_for].
  rewrite (return_begins _ quiet u KDone 0) by (read_field; exact Hu). cbn [fst st].
  rewrite exec_cons.
  erewrite turn_settle by (read_field; reflexivity). cbn [resume outcome_for].
  rewrite teardown_ends. cbn [fst st exec].
  unfold released, release_sequence.
  apply St_ext; read_field; rewrite ?Hp; reflexivity.
Qed.

Lemma teardown_runs_to_its_end_witness :
  handlers_on ChWsClose ready_python = [HClose] /\
  tearingDown ready_python = false /\
  pool ready_python = [] /\
  uidInfo ready_python = Some 1000 /\
  exec closing ready_python =
  released {| ctx_uid := 1000; ctx_uuid := uuid ready_python |} ready_python.
Proof.
  do 4 (split; [by_evaluation |]).
  apply (teardown_runs_to_its_end ready_python 1000); by_evaluation.
Defined.

(** * A session whose uid could not be borrowed *)

Lemma forallb_lookup {A} (f : A -> bool) (l : list A) i x :
  forallb f l = true -> l !! i = Some x -> f x = true.
Proof.
  revert i. induction l as [| a l IH]; intros [| i] H Hi; simpl in *; try discriminate;
    apply andb_prop in H; destruct H as [Ha H].
  - injection Hi as <-. exact Ha.
  - eauto.
Qed.

Lemma turn_settle_at s e i o w t :
  pool s !! i = Some (w, t) ->
  turn (Settle i o) e s =
  st (fst (resume t (outcome_for w o) {| st := set_pool (delete i (pool s)) s; env := e |})).
Proof.
  intros H. unfold turn, step, bind, gets, modify. cbn [st env]. rewrite H. reflexivity.
Qed.

Lemma turn_settle_none s e i o : pool s !! i = None -> turn (Settle i o) e s = s.
Proof.
  intros H. unfold turn, step, bind, gets. cbn [st env]. rewrite H. reflexivity.
Qed.

Lemma turn_unheard s e c p : listeners s = [] -> turn (Fire c p) e s = s.
Proof. intros H. rewrite turn_fire. unfold handlers_on. rewrite H. reflexivity. Qed.

Lemma stranded_turn ev e s :
  stranded s ->
  let s' := turn ev e s in
  stranded s' /\ effects s' = effects s /\ ptys s' = ptys s /\ children s' = children s.
Proof.
  intros Hs. pose proof Hs as (Hu & Htd & Hl & Hq). cbv zeta.
  destruct ev as [c p | i o].
  - rewrite turn_unheard by exact Hl. auto.
  - destruct (pool s !! i) as [[w t] |] eqn:Hi;
      [rewrite (turn_settle_at s e i o w t Hi) | rewrite turn_settle_none by exact Hi; auto].
    assert (Ht : is_waiting t = true).
    { apply (forallb_lookup is_waiting (map snd (pool s)) i t Hq).
      rewrite list_lookup_fmap, Hi. reflexivity. }
    assert (Hd : forallb is_waiting (map snd (delete i (pool s))) = true).
    { clear Hi Hs. revert i. induction (pool s) as [| a l IH]; intros [| i]; simpl in *; auto;
        apply andb_prop in Hq; destruct Hq as [Ha Hq]; auto.
      rewrite Ha. simpl. auto. }
    destruct t as [[| | x] | | | | | | | [| | x] | |]; try discriminate; cbn [resume].
    + cbn. repeat split; auto.
    + symex. rewrite Htd. cbn. repeat split; auto.
    + symex. rewrite Hu. cbn. repeat split; auto.
    + symex. rewrite Hu. cbn. repeat split; auto.
      cbn [pool set_pool]. rewrite List.map_app, forallb_app, Hd. reflexivity.
Qed.

(** X14: a failed lease leaves the websocket open.  When the uid cannot
    be borrowed, the session begins teardown, and that is all it ever
    does to the outside: besides the request for a uid and the grace
    timer no command is run, no process is spawned and, since the
    cleanup step of teardown needs a uid it does not have, the websocket
    is never closed by the session. *)
Theorem a_failed_lease_leaves_the_websocket_open cfg id e env evs :
  let s := exec evs (turn (Settle 0 (rejected e)) env (start cfg id)) in
  uidInfo s = None /\ tearingDown s = true /\
  effects s = [EBorrowUser; ESetTimeout 5000] /\ ptys s = [] /\ children s = [].
Proof.
  set (s1 := turn (Settle 0 (rejected e)) env (start cfg id)).
  assert (H1 : stranded s1 /\ effects s1 = [EBorrowUser; ESetTimeout 5000] /\
               ptys s1 = [] /\ children s1 = []).
  { unfold s1. destruct env as [ws ch pt rp ps].
    destruct ws as [| [x |] r]; vm_compute; repeat split. }
  clearbody s1. cbv zeta. revert s1 H1.
  induction evs as [| [ev en] rest IH]; intros s1 (Hs & He & Hp & Hc); simpl.
  - destruct Hs as (Hu & Htd & _). auto.
  - destruct (stranded_turn ev en s1 Hs) as (Hs' & He' & Hp' & Hc').
    apply IH. split; [exact Hs' | repeat split; congruence].
Qed.

(** * Teardown and its triggers *)

Lemma listening_wiring s : lifecycle s -> listening s = true -> ws_listeners s = ws_wiring.
Proof.
  intros H Hl.
  assert (Hn : ws_listeners s = [] -> listening s = false).
  { intros Hw. unfold listening.
    rewrite (existsb_narrow _ on_websocket).
    - fold (ws_listeners s). rewrite Hw. reflexivity.
    - intros [c h]. unfold on_websocket. cbn. destruct c; try discriminate; reflexivity. }
  destruct H as [t H1 H2 H3 H4 | H1 H2 H3 | H1 H2 H3]; [| exact H2 |];
    rewrite Hn in Hl by assumption; discriminate.
Qed.

Lemma orderly_entered m m' :
  protocol (st m) -> tearingDown (st m) = false -> orderly m m' ->
  tearingDown (st m') = true -> entered (st m').
Proof.
  intros Hp Htd Ho Htd'. split; [exact Htd' |].
  assert (Hr : release_trace (st m) = []) by (destruct Hp; congruence).
  destruct Ho as [(N1 & _) | (_ & _ & _ & B4 & _)]; [congruence |].
  rewrite B4, Hr. reflexivity.
Qed.

Lemma orderly_send msg k : sat orderly (send msg k).
Proof. sat_auto orderly_known orderly_leaf. Qed.

Lemma flag_after_failed_send msg k s e x rest :
  tearingDown s = false -> ws_faults e = Some x :: rest ->
  tearingDown (st (fst (send msg k {| st := s; env := e |}))) = true.
Proof. intros Htd Hw. drive. reflexivity. Qed.

Lemma flag_after_close s e p :
  handlers_on ChWsClose s = [HClose] -> tearingDown (turn (Fire ChWsClose p) e s) = true.
Proof.
  intros H. rewrite turn_fire, H. cbn [call_all handler]. unfold bind.
  pose proof (flag_after_teardown KDone {| st := s; env := e |}) as Hf.
  destruct (teardown KDone {| st := s; env := e |}) as [m' [[] | x]]; exact Hf.
Qed.

Lemma flag_after_ws_error s e x :
  handlers_on ChWsError s = [HWsError] ->
  tearingDown (turn (Fire ChWsError (PError x)) e s) = true.
Proof.
  intros H. rewrite turn_fire, H. cbn [call_all handler]. unfold bind at 1 2. cbn [log modify].
  match goal with |- context [teardown KDone ?m] => pose proof (flag_after_teardown KDone m) as Hf;
    destruct (teardown KDone m) as [m' [[] | y]]; exact Hf end.
Qed.

Lemma setup_await_fails s e i t x :
  pool s !! i = Some (External, t) -> is_setup_await t = true ->
  let m1 := {| st := set_pool (delete i (pool s)) s; env := e |} in
  turn (Settle i (rejected x)) e s = st (fst (setup_catch x m1)).
Proof.
  intros Hi Ht m1. rewrite (turn_settle_at s e i (rejected x) External t Hi).
  destruct t; try discriminate; reflexivity.
Qed.

Lemma orderly_setup_catch x : sat orderly (setup_catch x).
Proof. sat_auto orderly_known orderly_leaf. Qed.

Lemma orderly_unqueue s e i w t :
  pool s !! i = Some (w, t) -> is_teardown_task t = false ->
  orderly {| st := s; env := e |} {| st := set_pool (delete i (pool s)) s; env := e |}.
Proof.
  intros Hi Ht. left. unfold td_neutral, teardown_tasks. cbn.
  rewrite (filter_delete_other is_teardown_task snd (pool s) i (w, t) Hi Ht).
  repeat split; auto.
Qed.

Lemma filter_nil_of_existsb {A} (f : A -> bool) (l : list A) :
  existsb f l = false -> List.filter f l = [].
Proof.
  induction l as [| a l IH]; [reflexivity |]. cbn. destruct (f a); [discriminate | exact IH].
Qed.

Lemma orderly_turn ev e s :
  (forall i o w t, ev = Settle i o -> pool s !! i = Some (w, t) -> is_teardown_task t = false) ->
  orderly {| st := s; env := e |} (fst (step ev {| st := s; env := e |})).
Proof.
  intros Hn. destruct ev as [c p | i o].
  - apply sat_fire; [exact _ | intros h; apply orderly_handler].
  - unfold step, bind at 1, gets at 1. cbn [st].
    destruct (pool s !! i) as [[w t] |] eqn:Hi; [| apply stable_refl].
    pose proof (Hn i o w t eq_refl Hi) as Ht.
    unfold bind, modify. cbn [st env fst].
    eapply stable_trans; [apply (orderly_unqueue s e i w t Hi Ht) |].
    apply orderly_resume. exact Ht.
Qed.

Lemma release_is_final evs : forall s,
  tearingDown s = true -> teardown_tasks s = [] ->
  release_trace (exec evs s) = release_trace s.
Proof.
  induction evs as [| [ev e] rest IH]; intros s Htd Ht; [reflexivity |].
  cbn [exec].
  assert (Ho : orderly {| st := s; env := e |} (fst (step ev {| st := s; env := e |}))).
  { apply orderly_turn. intros i o w t _ Hi.
    destruct (is_teardown_task t) eqn:E; [| reflexivity]. exfalso.
    assert (Hin : In t (teardown_tasks s)).
    { apply List.filter_In. split; [| exact E].
      change t with (snd (w, t)). apply List.in_map.
      apply list_elem_of_In. eapply list_elem_of_lookup_2. exact Hi. }
    rewrite Ht in Hin. destruct Hin. }
  destruct Ho as [(N1 & N2 & N3 & _) | (B1 & _)]; [| cbn in B1; congruence].
  cbn [st] in N1, N2, N3. fold (turn ev e s) in N1, N2, N3.
  rewrite IH by congruence. exact N3.
Qed.

Lemma failed_release_step s e i t x :
  protocol s -> pool s !! i = Some (External, t) -> is_release_await t = true ->
  let s' := turn (Settle i (rejected x)) e s in
  In (LTeardownError x) (logs s') /\ teardown_pending s' = false /\
  release_trace s' = release_trace s.
Proof.
  intros Hp Hi Ht s'.
  assert (Htt : is_teardown_task t = true) by (destruct t; try discriminate; reflexivity).
  assert (Hin : In t (teardown_tasks s)).
  { apply List.filter_In. split; [| exact Htt].
    change t with (snd (External, t)). apply List.in_map.
    apply list_elem_of_In. eapply list_elem_of_lookup_2. exact Hi. }
  assert (Hone : exists t', teardown_tasks s = [t']).
  { destruct Hp as [? Hn | k c ? Hk ? | k c ? Hk ? ? | k c ? Hk ? | n c ? Hn | c ? Hn];
      try (rewrite Hn in Hin; destruct Hin); eauto. }
  destruct Hone as [t' Ht'].
  destruct (filter_delete_single is_teardown_task snd (pool s) i (External, t) t' Hi Htt Ht')
    as [_ Hd].
  unfold s'. rewrite (turn_settle_at s e i (rejected x) External t Hi). cbn [outcome_for].
  assert (Hq : existsb is_teardown_task (map snd (delete i (pool s))) = false)
    by (apply existsb_filter_nil; exact Hd).
  destruct t; try discriminate; symex; destruct k; cbn;
    (split; [apply in_or_app; right; left; reflexivity |]);
    unfold teardown_pending, release_trace; cbn;
    rewrite ?List.map_app, ?existsb_app, ?Hq; cbn; auto.
Qed.

(** C1, amended: whatever happens to a session, and however often
    teardown is triggered, the steps of the release sequence that have
    run are a prefix of: grace timer of 5000 ms, privileged cleanup,
    return of the uid, closing of the websocket.  So each step runs at
    most once and in this order; the prefix is empty exactly as long as
    the flag is off; it is the whole sequence once teardown has come to
    its end without logging an error; and a call of [teardown] made
    while the flag is set does nothing.  While the flag is off, each
    trigger that reaches [teardown] sets the flag and starts the grace
    timer, nothing more: any call of [teardown]; a close or an error of
    the websocket once [setup] has registered its callbacks; the
    rejection of one of the awaits of [setup]; a [ws.send] that throws.
    Teardown stops at the first step that fails: when the cleanup
    command or the return of the uid is rejected, the error is logged,
    no continuation of [teardown] is left and no step has run in that
    turn; and once teardown has ended, nothing of the release sequence
    runs any more, whatever happens. *)
Theorem release_sequence_runs_at_most_once (cfg : LangConfig) (id : string)
    (evs : list (Event * Env)) :
  let s := exec evs (start cfg id) in
  (exists c n,
     release_trace s = take n (release_sequence c) /\
     (n = 0 <-> tearingDown s = false) /\
     (tearingDown s = true -> teardown_pending s = false -> teardown_errors s = 0 -> n = 4)) /\
  (tearingDown s = true ->
   forall e, teardown KDone {| st := s; env := e |} = ({| st := s; env := e |}, Val tt)) /\
  (tearingDown s = false ->
   (forall k e, entered (st (fst (teardown k {| st := s; env := e |})))) /\
   (listening s = true ->
    forall e,
      (forall p, entered (turn (Fire ChWsClose p) e s)) /\
      (forall x, entered (turn (Fire ChWsError (PError x)) e s))) /\
   (forall i t x e,
      pool s !! i = Some (External, t) -> is_setup_await t = true ->
      entered (turn (Settle i (rejected x)) e s)) /\
   (forall msg k e x rest,
      ws_faults e = Some x :: rest ->
      entered (st (fst (send msg k {| st := s; env := e |}))))) /\
  (forall i t x e,
     pool s !! i = Some (External, t) -> is_release_await t = true ->
     let s' := turn (Settle i (rejected x)) e s in
     In (LTeardownError x) (logs s') /\ teardown_pending s' = false /\
     release_trace s' = release_trace s) /\
  (tearingDown s = true -> teardown_pending s = false ->
   forall later, release_trace (exec later s) = release_trace s).
Proof.
  intros s.
  assert (H : protocol s) by apply protocol_exec, protocol_start.
  assert (L : lifecycle s) by apply lifecycle_exec, lifecycle_start.
  split; [| split; [intros Htd e; apply teardown_again_is_a_no_op; exact Htd |]];
    [| split; [| split;
         [ intros i t x e Hi Ht; apply (failed_release_step s e i t x H Hi Ht)
         | intros Htd Hp later; apply release_is_final;
           [exact Htd | apply filter_nil_of_existsb; exact Hp] ]]].
  - assert (Hp : forall t, teardown_tasks s = [t] -> teardown_pending s = true).
    { intros t Ht. unfold teardown_pending, teardown_tasks in *.
      apply existsb_exists. exists t.
      assert (In t (List.filter is_teardown_task (map snd (pool s)))) as Hin
        by (rewrite Ht; left; reflexivity).
      apply List.filter_In in Hin. exact Hin. }
    destruct H as [Htd Ht Hr | k c Htd Ht Hr | k c Htd Ht Hr Hu | k c Htd Ht Hr
                   | n c Htd Ht Hn Hr He | c Htd Ht Hr].
    + exists {| ctx_uid := 0; ctx_uuid := "" |}, 0. rewrite Hr, Htd.
      repeat split; auto; congruence.
    + exists c, 1. rewrite Hr, Htd, (Hp _ Ht). repeat split; try congruence; lia.
    + exists c, 2. rewrite Hr, Htd, (Hp _ Ht). repeat split; try congruence; lia.
    + exists c, 3. rewrite Hr, Htd, (Hp _ Ht). repeat split; try congruence; lia.
    + exists c, n. rewrite Hr, Htd. repeat split; try congruence; lia.
    + exists c, 4. rewrite Hr, Htd. repeat split; try congruence; lia.
  - intros Htd. split; [| split; [| split]].
    + intros k e. apply (orderly_entered {| st := s; env := e |}); auto.
      * apply orderly_teardown.
      * apply flag_after_teardown.
    + intros Hl e. pose proof (listening_wiring s L Hl) as Hw.
      split; [intros p | intros x].
      * apply (orderly_entered {| st := s; env := e |}); auto.
        -- apply sat_fire; [exact _ | intros h; apply orderly_handler].
        -- apply flag_after_close. rewrite handlers_on_websocket by reflexivity.
           rewrite Hw. reflexivity.
      * apply (orderly_entered {| st := s; env := e |}); auto.
        -- apply sat_fire; [exact _ | intros h; apply orderly_handler].
        -- apply flag_after_ws_error. rewrite handlers_on_websocket by reflexivity.
           rewrite Hw. reflexivity.
    + intros i t x e Hi Ht.
      rewrite (setup_await_fails s e i t x Hi Ht).
      assert (Hn : is_teardown_task t = false) by (destruct t; try discriminate; reflexivity).
      apply (orderly_entered {| st := s; env := e |}); auto.
      * eapply stable_trans; [apply (orderly_unqueue s e i External t Hi Hn) |].
        apply orderly_setup_catch.
      * apply flag_after_setup_catch.
    + intros msg k e x rest Hw.
      apply (orderly_entered {| st := s; env := e |}); auto.
      * apply orderly_send.
      * apply (flag_after_failed_send msg k s e x rest); assumption.
Qed.

(** A close that comes while [setup] is still waiting finds no callback:
    the event changes nothing, setup goes on to Ready, and nothing of the
    release sequence ever runs for that close. *)
Lemma close_during_setup_is_not_heard :
  let s := exec (calm (Fire ChWsClose PNone) :: to_ready) (start python "s1") in
  s = ready_python /\ tearingDown s = false /\ release_trace s = [].
Proof. vm_compute. repeat split; reflexivity. Qed.

(** * Setup when the first deployment fails *)

Section Failing.
Variables (cfg : LangConfig) (id : string) (u : nat).
Let ctx : Context := {| ctx_uid := u; ctx_uuid := id |}.

Lemma catch_goes_well s x k :
  sound cfg id u s ->
  runCode_catch x k {| st := s; env := quiet |} =
  ({| st := returning k
              (set_pool (pool s ++ [(Microtask, TKont (KSendError x))])
                 (set_sent (sent s ++ [terminalClear])
                    (set_logs (logs s ++ [LRunError x]) s)));
      env := quiet |}, Val tt).
Proof.
  intros (Hc & Hi & Hu & Htd). symex. rewrite Htd. cbn. destruct k; reflexivity.
Qed.

Lemma second_goes_well s x :
  tearingDown s = false ->
  sendError_second x {| st := s; env := quiet |} =
  ({| st := set_sent (sent s ++ [terminalOutput (diagnostic x)]) s; env := quiet |}, Val tt).
Proof. intros Htd. symex. rewrite Htd. reflexivity. Qed.

Lemma spawn_is_caught s cmdline k x :
  sound cfg id u s ->
  try_catch (runCode_spawn cmdline k) (fun e => runCode_catch e k)
    {| st := s; env := spawn_throws x |} =
  runCode_catch x k {| st := s; env := quiet |}.
Proof.
  intros (Hc & Hi & Hu & Htd).
  unfold try_catch, runCode_spawn, bind at 1, privilegedSpawn, bind at 1, context, bind at 1,
    gets at 1.
  cbn [st]. rewrite Hu. reflexivity.
Qed.

Lemma step_rejected_mkdir code cmdline k x m :
  runCode_mkdir code cmdline k (rejected x) m = runCode_catch x k m.
Proof. reflexivity. Qed.

Lemma step_rejected_written code cmdline k x m :
  runCode_written code cmdline k (rejected x) m = runCode_catch x k m.
Proof. reflexivity. Qed.

Lemma step_rejected_hacked cmdline k x m :
  runCode_hacked cmdline k (rejected x) m = runCode_catch x k m.
Proof. reflexivity. Qed.

Ltac next_turn Hp :=
  rewrite exec_cons;
  erewrite turn_settle
    by (cbn [waiting_for returning set_pool set_effects set_sent pool]; rewrite ?Hp;
        reflexivity);
  cbn [resume outcome_for].

Ltac goes_on Hp :=
  next_turn Hp;
  unfold runCode_mkdir, runCode_written, runCode_hacked, try_catch, bind at 1, settled, ret;
  cbv beta iota.

Ltac fails_now Hp :=
  next_turn Hp;
  rewrite ?step_rejected_mkdir, ?step_rejected_written, ?step_rejected_hacked;
  rewrite catch_goes_well by (repeat split; read_field; assumption);
  cbn [fst st].

Lemma deploy_fails_at s code k n x rest :
  sound cfg id u s -> pool s = [] -> n < deploy_turns cfg ->
  exec (settles n ++ calm (Settle 0 (rejected x)) :: rest)
       (st (fst (runCode_deploy code k {| st := s; env := quiet |}))) =
  exec rest (reported x k (take (S n) (deploy_effects cfg ctx code)) s).
Proof.
  intros Hs Hp Hn. pose proof Hs as (Hc & Hi & Hu & Htd).
  rewrite (deploy_goes_well cfg id u s code k Hs). cbn [fst st].
  unfold deploy_turns in Hn. unfold settles, calm, deploy_effects.
  destruct (includes_char "/" (Lang.main cfg)) eqn:Es;
    destruct (ghci_hack cfg) eqn:Eg;
    cbn [Nat.add] in Hn;
    (destruct n as [| [| [| n]]]; [| | | lia]); try lia; cbn [repeat app take].
  all: repeat first
    [ fails_now Hp
    | goes_on Hp;
      first [ rewrite (write_goes_well cfg id u) by (repeat split; read_field; assumption)
            | rewrite (hacks_go_well cfg id u) by (repeat split; read_field; assumption) ];
      cbn [fst st]; rewrite ?Eg ].
  all: try (destruct (nonempty (deployed_code cfg code)) eqn:En).
  all: repeat fails_now Hp.
  all: f_equal; unfold reported; destruct k; apply St_ext; read_field;
    rewrite ?Hp, ?Hc, ?Hi; cbn [app ctx_uuid ctx]; reflexivity.
Qed.

Lemma hacked_spawn_throws s cmdline k v x :
  sound cfg id u s ->
  runCode_hacked cmdline k (resolved v) {| st := s; env := spawn_throws x |} =
  runCode_catch x k {| st := s; env := quiet |}.
Proof. intros Hs. apply (spawn_is_caught s cmdline k x Hs). Qed.

Lemma written_spawn_throws s code cmdline k v x :
  sound cfg id u s -> ghci_hack cfg = false ->
  runCode_written code cmdline k (resolved v) {| st := s; env := spawn_throws x |} =
  runCode_catch x k {| st := s; env := quiet |}.
Proof.
  intros Hs Eg. rewrite <- (spawn_is_caught s cmdline k x Hs).
  destruct Hs as (Hc & Hi & Hu & Htd).
  unfold runCode_written, try_catch, bind at 1, settled, ret. cbv beta iota.
  unfold runCode_hacks, bind at 1, gets at 1. cbn [st]. rewrite Hc.
  unfold bind at 1, homedir, gets at 1. cbn [st]. rewrite Eg. reflexivity.
Qed.

Ltac throws_now Hp Eg :=
  rewrite exec_cons;
  erewrite turn_settle
    by (cbn [waiting_for returning set_pool set_effects set_sent pool]; rewrite ?Hp;
        reflexivity);
  cbn [resume outcome_for];
  first [ rewrite hacked_spawn_throws by (repeat split; read_field; assumption)
        | rewrite written_spawn_throws
            by (first [exact Eg | repeat split; read_field; assumption]) ];
  rewrite catch_goes_well by (repeat split; read_field; assumption);
  cbn [fst st].

Lemma spawn_fails_at s code k x rest :
  sound cfg id u s -> pool s = [] ->
  exec (settles (deploy_turns cfg - 1) ++ (Settle 0 (resolved 0), spawn_throws x) :: rest)
       (st (fst (runCode_deploy code k {| st := s; env := quiet |}))) =
  exec rest (reported x k (deploy_effects cfg ctx code) s).
Proof.
  intros Hs Hp. pose proof Hs as (Hc & Hi & Hu & Htd).
  rewrite (deploy_goes_well cfg id u s code k Hs). cbn [fst st].
  unfold deploy_turns, settles, calm, deploy_effects.
  destruct (includes_char "/" (Lang.main cfg)) eqn:Es;
    destruct (ghci_hack cfg) eqn:Eg;
    cbn [Nat.add Nat.sub repeat app].
  all: repeat first
    [ throws_now Hp Eg
    | goes_on Hp;
      first [ rewrite (write_goes_well cfg id u) by (repeat split; read_field; assumption)
            | rewrite (hacks_go_well cfg id u) by (repeat split; read_field; assumption) ];
      cbn [fst st]; rewrite ?Eg ].
  all: try (destruct (nonempty (deployed_code cfg code)) eqn:En).
  all: repeat throws_now Hp Eg.
  all: f_equal; unfold reported; destruct k; apply St_ext; read_field;
    rewrite ?Hp, ?Hc, ?Hi; cbn [app ctx_uuid ctx]; reflexivity.
Qed.
End Failing.

(** The session when the privileged setup has succeeded and [setup] is
    about to call [runCode]. *)
Lemma setup_deploys cfg id u rest :
  exists s2,
    exec (calm (Settle 0 (resolved u)) :: calm (Settle 0 (resolved 0)) :: rest) (start cfg id) =
    exec rest (st (fst (runCode_deploy None KSetup {| st := s2; env := quiet |}))) /\
    sound cfg id u s2 /\ pool s2 = [] /\
    forall done x, exec (settles 3) (reported x KSetup done s2) = ready_undeployed cfg id u done x.
Proof.
  unfold calm. rewrite start_state, exec_cons.
  erewrite turn_settle by reflexivity. cbn [resume outcome_for].
  rewrite borrowed_goes_well. cbn [fst st].
  match goal with |- context [exec _ ?s = _] => set (s1 := s) end.
  assert (Hp1 : pool s1 = [(External, TSetupPrivileged)]) by reflexivity.
  rewrite exec_cons. erewrite turn_settle by exact Hp1. cbn [resume outcome_for].
  unfold setup_privileged, try_catch, bind at 1, settled, ret. cbv beta iota.
  set (s2 := set_pool [] s1).
  exists s2.
  assert (Hs2 : sound cfg id u s2) by (repeat split).
  assert (Hr2 : retired {| ctx_uid := u; ctx_uuid := id |} s2 = s2) by reflexivity.
  split; [| split; [exact Hs2 | split; [reflexivity |]]].
  - rewrite (runCode_goes_well cfg id u s2 None KSetup Hs2), Hr2.
    destruct (deploy_returns cfg id u s2 None KSetup Hs2) as [s3 H3]. rewrite H3. reflexivity.
  - intros done x. unfold settles, calm. cbn [repeat].
    set (ctx := {| ctx_uid := u; ctx_uuid := id |}).
    rewrite exec_cons. erewrite turn_settle by reflexivity. cbn [resume outcome_for].
    rewrite second_goes_well by reflexivity. cbn [fst st].
    rewrite exec_cons. erewrite turn_settle by reflexivity. cbn [resume outcome_for].
    match goal with |- context [setup_services {| st := ?s; env := _ |}] => set (s4 := s) end.
    assert (Hs4 : sound cfg id u s4) by (repeat split).
    rewrite (services_go_well cfg id u s4 Hs4). cbn [fst st]. fold ctx.
    unfold ready_undeployed. cbv zeta. fold ctx.
    destruct (present (Lang.daemon cfg)) eqn:Ed, (present (Lang.lsp cfg)) eqn:El;
      [ destruct (present (Lang.lspSetup cfg)) eqn:Els |
      | destruct (present (Lang.lspSetup cfg)) eqn:Els | ].
    all: rewrite exec_cons.
    all: first [ erewrite turn_settle by reflexivity; cbn [resume outcome_for];
                 unfold setup_lspSetup, try_catch, bind at 1, settled, ret; cbv beta iota;
                 rewrite (lsp_goes_well cfg id u) by (repeat split); cbn [fst st]
               | rewrite turn_idle by reflexivity ].
    all: apply St_ext; subst s4 s2 s1; unfold reported; read_field; cbn [andb];
      rewrite ?app_nil_r; reflexivity.
Qed.

Lemma failed_deploy_command cfg id u x n :
  n < deploy_turns cfg ->
  let ctx := {| ctx_uid := u; ctx_uuid := id |} in
  exec (deploy_fails u n x) (start cfg id) =
  ready_undeployed cfg id u (take (S n) (deploy_effects cfg ctx None)) x.
Proof.
  intros Hn ctx. unfold deploy_fails.
  change (settles (S n)) with (calm (Settle 0 (resolved 0)) :: settles n). cbn [app].
  destruct (setup_deploys cfg id u (settles n ++ calm (Settle 0 (rejected x)) :: settles 3))
    as (s2 & H1 & H2 & H3 & H4).
  rewrite H1. rewrite (deploy_fails_at cfg id u s2 None KSetup n x (settles 3) H2 H3 Hn).
  apply H4.
Qed.

Lemma failed_spawn cfg id u x :
  let ctx := {| ctx_uid := u; ctx_uuid := id |} in
  exec (spawn_fails cfg u x) (start cfg id) =
  ready_undeployed cfg id u (deploy_effects cfg ctx None) x.
Proof.
  intros ctx. unfold spawn_fails.
  assert (Hd : settles (deploy_turns cfg) =
               calm (Settle 0 (resolved 0)) :: settles (deploy_turns cfg - 1)).
  { unfold deploy_turns. destruct (includes_char _ _), (ghci_hack cfg); reflexivity. }
  rewrite Hd. cbn [app].
  destruct (setup_deploys cfg id u
              (settles (deploy_turns cfg - 1) ++
               (Settle 0 (resolved 0), spawn_throws x) :: settles 3))
    as (s2 & H1 & H2 & H3 & H4).
  rewrite H1. rewrite (spawn_fails_at cfg id u s2 None KSetup x (settles 3) H2 H3).
  apply H4.
Qed.

Lemma ready_undeployed_listens cfg id u done x :
  listening (ready_undeployed cfg id u done x) = true.
Proof.
  unfold listening, ready_undeployed. cbn [listeners].
  destruct (present (Lang.daemon cfg)), (present (Lang.lsp cfg)); reflexivity.
Qed.

(** C6, amended.  When the uid cannot be borrowed, or when it is
    borrowed and the privileged setup fails, the failure is logged,
    [sendError] clears the client's terminal (if the websocket takes the
    frame), the teardown flag is set at once and the session never
    listens to the websocket, whatever happens later; in the second case
    the uid is returned, as part of the full release sequence, once
    teardown has come to its end without an error of its own.  A failure
    of the first deployment does not fail [setup], for any language:
    when one of the commands the deployment waits for is rejected (the
    [n] before it having succeeded), or when all succeed and [pty.spawn]
    throws, [runCode] logs the error and reports it to the client
    ([terminalClear], then [terminalOutput] with the diagnostic), and
    [setup] goes on; with the later steps succeeding the session is
    [ready_undeployed]: it listens to the websocket, is not tearing
    down, holds its uid and has no terminal. *)
Theorem failed_setup_never_becomes_ready cfg id :
  (forall e env,
     let s1 := turn (Settle 0 (rejected e)) env (start cfg id) in
     In (LSetupError e) (logs s1) /\ tearingDown s1 = true /\
     (ws_faults env = [] -> sent s1 = [terminalClear]) /\
     forall evs, listening (exec evs s1) = false) /\
  (forall u e env1 env2,
     let s2 := exec [(Settle 0 (resolved u), env1); (Settle 0 (rejected e), env2)]
                    (start cfg id) in
     In (LSetupError e) (logs s2) /\ tearingDown s2 = true /\
     (ws_faults env2 = [] -> sent s2 = [terminalClear]) /\
     forall evs,
       let s := exec evs s2 in
       listening s = false /\
       (teardown_pending s = false -> teardown_errors s = 0 ->
        exists c, release_trace s = release_sequence c)) /\
  (forall u x n,
     n < deploy_turns cfg ->
     let ctx := {| ctx_uid := u; ctx_uuid := id |} in
     let s := exec (deploy_fails u n x) (start cfg id) in
     s = ready_undeployed cfg id u (take (S n) (deploy_effects cfg ctx None)) x /\
     listening s = true) /\
  (forall u x,
     let ctx := {| ctx_uid := u; ctx_uuid := id |} in
     let s := exec (spawn_fails cfg u x) (start cfg id) in
     s = ready_undeployed cfg id u (deploy_effects cfg ctx None) x /\
     listening s = true).
Proof.
  split; [| split; [| split]].
  - intros e env s1.
    destruct (lease_failure cfg id e env) as (H1 & H2 & H3 & H4 & H5).
    fold s1 in H1, H2, H3, H4, H5.
    repeat split; auto. intros evs. apply (abandoned_exec evs s1 H4).
  - intros u e env1 env2 s2.
    destruct (privileged_setup_failure cfg id u e env1 env2) as (H1 & H2 & H3 & H4 & H5).
    fold s2 in H1, H2, H3, H4, H5.
    repeat split; auto.
    + apply (abandoned_exec evs s2 H4).
    + intros Hp He. apply protocol_clean_end; auto.
      * apply protocol_exec. unfold s2. apply protocol_exec, protocol_start.
      * apply (frozen_exec evs s2 H2).
  - intros u x n Hn ctx s. unfold s.
    rewrite (failed_deploy_command cfg id u x n Hn). fold ctx.
    split; [reflexivity | apply ready_undeployed_listens].
  - intros u x ctx s. unfold s.
    rewrite (failed_spawn cfg id u x). fold ctx.
    split; [reflexivity | apply ready_undeployed_listens].
Qed.

(** * Errors of a client's turn are logged and reported *)

Lemma used_up_same l x : used_up l l x -> False.
Proof.
  intros (c & H & Hin).
  assert (Hl : length l = length c + length l) by (rewrite H at 1; apply List.length_app).
  destruct c; [destruct Hin | simpl in Hl; lia].
Qed.

Lemma used_up_one o l x : used_up (o :: l) l x -> o = Some x.
Proof.
  intros (c & H & Hin).
  assert (Hl : S (length l) = length c + length l).
  { change (S (length l)) with (length (o :: l)). rewrite H. apply List.length_app. }
  destruct c as [| a [| b c]]; simpl in Hl; try lia.
  simpl in H. injection H as ->. destruct Hin as [-> | []]. reflexivity.
Qed.

Ltac threw_tac :=
  let H := fresh "H" in
  unfold library_threw;
  intros [H | [H | H]];
  cbn [child_faults pty_faults rpc_faults put_ws put_child put_pty put_rpc put_pids] in H;
  try match goal with
      | E : child_faults _ = _ :: _ |- _ => rewrite E in H
      | E : pty_faults _ = _ :: _ |- _ => rewrite E in H
      | E : rpc_faults _ = _ :: _ |- _ => rewrite E in H
      end;
  first [ exfalso; exact (used_up_same _ _ H)
        | apply used_up_one in H;
          first [ discriminate H
                | injection H as ->; erewrite caught_app by (cbn; reflexivity); reflexivity ] ].

Lemma receive_throws s e raw x :
  tearingDown s = false -> ws_faults e = [] ->
  let m1 := fst (receive raw {| st := s; env := e |}) in
  library_threw e (env m1) x -> caught s (st m1) = [x].
Proof.
  intros Htd Hw m1. unfold m1. clear m1.
  drive.
  all: threw_tac.
Qed.

Lemma resume_throws s e i w t o x :
  tearingDown s = false -> ws_faults e = [] ->
  pool s !! i = Some (w, t) -> is_client_runCode t = true ->
  let m1 := fst (step (Settle i o) {| st := s; env := e |}) in
  library_threw e (env m1) x -> caught s (st m1) = [x].
Proof.
  intros Htd Hw Hi Ht m1. unfold m1. clear m1. unfold step. symex. rewrite Hi. cbn.
  generalize (outcome_for w o). clear o. intros o.
  destruct t as [| | | | c1 c2 [| |] | c1 c2 [| |] | c2 [| |] | | | ]; try discriminate;
    destruct o as [v | y]; drive; threw_tac.
Qed.

Lemma step_message s e raw :
  handlers_on ChWsMessage s = [HReceive] ->
  fst (step (Fire ChWsMessage (PFrame raw)) {| st := s; env := e |}) =
  fst (receive raw {| st := s; env := e |}).
Proof.
  intros H. unfold step, bind, gets. simpl. rewrite emit_call_all.
  unfold handlers_on in H. rewrite H. simpl. unfold bind.
  destruct (receive raw {| st := s; env := e |}) as [m' [[] | x]]; reflexivity.
Qed.

Lemma unprintable_is_caught s e msg :
  tearingDown s = false -> ws_faults e = [] ->
  malformed (Some msg) = true -> printable msg = false ->
  exists x, caught s (st (fst (receive (Some msg) {| st := s; env := e |}))) = [x].
Proof.
  intros Htd Hw Hm Hp. unfold malformed in Hm.
  eexists.
  drive; try discriminate; try congruence.
  all: erewrite caught_app by (cbn; reflexivity); reflexivity.
Qed.



(** On the sample session: the kill command of a second Run-Code cannot
    be spawned. *)
Lemma failed_kill_reaches_the_client :
  let s1 := turn (Fire ChWsMessage (PFrame (Some rerun))) kill_fails ready_python in
  caught ready_python s1 = ["Error: spawn EAGAIN"] /\
  term s1 = Some 0 /\
  sent (checkpoint (length (pool s1)) s1) =
  sent ready_python ++ [terminalClear; terminalOutput (diagnostic "Error: spawn EAGAIN")].
Proof. vm_compute. repeat split; reflexivity. Qed.


(** * How a turn ends *)

Lemma wired_exec evs : forall s, wired s = true -> wired (exec evs s) = true.
Proof.
  induction evs as [| [ev e] rest IH]; intros s Hw; simpl; [exact Hw |].
  apply IH. apply (silenced_step ev {| st := s; env := e |} Hw).
Qed.

Lemma unpaired_channel_is_unheard c s :
  (forall h, paired (c, h) = false) ->
  (forall c' h, same_channel c' c = true -> paired (c', h) = paired (c, h)) ->
  wired s = true -> handlers_on c s = [].
Proof.
  intros Hc Hs. unfold wired, handlers_on. induction (listeners s) as [| [c' h] ls IH]; intros Hw;
    [reflexivity |].
  cbn [forallb] in Hw. apply andb_prop in Hw. destruct Hw as [Hp Hw].
  cbn [List.filter fst]. destruct (same_channel c' c) eqn:E; [| apply IH, Hw].
  rewrite (Hs c' h E), Hc in Hp. discriminate.
Qed.

Lemma not_listening_no_wiring s : lifecycle s -> listening s = false -> ws_listeners s = [].
Proof.
  intros H Hl. destruct H as [t H1 H2 H3 H4 | H1 H2 H3 | H1 H2 H3]; [exact H3 | | exact H2].
  exfalso. unfold listening in Hl.
  rewrite (existsb_narrow _ on_websocket) in Hl.
  - fold (ws_listeners s) in Hl. rewrite H2 in Hl. discriminate.
  - intros [c h]. unfold on_websocket. cbn. destruct c; try discriminate; reflexivity.
Qed.

(** X1: the code of the session lets no error escape, and a turn ends
    with an exception in one case only.  In any state, a suspended
    function that resumes returns normally whatever its outcome and
    whatever the libraries answer, and so does every callback an event
    calls; the one event that ends its turn with an exception is an
    "error" that no listener is registered for, which Node throws and
    which then leaves the session as it was.  Whatever has happened to a
    session, that is the case for the "error" of a kill command spawned
    by [runCode] and for a failure of the language server's message
    reader, which never get a listener, and for the "error" of the
    websocket as long as [setup] has not registered its callbacks;
    afterwards that one is heard. *)
Theorem only_an_unheard_error_ends_a_turn cfg id evs :
  let s := exec evs (start cfg id) in
  (forall s0 ev e,
     snd (step ev {| st := s0; env := e |}) =
     match ev with
     | Fire c (PError x) =>
         if is_error_event c then
           match handlers_on c s0 with
           | [] => Exn x
           | _ => Val tt
           end
         else Val tt
     | _ => Val tt
     end) /\
  (forall s0 c x e,
     is_error_event c = true -> handlers_on c s0 = [] ->
     step (Fire c (PError x)) {| st := s0; env := e |} = ({| st := s0; env := e |}, Exn x)) /\
  (forall n, handlers_on (ChKillError n) s = []) /\
  handlers_on ChLspReaderError s = [] /\
  (listening s = false -> handlers_on ChWsError s = []) /\
  (listening s = true -> handlers_on ChWsError s = [HWsError]).
Proof.
  intros s.
  assert (L : lifecycle s) by apply lifecycle_exec, lifecycle_start.
  assert (W : wired s = true) by (apply wired_exec; reflexivity).
  assert (U : forall s0 c x,
            unheard (listeners s0) c (PError x) =
            if is_error_event c then match handlers_on c s0 with [] => Some x | _ => None end
            else None).
  { intros s0 c x. unfold unheard, handlers_on. destruct (is_error_event c); [| reflexivity].
    cbn [andb]. induction (listeners s0) as [| l ls IH]; [reflexivity |].
    cbn [existsb List.filter]. destruct (same_channel (fst l) c); [reflexivity | exact IH]. }
  split; [| split; [| split; [| split; [| split]]]].
  - intros s0 ev e. rewrite result_of_step. destruct ev as [c p | i o]; [| reflexivity].
    destruct p; try reflexivity. cbn [st]. rewrite U.
    destruct (is_error_event c); [| reflexivity]. destruct (handlers_on c s0); reflexivity.
  - intros s0 c x e Hc Hn. unfold step, bind, gets. cbn [st]. rewrite U, Hc, Hn. reflexivity.
  - intros n. apply unpaired_channel_is_unheard; [reflexivity | | exact W].
    intros c' h E. destruct c'; try discriminate. reflexivity.
  - apply unpaired_channel_is_unheard; [reflexivity | | exact W].
    intros c' h E. destruct c'; try discriminate. reflexivity.
  - intros Hl. rewrite handlers_on_websocket by reflexivity.
    rewrite (not_listening_no_wiring s L Hl). reflexivity.
  - intros Hl. rewrite handlers_on_websocket by reflexivity.
    rewrite (listening_wiring s L Hl). reflexivity.
Qed.
